(** * AI-labs notebooks: search engines and Horn-clause reasoners

    A shallow embedding of the code of four notebooks:
    - lab1: [BFSAgent.bfs], [DFSAgent.dfs] / [dfs_recurrence];
    - lab2: [astar] over [queue.PriorityQueue], the vacuum world and its
      two variants, the 8-puzzle and its heuristics;
    - lab3: [hill_climbing], [FunctionOptimizationProblem], [NQueens];
    - lab10: [KB], the two baseline reasoners,
      [ForwardChainingReasoner], [BackwardChainingReasoner].

    Python objects that are mutated in place (the deque, the visited set,
    the path lists, the memo dictionary) are threaded explicitly through
    the functions; loops that Python bounds only dynamically take a fuel
    argument, and [Timeout] is the answer of a run whose fuel ran out. *)

From Stdlib Require Import ZArith QArith List Lia.
From stdpp Require Import base gmap sets list strings pretty.

Set Warnings "-clear-no-such-hyp".

Open Scope Z_scope.
Open Scope nat_scope.
Open Scope string_scope.
Open Scope list_scope.

(** ** Outcomes of a Python call *)

(** The exceptions the modelled code can raise. *)
Inductive exn : Type :=
  | InvalidAction   (* raised by [Problem.do_action] on an unlisted action *)
  | IndexError      (* pop / [-1] on an empty list or deque *)
  | RecursionError. (* a call nested deeper than the interpreter allows *)

(** [Done a]: the call returned [a]; [Raises e]: it raised [e];
    [Blocks]: it waits forever inside a blocking library call;
    [Timeout]: the fuel of the model ran out before the call ended. *)
Inductive run (A : Type) : Type :=
  | Done (a : A)
  | Raises (e : exn)
  | Blocks
  | Timeout.
Arguments Done {A} a.
Arguments Raises {A} e.
Arguments Blocks {A}.
Arguments Timeout {A}.

(** ** The Problem interface (lab1 cell 8, extended in lab2 cell 3) *)

Section Problem.
Context {State Action : Type}.

(** [do_action] is the only method the concrete problems make fail
    ([raise Exception('Invalid action')]); [None] stands for that.
    lab1's engines never call [action_cost] or [heuristic]. Costs and
    heuristic values are integers, as in [VacuumProblem]. *)
Record Problem : Type := {
  initial_state : State;
  available_actions : State -> list Action;
  do_action : State -> Action -> option State;
  is_goal : State -> bool;
  action_cost : State -> Action -> Z;
  heuristic : State -> Z
}.

(** Executing a plan action by action, as the notebooks' test cells do. *)
Fixpoint run_plan (P : Problem) (s : State) (plan : list Action) : option State :=
  match plan with
  | [] => Some s
  | a :: rest =>
      match do_action P s a with
      | Some s' => run_plan P s' rest
      | None => None
      end
  end.

(** A plan is executable when each of its actions is listed by
    [available_actions] in the state where it is taken. *)
Fixpoint legal_plan (P : Problem) (s : State) (plan : list Action) : Prop :=
  match plan with
  | [] => True
  | a :: rest =>
      In a (available_actions P s) /\
      match do_action P s a with
      | Some s' => legal_plan P s' rest
      | None => False
      end
  end.

(** [plan] leads from [s] to a goal state. *)
Definition reaches_goal (P : Problem) (s : State) (plan : list Action) : Prop :=
  legal_plan P s plan /\
  exists g, run_plan P s plan = Some g /\ is_goal P g = true.

(** Total action cost of a plan started in [s]. *)
Fixpoint plan_cost (P : Problem) (s : State) (plan : list Action) : Z :=
  match plan with
  | [] => 0%Z
  | a :: rest =>
      match do_action P s a with
      | Some s' => (action_cost P s a + plan_cost P s' rest)%Z
      | None => action_cost P s a
      end
  end.

(** The Problem never raises on an action it listed itself. *)
Definition listed_actions_ok (P : Problem) : Prop :=
  forall s a, In a (available_actions P s) -> is_Some (do_action P s a).
End Problem.
Arguments Problem : clear implicits.

(** ** lab1: breadth-first search *)

Section BFS.
Context {State Action : Type} `{Countable State}.
Variable P : Problem State Action.

(** The [for move in available_actions(current_state)] loop: the visited
    set and the deque are updated in place. *)
Fixpoint bfs_expand (current_state : State) (current_path : list Action)
    (moves : list Action) (visited_states : gset State)
    (queue_of_paths : list (State * list Action))
    : run (gset State * list (State * list Action)) :=
  match moves with
  | [] => Done (visited_states, queue_of_paths)
  | move :: rest =>
      match do_action P current_state move with
      | None => Raises InvalidAction
      | Some new_state =>
          if decide (new_state ∈ visited_states)
          then bfs_expand current_state current_path rest
                 visited_states queue_of_paths
          else bfs_expand current_state current_path rest
                 ({[new_state]} ∪ visited_states)
                 (queue_of_paths ++ [(new_state, current_path ++ [move])])
      end
  end.

(** The [while not is_goal(current_state) and queue_of_paths] loop. *)
Fixpoint bfs_loop (fuel : nat) (current_state : State)
    (current_path : list Action) (visited_states : gset State)
    (queue_of_paths : list (State * list Action)) : run (list Action) :=
  match fuel with
  | O => Timeout
  | S fuel' =>
      if negb (is_goal P current_state) &&
         negb (bool_decide (queue_of_paths = []))
      then
        match bfs_expand current_state current_path
                (available_actions P current_state)
                visited_states queue_of_paths with
        | Done (visited', queue') =>
            match queue' with
            | [] => Raises IndexError
            | (s, p) :: queue'' => bfs_loop fuel' s p visited' queue''
            end
        | Raises e => Raises e
        | Blocks => Blocks
        | Timeout => Timeout
        end
      else Done current_path
  end.

Definition bfs (fuel : nat) : run (list Action) :=
  bfs_loop fuel (initial_state P) [] {[initial_state P]}
    [(initial_state P, [])].
End BFS.

(** *** The same loop, with a log of what it dequeues *)

Section BFSLog.
Context {State Action : Type} `{Countable State}.
Variable P : Problem State Action.

(** The [while] loop of [bfs] once more. [dequeued] collects every entry
    that [queue_of_paths.popleft()] returns, the oldest first; at the
    exit the loop variables [current_state], [current_path] and
    [queue_of_paths] are returned together with that log. *)
Fixpoint bfs_loop_log (fuel : nat) (current_state : State)
    (current_path : list Action) (visited_states : gset State)
    (queue_of_paths : list (State * list Action))
    (dequeued : list (State * list Action))
    : run (State * list Action * list (State * list Action)
           * list (State * list Action)) :=
  match fuel with
  | O => Timeout
  | S fuel' =>
      if negb (is_goal P current_state) &&
         negb (bool_decide (queue_of_paths = []))
      then
        match bfs_expand P current_state current_path
                (available_actions P current_state)
                visited_states queue_of_paths with
        | Done (visited', queue') =>
            match queue' with
            | [] => Raises IndexError
            | (s, p) :: queue'' =>
                bfs_loop_log fuel' s p visited' queue''
                             (dequeued ++ [(s, p)])
            end
        | Raises e => Raises e
        | Blocks => Blocks
        | Timeout => Timeout
        end
      else Done (current_state, current_path, queue_of_paths, dequeued)
  end.

Definition bfs_log (fuel : nat)
    : run (State * list Action * list (State * list Action)
           * list (State * list Action)) :=
  bfs_loop_log fuel (initial_state P) [] {[initial_state P]}
    [(initial_state P, [])] [].
End BFSLog.

(** ** lab1: depth-first search *)

(** [l.pop()] on a Python list: drops the last element, fails on []. *)
Definition pop_last {A : Type} (l : list A) : option (list A) :=
  match l with
  | [] => None
  | _ :: _ => Some (removelast l)
  end.

Section DFS.
Context {State Action : Type} `{Countable State}.
Variable P : Problem State Action.

(** The three objects [dfs] allocates and [dfs_recurrence] mutates; the
    two lists are kept in Python order (the last element is the top). *)
Record dfs_state : Type := {
  list_of_occured_states : list State;
  path : list Action;
  visited_states : gset State
}.

(** [path.append(move); list_of_occured_states.append(new_state);
    visited_states.add(new_state)] *)
Definition dfs_push (st : dfs_state) (move : Action) (new_state : State)
    : dfs_state :=
  {| list_of_occured_states := list_of_occured_states st ++ [new_state];
     path := path st ++ [move];
     visited_states := {[new_state]} ∪ visited_states st |}.

(** [path.pop(); list_of_occured_states.pop()]: the visited set is left
    as it is. *)
Definition dfs_pop (st : dfs_state) : option dfs_state :=
  match pop_last (path st), pop_last (list_of_occured_states st) with
  | Some p, Some l =>
      Some {| list_of_occured_states := l; path := p;
              visited_states := visited_states st |}
  | _, _ => None
  end.

(** The body of [dfs_recurrence]: the [for move in ...] loop over the
    moves that were listed for the top state when the call started;
    [rec] is the recursive call. *)
Fixpoint dfs_moves (rec : dfs_state -> run dfs_state)
    (moves : list Action) (st : dfs_state) : run dfs_state :=
  match moves with
  | [] => Done st
  | move :: rest =>
      match last (list_of_occured_states st) with
      | None => Raises IndexError
      | Some top =>
          if is_goal P top || bool_decide (100 < length (path st))
          then Done st
          else
            match do_action P top move with
            | None => Raises InvalidAction
            | Some new_state =>
                if decide (new_state ∈ visited_states st)
                then dfs_moves rec rest st
                else
                  match rec (dfs_push st move new_state) with
                  | Done st' =>
                      match last (list_of_occured_states st') with
                      | None => Raises IndexError
                      | Some top' =>
                          if is_goal P top'
                          then dfs_moves rec rest st'
                          else
                            match dfs_pop st' with
                            | Some st'' => dfs_moves rec rest st''
                            | None => Raises IndexError
                            end
                      end
                  | Raises e => Raises e
                  | Blocks => Blocks
                  | Timeout => Timeout
                  end
            end
      end
  end.

Fixpoint dfs_recurrence (fuel : nat) (st : dfs_state) : run dfs_state :=
  match fuel with
  | O => Timeout
  | S fuel' =>
      match last (list_of_occured_states st) with
      | None => Raises IndexError
      | Some top =>
          dfs_moves (dfs_recurrence fuel') (available_actions P top) st
      end
  end.

Definition dfs_init : dfs_state :=
  {| list_of_occured_states := [initial_state P];
     path := [];
     visited_states := {[initial_state P]} |}.

Definition dfs (fuel : nat) : run (list Action) :=
  match dfs_recurrence fuel dfs_init with
  | Done st => Done (path st)
  | Raises e => Raises e
  | Blocks => Blocks
  | Timeout => Timeout
  end.
End DFS.

(** ** lab2: A* over [queue.PriorityQueue] *)

Section AStar.
Context {State Action : Type} `{Countable State} `{EqDecision Action}.
(** Python's [<] on states and on actions, used when heap entries tie. *)
Variable state_ltb : State -> State -> bool.
Variable action_ltb : Action -> Action -> bool.
Variable P : Problem State Action.

(** A heap entry
    [(expected_distance_from_goal, state, path, cumulative_costs)]. *)
Definition entry : Type := Z * State * list Action * Z.

(** Python's [<] on tuples of actions. *)
Fixpoint path_ltb (p q : list Action) : bool :=
  match p, q with
  | [], [] => false
  | [], _ :: _ => true
  | _ :: _, [] => false
  | a :: p', b :: q' =>
      if decide (a = b) then path_ltb p' q' else action_ltb a b
  end.

(** Python's [<] on heap entries: the first differing component decides. *)
Definition entry_ltb (e1 e2 : entry) : bool :=
  let '(f1, s1, p1, g1) := e1 in
  let '(f2, s2, p2, g2) := e2 in
  if decide (f1 = f2) then
    if decide (s1 = s2) then
      if decide (p1 = p2) then (g1 <? g2)%Z else path_ltb p1 p2
    else state_ltb s1 s2
  else (f1 <? f2)%Z.

(** The frontier is the bag of entries of the heap. [queue.get()] hands
    out a least entry; [<] is total on entries, so the least entry is
    determined by the bag whatever the heap layout. *)
Fixpoint pq_min (e : entry) (q : list entry) : entry :=
  match q with
  | [] => e
  | x :: q' => if entry_ltb x e then pq_min x q' else pq_min e q'
  end.

Fixpoint pq_remove (e : entry) (q : list entry) : list entry :=
  match q with
  | [] => []
  | x :: q' => if decide (x = e) then q' else x :: pq_remove e q'
  end.

(** [None]: the queue is empty, and a blocking [get()] never returns. *)
Definition pq_get (q : list entry) : option (entry * list entry) :=
  match q with
  | [] => None
  | e :: q' => let m := pq_min e q' in Some (m, pq_remove m q)
  end.

(** [queue.put(item)] on an unbounded queue. *)
Definition pq_put (item : entry) (q : list entry) : list entry :=
  q ++ [item].

(** [bool(queue)]: [PriorityQueue] defines neither [__bool__] nor
    [__len__], so the object is always true. *)
Definition pq_truth (q : list entry) : bool := true.

(** The [for action in available_actions(current_state)] loop. *)
Fixpoint astar_expand (current_state : State) (path : list Action)
    (cumulative_costs : Z) (actions : list Action)
    (visited_states_with_dist_from_start : gmap State Z)
    (queue : list entry) (count : nat)
    : run (gmap State Z * list entry * nat) :=
  match actions with
  | [] => Done (visited_states_with_dist_from_start, queue, count)
  | action :: rest =>
      match do_action P current_state action with
      | None => Raises InvalidAction
      | Some next_state =>
          let new_path := path ++ [action] in
          let new_cumulative_costs :=
            (cumulative_costs + action_cost P current_state action)%Z in
          let expected_distance_from_goal :=
            (heuristic P next_state + cumulative_costs)%Z in
          let pushed :=
            astar_expand current_state path cumulative_costs rest
              (<[next_state := expected_distance_from_goal]>
                 visited_states_with_dist_from_start)
              (pq_put (expected_distance_from_goal, next_state, new_path,
                       new_cumulative_costs) queue)
              (S count) in
          match visited_states_with_dist_from_start !! next_state with
          | None => pushed
          | Some d =>
              if (expected_distance_from_goal <? d)%Z then pushed
              else astar_expand current_state path cumulative_costs rest
                     visited_states_with_dist_from_start queue (S count)
          end
      end
  end.

(** The [while queue:] loop; [Done None] is the [return] after the
    loop (which prints "there is no solution for this problem"). *)
Fixpoint astar_loop (fuel : nat)
    (visited_states_with_dist_from_start : gmap State Z)
    (queue : list entry) (count : nat) : run (option (list Action)) :=
  match fuel with
  | O => Timeout
  | S fuel' =>
      if pq_truth queue then
        match pq_get queue with
        | None => Blocks
        | Some ((_, current_state, path, cumulative_costs), queue') =>
            if is_goal P current_state then Done (Some path)
            else
              match astar_expand current_state path cumulative_costs
                      (available_actions P current_state)
                      visited_states_with_dist_from_start queue' count with
              | Done (visited', queue'', count') =>
                  astar_loop fuel' visited' queue'' count'
              | Raises e => Raises e
              | Blocks => Blocks
              | Timeout => Timeout
              end
        end
      else Done None
  end.

Definition astar_init_queue : list entry :=
  pq_put ((heuristic P (initial_state P) + 0)%Z, initial_state P, [], 0%Z) [].

Definition astar (fuel : nat) : run (option (list Action)) :=
  astar_loop fuel {[initial_state P := 0%Z]} astar_init_queue 0.
End AStar.

(** ** Concrete problems *)

(** [VacuumProblem] (lab1 cell 11, lab2 cell 5): the state is
    [(robot, dirty)]. *)
Definition vacuum_do_action (state : Z * list bool) (action : string)
    : option (Z * list bool) :=
  let '(robot, dirty) := state in
  if decide (action = "Left") then Some (Z.max (robot - 1) 0, dirty)
  else if decide (action = "Suck")
       then Some (robot, <[Z.to_nat robot := false]> dirty)
  else if decide (action = "Right")
       then Some (Z.min (robot + 1) (Z.of_nat (length dirty) - 1), dirty)
  else None.

Definition sum_bools (l : list bool) : Z :=
  fold_right (fun b acc => ((if b : bool then 1 else 0) + acc)%Z) 0%Z l.

Definition VacuumProblem : Problem (Z * list bool) string :=
  {| initial_state := (0%Z, [true; true]);
     available_actions := fun _ => ["Left"; "Suck"; "Right"];
     do_action := vacuum_do_action;
     is_goal := fun state => negb (existsb id (snd state));
     action_cost := fun _ _ => 1%Z;
     heuristic := fun state => sum_bools (snd state) |}.

Definition vacuum_state_ltb (s1 s2 : Z * list bool) : bool :=
  if decide (fst s1 = fst s2)
  then path_ltb (fun a b : bool => negb a && b) (snd s1) (snd s2)
  else (fst s1 <? fst s2)%Z.

(** A chain [0 -> 1 -> ... -> n] with the single action "next". *)
Definition chain_problem (n : nat) (goal : nat -> bool) : Problem nat string :=
  {| initial_state := 0;
     available_actions := fun s => if Nat.ltb s n then ["next"] else [];
     do_action := fun s a => if decide (a = "next") then Some (S s) else None;
     is_goal := goal;
     action_cost := fun _ _ => 1%Z;
     heuristic := fun _ => 0%Z |}.

(** State 0 offers "a" (to the dead end 1) and then "b" (to the goal 2). *)
Definition fork_problem : Problem nat string :=
  {| initial_state := 0;
     available_actions := fun s => if Nat.eqb s 0 then ["a"; "b"] else [];
     do_action := fun s a =>
       if decide (a = "a") then Some 1
       else if decide (a = "b") then Some 2 else None;
     is_goal := fun s => Nat.eqb s 2;
     action_cost := fun _ _ => 1%Z;
     heuristic := fun _ => 0%Z |}.

(** From 0, "direct" reaches the goal 2 at cost 10 and "via" reaches 1 at
    cost 1; from 1, "on" reaches the goal at cost 1. *)
Definition detour_problem : Problem nat string :=
  {| initial_state := 0;
     available_actions := fun s =>
       match s with
       | 0 => ["direct"; "via"]
       | 1 => ["on"]
       | _ => []
       end;
     do_action := fun s a =>
       match s with
       | 0 => if decide (a = "direct") then Some 2
              else if decide (a = "via") then Some 1 else None
       | 1 => if decide (a = "on") then Some 2 else None
       | _ => None
       end;
     is_goal := fun s => Nat.eqb s 2;
     action_cost := fun s a =>
       match s with
       | 0 => if decide (a = "direct") then 10%Z else 1%Z
       | _ => 1%Z
       end;
     heuristic := fun s => match s with 1 => 1%Z | _ => 0%Z end |}.

(** A single non-goal state without actions. *)
Definition dead_end_problem : Problem nat string :=
  chain_problem 0 (fun _ => false).

(** [0 -> 1] and no goal state. *)
Definition one_step_no_goal : Problem nat string :=
  chain_problem 1 (fun _ => false).

(** [0 -> 1 -> 2] with the goal 2. *)
Definition two_step_chain : Problem nat string :=
  chain_problem 2 (fun s => Nat.eqb s 2).

(** A finite state space: [univ] holds the initial state and every state
    that a listed action produces from a state of [univ], and no listed
    action raises there. *)
Definition closed_states {State Action : Type} `{Countable State}
    (P : Problem State Action) (univ : gset State) : bool :=
  bool_decide (initial_state P ∈ univ) &&
  forallb
    (fun s =>
       forallb
         (fun a =>
            match do_action P s a with
            | Some s' => bool_decide (s' ∈ univ)
            | None => false
            end)
         (available_actions P s))
    (elements univ).

(** No state of [univ] is a goal. *)
Definition no_goal_among {State Action : Type} `{Countable State}
    (P : Problem State Action) (univ : gset State) : bool :=
  forallb (fun s => negb (is_goal P s)) (elements univ).

(** A frontier entry of [bfs] over the state space [univ]: a state of
    [univ] with a legal plan that leads to it from the initial state. *)
Definition entry_ok {State Action : Type} `{Countable State}
    (P : Problem State Action) (univ : gset State)
    (e : State * list Action) : Prop :=
  fst e ∈ univ /\
  legal_plan P (initial_state P) (snd e) /\
  run_plan P (initial_state P) (snd e) = Some (fst e).

(** What a call [dfs_recurrence(...)] leaves behind, [st] being the three
    objects at the call and [st'] at its return: nothing has left the
    visited set, and either both lists are back to what they were or the
    top of the state list is a goal. *)
Definition dfs_unwound {State Action : Type} `{Countable State}
    (P : Problem State Action)
    (st st' : dfs_state (State := State) (Action := Action)) : Prop :=
  visited_states st ⊆ visited_states st' /\
  ((list_of_occured_states st' = list_of_occured_states st /\
    path st' = path st) \/
   exists t, last (list_of_occured_states st') = Some t /\
             is_goal P t = true).

(** The outcomes of [dfs_recurrence] run with [fuel] from [st]: the fuel
    runs out only below the depth the length cut-off allows. *)
Definition dfs_post {State Action : Type} `{Countable State}
    (P : Problem State Action) (fuel : nat)
    (st : dfs_state (State := State) (Action := Action))
    (r : run (dfs_state (State := State) (Action := Action))) : Prop :=
  match r with
  | Done st' => dfs_unwound P st st'
  | Timeout => fuel = 0 \/ fuel + length (path st) < 102
  | Raises _ => False
  | Blocks => False
  end.

(** The hypotheses of A*'s optimality statement (lab2 cell 1). *)
Section Heuristics.
Context {State Action : Type}.
Variable P : Problem State Action.

Definition nonneg_costs : Prop :=
  forall s a, In a (available_actions P s) -> (0 <= action_cost P s a)%Z.
Definition nonneg_heuristic : Prop := forall s, (0 <= heuristic P s)%Z.
Definition admissible : Prop :=
  forall s plan, reaches_goal P s plan ->
    (heuristic P s <= plan_cost P s plan)%Z.
Definition consistent : Prop :=
  forall s a s', In a (available_actions P s) ->
    do_action P s a = Some s' ->
    (heuristic P s <= action_cost P s a + heuristic P s')%Z.
End Heuristics.

(** ** lab10: the knowledge base *)

Definition atom : Type := string.
(** A clause is the Python pair [(premise, conclusion)]; the premise list
    is never mutated, so it is kept as a value. *)
Definition clause : Type := list atom * atom.

(** The heap holds the mutable containers a [KB] object points to. *)
Inductive obj : Type :=
  | PyList (l : list clause)
  | PySet (s : gset atom).

Abbreviation heap := (gmap nat obj).

(** State-and-failure monad over the heap; [None] is a dangling or
    ill-typed reference. *)
Definition M (A : Type) : Type := heap -> option (A * heap).
Definition ret {A : Type} (a : A) : M A := fun h => Some (a, h).
Definition bind {A B : Type} (m : M A) (k : A -> M B) : M B :=
  fun h => match m h with
           | Some (a, h') => k a h'
           | None => None
           end.
Notation "x <~ c1 ;; c2" := (bind c1 (fun x => c2))
  (at level 100, c1 at next level, right associativity).
Notation "c1 ;;; c2" := (bind c1 (fun _ => c2))
  (at level 100, right associativity).

Definition alloc (o : obj) : M nat :=
  fun h => let l := fresh (dom h) in Some (l, <[l := o]> h).
Definition store (l : nat) (o : obj) : M unit :=
  fun h => match h !! l with
           | Some _ => Some (tt, <[l := o]> h)
           | None => None
           end.
Definition load_list (l : nat) : M (list clause) :=
  fun h => match h !! l with
           | Some (PyList x) => Some (x, h)
           | _ => None
           end.
Definition load_set (l : nat) : M (gset atom) :=
  fun h => match h !! l with
           | Some (PySet x) => Some (x, h)
           | _ => None
           end.

(** A [KB] object: its two attributes are references into the heap. *)
Record KB : Type := { clauses : nat; symbols : nat }.

(** [KB.__init__] *)
Definition KB_init : M KB :=
  c <~ alloc (PyList []) ;;
  s <~ alloc (PySet ∅) ;;
  ret {| clauses := c; symbols := s |}.

(** [KB.add]: [append], [|=] and [add] all update the objects in place. *)
Definition KB_add (self : KB) (premise : list atom) (conclusion : atom)
    : M unit :=
  l <~ load_list (clauses self) ;;
  store (clauses self) (PyList (l ++ [(premise, conclusion)])) ;;;
  s <~ load_set (symbols self) ;;
  store (symbols self) (PySet (s ∪ list_to_set premise)) ;;;
  s' <~ load_set (symbols self) ;;
  store (symbols self) (PySet (s' ∪ {[conclusion]})).

(** [KB.copy] *)
Definition KB_copy (self : KB) : M KB :=
  result <~ KB_init ;;
  src <~ load_list (clauses self) ;;
  dst <~ load_list (clauses result) ;;
  store (clauses result) (PyList (dst ++ src)) ;;;
  srcs <~ load_set (symbols self) ;;
  dsts <~ load_set (symbols result) ;;
  store (symbols result) (PySet (dsts ∪ srcs)) ;;;
  ret result.

(** What a reader of [kb.clauses] and [kb.symbols] sees. *)
Record KBv : Type := { kb_clauses : list clause; kb_symbols : gset atom }.

Definition KB_read (self : KB) : M KBv :=
  c <~ load_list (clauses self) ;;
  s <~ load_set (symbols self) ;;
  ret {| kb_clauses := c; kb_symbols := s |}.

(** [k2 = k.copy(); k2.add(premise, conclusion)] *)
Definition copy_then_add (k : KB) (premise : list atom) (conclusion : atom)
    : M KB :=
  k2 <~ KB_copy k ;;
  KB_add k2 premise conclusion ;;;
  ret k2.

(** A fresh KB filled by one [add] per clause, and what it then holds. *)
Fixpoint KB_add_all (self : KB) (cs : list clause) : M unit :=
  match cs with
  | [] => ret tt
  | (premise, conclusion) :: rest =>
      KB_add self premise conclusion ;;; KB_add_all self rest
  end.

Definition kb_of (cs : list clause) : KBv :=
  match (k <~ KB_init ;; KB_add_all k cs ;;; KB_read k) ∅ with
  | Some (v, _) => v
  | None => {| kb_clauses := []; kb_symbols := ∅ |}
  end.

(** A heap with one KB object holding the fact [a]. *)
Definition fact_heap : heap :=
  <[1 := PySet {["a"]}]> (<[0 := PyList [([], "a")]]> ∅).
Definition fact_KB : KB := {| clauses := 0; symbols := 1 |}.
Definition fact_KBv : KBv :=
  {| kb_clauses := [([], "a")]; kb_symbols := {["a"]} |}.

(** ** lab10: forward chaining *)

(** A Python [dict] whose iteration order matters: keys in insertion
    order; assigning to a key that is present keeps its position. *)
Fixpoint dict_set {K V : Type} `{EqDecision K} (k : K) (v : V)
    (d : list (K * V)) : list (K * V) :=
  match d with
  | [] => [(k, v)]
  | (k', v') :: d' =>
      if decide (k' = k) then (k, v) :: d' else (k', v') :: dict_set k v d'
  end.

(** [count = {(tuple(clause[0]), clause[1]) : len(clause[0]) for ...}] *)
Definition fc_count (cs : list clause) : list (clause * Z) :=
  fold_left (fun d c => dict_set c (Z.of_nat (length (fst c))) d) cs [].

(** [agenda = [symbol for premises, symbol in clauses if not premises]] *)
Definition fc_agenda (cs : list clause) : list atom :=
  map snd (filter (fun c : clause => fst c = []) cs).

(** The [for clause in count] loop run for the atom [p]; entry values are
    updated in place while the keys are walked in order. *)
Fixpoint fc_scan (p : atom) (count : list (clause * Z))
    (was_in_agenda : gset atom) (agenda : list atom)
    : list (clause * Z) * gset atom * list atom :=
  match count with
  | [] => ([], was_in_agenda, agenda)
  | (cl, n) :: rest =>
      if decide (p ∈ fst cl) then
        let n' := (n - 1)%Z in
        if bool_decide (n' = 0%Z) && bool_decide (snd cl ∉ was_in_agenda)
        then
          let '(r, w, a) :=
            fc_scan p rest ({[snd cl]} ∪ was_in_agenda) (agenda ++ [snd cl]) in
          ((cl, n') :: r, w, a)
        else
          let '(r, w, a) := fc_scan p rest was_in_agenda agenda in
          ((cl, n') :: r, w, a)
      else
        let '(r, w, a) := fc_scan p rest was_in_agenda agenda in
        ((cl, n) :: r, w, a)
  end.

(** The [while agenda] loop; [agenda.pop()] takes the last element. *)
Fixpoint fc_loop (fuel : nat) (count : list (clause * Z))
    (inferred : gmap atom bool) (was_in_agenda : gset atom)
    (agenda : list atom) : run (gmap atom bool) :=
  match fuel with
  | O => Timeout
  | S fuel' =>
      match last agenda, pop_last agenda with
      | Some p, Some agenda' =>
          let '(count', was', agenda'') :=
            fc_scan p count was_in_agenda agenda' in
          fc_loop fuel' count' (<[p := true]> inferred) was' agenda''
      | _, _ => Done inferred
      end
  end.

(** [_infer], up to the final dictionary [inferred]. *)
Definition fc_infer (fuel : nat) (kb : KBv) : run (gmap atom bool) :=
  fc_loop fuel (fc_count (kb_clauses kb))
    (gset_to_gmap false (kb_symbols kb))
    (list_to_set (fc_agenda (kb_clauses kb)))
    (fc_agenda (kb_clauses kb)).

(** [ForwardChainingReasoner(kb).query(symbol)]: membership in the set of
    the keys of [inferred] whose value is [True]. *)
Definition ForwardChainingReasoner_query (fuel : nat) (kb : KBv)
    (symbol : atom) : run bool :=
  match fc_infer fuel kb with
  | Done inferred => Done (bool_decide (inferred !! symbol = Some true))
  | Raises e => Raises e
  | Blocks => Blocks
  | Timeout => Timeout
  end.

(** ** lab10: backward chaining *)

(** [set(symbol)] of a Python string: the set of its one-character
    substrings. *)
Fixpoint chars (s : string) : list string :=
  match s with
  | EmptyString => []
  | String c s' => String c EmptyString :: chars s'
  end.

(** The reasoner's memo ([self.inferred], values [None]/[True]/[False])
    and the set [to_check] handed down the recursion. *)
Record bc_state : Type := {
  bc_inferred : gmap atom (option bool);
  to_check : gset atom
}.

(** [symbol in self.inferred and self.inferred[symbol] != None] *)
Definition memo (st : bc_state) (symbol : atom) : option bool :=
  match bc_inferred st !! symbol with
  | Some (Some b) => Some b
  | _ => None
  end.

Definition bc_add (premise : atom) (st : bc_state) : bc_state :=
  {| bc_inferred := bc_inferred st; to_check := {[premise]} ∪ to_check st |}.

(** [if symbol in to_check: to_check.remove(symbol)] *)
Definition bc_remove (symbol : atom) (st : bc_state) : bc_state :=
  {| bc_inferred := bc_inferred st; to_check := to_check st ∖ {[symbol]} |}.

(** [self.inferred[symbol] = one_clause_met] *)
Definition bc_memoize (symbol : atom) (b : bool) (st : bc_state) : bc_state :=
  {| bc_inferred := <[symbol := Some b]> (bc_inferred st);
     to_check := to_check st |}.

(** The [for premise in clause[0]] loop; the boolean is
    [all_premises_met]. *)
Fixpoint bc_premises (rec : atom -> bc_state -> run (bc_state * bool))
    (premises : list atom) (st : bc_state) : run (bc_state * bool) :=
  match premises with
  | [] => Done (st, true)
  | premise :: rest =>
      if decide (premise ∈ to_check st) then Done (st, false)
      else
        match rec premise (bc_add premise st) with
        | Done (st', true) => bc_premises rec rest st'
        | Done (st', false) => Done (st', false)
        | Raises e => Raises e
        | Blocks => Blocks
        | Timeout => Timeout
        end
  end.

(** The [for clause in filter(...)] loop; the boolean is
    [one_clause_met]. *)
Fixpoint bc_clauses (rec : atom -> bc_state -> run (bc_state * bool))
    (cs : list clause) (st : bc_state) : run (bc_state * bool) :=
  match cs with
  | [] => Done (st, false)
  | c :: rest =>
      match bc_premises rec (fst c) st with
      | Done (st', true) => Done (st', true)
      | Done (st', false) => bc_clauses rec rest st'
      | Raises e => Raises e
      | Blocks => Blocks
      | Timeout => Timeout
      end
  end.

Fixpoint recursive_query (fuel : nat) (kb : KBv) (symbol : atom)
    (st : bc_state) : run (bc_state * bool) :=
  match fuel with
  | O => Timeout
  | S fuel' =>
      match memo st symbol with
      | Some b => Done (bc_remove symbol st, b)
      | None =>
          match bc_clauses (recursive_query fuel' kb)
                  (filter (fun c : clause => snd c = symbol) (kb_clauses kb))
                  st with
          | Done (st', one_clause_met) =>
              Done (bc_remove symbol (bc_memoize symbol one_clause_met st'),
                    one_clause_met)
          | Raises e => Raises e
          | Blocks => Blocks
          | Timeout => Timeout
          end
      end
  end.

(** [BackwardChainingReasoner.__init__] *)
Definition bc_init (kb : KBv) : gmap atom (option bool) :=
  fold_left
    (fun m (c : clause) =>
       if bool_decide (fst c = []) then <[snd c := Some true]> m else m)
    (kb_clauses kb)
    (gset_to_gmap None (kb_symbols kb)).

(** [BackwardChainingReasoner.query] on a reasoner whose memo is
    [inferred]; the memo after the call is returned with the answer. *)
Definition bc_query (fuel : nat) (kb : KBv)
    (inferred : gmap atom (option bool)) (symbol : atom)
    : run (gmap atom (option bool) * bool) :=
  let st := {| bc_inferred := inferred; to_check := list_to_set (chars symbol) |} in
  match memo st symbol with
  | Some b => Done (inferred, b)
  | None =>
      if decide (symbol ∈ kb_symbols kb) then
        match recursive_query fuel kb symbol st with
        | Done (st', b) => Done (bc_inferred st', b)
        | Raises e => Raises e
        | Blocks => Blocks
        | Timeout => Timeout
        end
      else Done (inferred, false)
  end.

(** [BackwardChainingReasoner(kb).query(symbol)] *)
Definition BackwardChainingReasoner_query (fuel : nat) (kb : KBv)
    (symbol : atom) : run bool :=
  match bc_query fuel kb (bc_init kb) symbol with
  | Done (_, b) => Done b
  | Raises e => Raises e
  | Blocks => Blocks
  | Timeout => Timeout
  end.

(** *** The recursion under the interpreter's recursion limit *)

(** [recursive_query] calls itself once per premise that is not yet
    decided, one Python frame inside the other, and Python raises
    [RecursionError] when a call would nest deeper than the interpreter
    allows. [limit] is the number of nested calls of [recursive_query]
    that the interpreter lets run, counted from the one [query] makes
    (with [sys.getrecursionlimit()] at its default of 1000 it is below
    1000: the frames already on the stack and the frame of the [lambda]
    in the innermost call take their share). The code catches no
    exception, so the error ends the query. *)
Fixpoint recursive_query_limited (limit : nat) (kb : KBv) (symbol : atom)
    (st : bc_state) : run (bc_state * bool) :=
  match limit with
  | O => Raises RecursionError
  | S limit' =>
      match memo st symbol with
      | Some b => Done (bc_remove symbol st, b)
      | None =>
          match bc_clauses (recursive_query_limited limit' kb)
                  (filter (fun c : clause => snd c = symbol) (kb_clauses kb))
                  st with
          | Done (st', one_clause_met) =>
              Done (bc_remove symbol (bc_memoize symbol one_clause_met st'),
                    one_clause_met)
          | Raises e => Raises e
          | Blocks => Blocks
          | Timeout => Timeout
          end
      end
  end.

(** [BackwardChainingReasoner.query] under that limit. *)
Definition bc_query_limited (limit : nat) (kb : KBv)
    (inferred : gmap atom (option bool)) (symbol : atom)
    : run (gmap atom (option bool) * bool) :=
  let st := {| bc_inferred := inferred; to_check := list_to_set (chars symbol) |} in
  match memo st symbol with
  | Some b => Done (inferred, b)
  | None =>
      if decide (symbol ∈ kb_symbols kb) then
        match recursive_query_limited limit kb symbol st with
        | Done (st', b) => Done (bc_inferred st', b)
        | Raises e => Raises e
        | Blocks => Blocks
        | Timeout => Timeout
        end
      else Done (inferred, false)
  end.

(** [BackwardChainingReasoner(kb).query(symbol)] under that limit. *)
Definition BackwardChainingReasoner_query_limited (limit : nat) (kb : KBv)
    (symbol : atom) : run bool :=
  match bc_query_limited limit kb (bc_init kb) symbol with
  | Done (_, b) => Done b
  | Raises e => Raises e
  | Blocks => Blocks
  | Timeout => Timeout
  end.

(** How a run of the fuel-bounded model reads under the recursion limit:
    where the fuel, which counts the nested calls, runs out, Python
    raises [RecursionError]. *)
Definition limit_exceeded {A : Type} (r : run A) : run A :=
  match r with
  | Timeout => Raises RecursionError
  | _ => r
  end.

(** The minimal model of a set of Horn clauses: the atoms derivable by
    the clauses. *)
Inductive entailed (cs : list clause) : atom -> Prop :=
  | entailed_by premise conclusion :
      In (premise, conclusion) cs ->
      (forall p, In p premise -> entailed cs p) ->
      entailed cs conclusion.

(** The toy knowledge base of lab10 cell 6. *)
Definition toy_kb : KBv :=
  kb_of [(["p"], "q"); (["l"; "m"], "p"); (["b"; "l"], "m");
         (["a"; "p"], "l"); (["a"; "b"], "l"); (["x"], "w");
         ([], "a"); ([], "b")].

(** The ring [x1 -> x0], [x2 -> x1], ..., [x0 -> x(n-1)] of [n] atoms,
    none of them a fact. *)
Definition ring_atom (i : nat) : atom := "x" +:+ pretty i.

Definition ring_kb (n : nat) : KBv :=
  kb_of (map (fun i => ([ring_atom (S i mod n)], ring_atom i)) (seq 0 n)).

(** [x -> y], [f -> y], [y -> x], [y /\ x -> z] and the fact [f]. *)
Definition loop_kb : KBv :=
  kb_of [(["x"], "y"); (["f"], "y"); (["y"], "x"); (["y"; "x"], "z");
         ([], "f")].

(** *** Bookkeeping for the termination of [recursive_query] *)

(** Every atom that occurs in a clause. *)
Definition clause_atoms (cs : list clause) : gset atom :=
  ⋃ (map (fun c : clause => list_to_set (fst c) ∪ {[snd c]}) cs).

(** The atoms of [U] that a call may still open: not memoized and not in
    [to_check]. *)
Definition pending (U : gset atom) (st : bc_state) : gset atom :=
  filter (fun a => memo st a = None /\ a ∉ to_check st) U.

(** How the memo and [to_check] evolve between two points of a run:
    memoized atoms stay memoized, [to_check] only loses atoms, and the
    atoms it loses are memoized. *)
Definition bc_step (st st' : bc_state) : Prop :=
  (forall a, is_Some (memo st a) -> is_Some (memo st' a)) /\
  to_check st' ⊆ to_check st /\
  (forall a, a ∈ to_check st -> a ∉ to_check st' -> is_Some (memo st' a)).

(** Outcomes of [recursive_query] run with [fuel] on [symbol] from [st]. *)
Definition rq_post (U : gset atom) (fuel : nat) (symbol : atom)
    (st : bc_state) (r : run (bc_state * bool)) : Prop :=
  match r with
  | Done (st', _) =>
      bc_step st st' /\ (symbol ∉ to_check st') /\
      is_Some (memo st' symbol)
  | Timeout =>
      fuel = 0 \/ (memo st symbol = None /\ fuel < size (pending U st) + 2)
  | Raises _ => False
  | Blocks => False
  end.

(** Outcomes of the two loops of a call that was entered in [st0] with
    fuel [S f]. *)
Definition loop_post (U : gset atom) (f : nat) (st0 : bc_state)
    (r : run (bc_state * bool)) : Prop :=
  match r with
  | Done (st', _) => bc_step st0 st'
  | Timeout => S f < size (pending U st0) + 2
  | Raises _ => False
  | Blocks => False
  end.

(** *** Bookkeeping for the plans the engines build *)

(** [plan] is made of listed actions and leads from the initial state to
    [s]. *)
Definition plan_to {State Action : Type} (P : Problem State Action)
    (s : State) (plan : list Action) : Prop :=
  legal_plan P (initial_state P) plan /\
  run_plan P (initial_state P) plan = Some s.

(** A heap entry of [astar] whose path leads to its state and whose
    stored cost is the cost of that path. *)
Definition astar_entry_ok {State Action : Type} (P : Problem State Action)
    (e : Z * State * list Action * Z) : Prop :=
  let '(_, s, p, g) := e in
  plan_to P s p /\ g = plan_cost P (initial_state P) p.

(** The states a plan passes through, the start included; it stops where
    [do_action] raises. *)
Fixpoint trace_plan {State Action : Type} (P : Problem State Action)
    (s : State) (plan : list Action) : list State :=
  s :: match plan with
       | [] => []
       | a :: rest =>
           match do_action P s a with
           | Some s' => trace_plan P s' rest
           | None => []
           end
       end.

(** The objects of a depth-first search are consistent: the path is a
    legal plan of at most 101 actions, the state list holds exactly the
    states the path passes through, without repetition, and they are all
    marked visited. *)
Definition dfs_inv {State Action : Type} `{Countable State}
    (P : Problem State Action)
    (st : dfs_state (State := State) (Action := Action)) : Prop :=
  legal_plan P (initial_state P) (path st) /\
  list_of_occured_states st = trace_plan P (initial_state P) (path st) /\
  length (list_of_occured_states st) = S (length (path st)) /\
  NoDup (list_of_occured_states st) /\
  (forall s, In s (list_of_occured_states st) -> s ∈ visited_states st) /\
  length (path st) <= 101.

(** *** Bookkeeping for the order in which [bfs] dequeues *)

(** No legal plan to [s] is shorter than [p]. *)
Definition shortest_to {State Action : Type} (P : Problem State Action)
    (s : State) (p : list Action) : Prop :=
  plan_to P s p /\ forall q, plan_to P s q -> length p <= length q.

(** [v] has been expanded: it is no goal and all its successors are
    marked visited. *)
Definition bfs_closed {State Action : Type} `{Countable State}
    (P : Problem State Action) (visited : gset State) (v : State) : Prop :=
  is_goal P v = false /\
  forall a v', In a (available_actions P v) -> do_action P v a = Some v' ->
               v' ∈ visited.

(** The state of the [while] loop of [bfs] at its test: the dequeued entry
    and the deque hold shortest plans, of the length [k] of the current
    path first and of length [k + 1] after them; a visited state is in
    the frontier or has been expanded; every state within [k] steps of
    the initial state is visited. *)
Definition bfs_opt_inv {State Action : Type} `{Countable State}
    (P : Problem State Action) (cur : State) (cur_path : list Action)
    (visited : gset State) (queue : list (State * list Action)) : Prop :=
  shortest_to P cur cur_path /\
  (exists A B,
     queue = A ++ B /\
     Forall (fun e => length (snd e) = length cur_path) A /\
     Forall (fun e => length (snd e) = S (length cur_path)) B) /\
  Forall (fun e => shortest_to P (fst e) (snd e)) queue /\
  (forall v, v ∈ visited ->
     (v = cur \/ exists p, In (v, p) queue) \/ bfs_closed P visited v) /\
  (forall t q, plan_to P t q -> length q <= length cur_path -> t ∈ visited).

(** A well-formed vacuum-world state: the robot is in one of the rooms. *)
Definition vacuum_wf (state : Z * list bool) : Prop :=
  (0 <= fst state < Z.of_nat (length (snd state)))%Z.

(** ** lab10: the two baseline reasoners (cells 13 and 15) *)

(** [DummyReasoner.query]: the loop over [self.kb.clauses]. *)
Fixpoint dummy_loop (cs : list clause) (symbol : atom) : bool :=
  match cs with
  | [] => false
  | (premise, conclusion) :: rest =>
      if bool_decide (conclusion = symbol) && Nat.eqb (length premise) 0
      then true
      else dummy_loop rest symbol
  end.

Definition DummyReasoner_query (kb : KBv) (symbol : atom) : bool :=
  dummy_loop (kb_clauses kb) symbol.

(** [SmartReasoner.query]: [symbol in self.kb.symbols]. *)
Definition SmartReasoner_query (kb : KBv) (symbol : atom) : bool :=
  bool_decide (symbol ∈ kb_symbols kb).

(** Every atom the memo holds as [True] is in the minimal model. *)
Definition memo_sound (cs : list clause) (st : bc_state) : Prop :=
  forall a, memo st a = Some true -> entailed cs a.

(** *** Bookkeeping for the forward-chaining loop *)

(** What one pass of the [for clause in count] loop for the atom [p] does
    to an entry of [count]. *)
Definition fc_dec (p : atom) (e : clause * Z) : clause * Z :=
  if decide (p ∈ fst (fst e)) then (fst e, (snd e - 1)%Z) else e.

(** The atoms that are the conclusion of some clause. *)
Definition conclusions (cs : list clause) : gset atom :=
  list_to_set (map snd cs).

(** The state of the [while agenda] loop at its test, [popped] being the
    atoms taken off the agenda so far (the latest first): the keys of
    [count] are the clauses; a counter is the size of its premise minus
    the number of popped atoms that occur in the premise; [was_in_agenda]
    holds the popped atoms and the agenda; the atoms inferred [True] are
    the popped ones; the conclusion of a clause whose counter is not
    positive has been scheduled; only conclusions of clauses are
    scheduled. *)
Definition fc_inv (cs : list clause) (popped : list atom)
    (count : list (clause * Z)) (inferred : gmap atom bool)
    (was_in_agenda : gset atom) (agenda : list atom) : Prop :=
  (forall cl, In cl (map fst count) <-> In cl cs) /\
  (forall cl n, In (cl, n) count ->
     n = (Z.of_nat (length (fst cl))
          - Z.of_nat (length (filter (fun p => p ∈ fst cl) popped)))%Z) /\
  was_in_agenda = list_to_set (popped ++ agenda) /\
  (forall a, inferred !! a = Some true <-> In a popped) /\
  (forall cl n, In (cl, n) count -> (n <= 0)%Z -> snd cl ∈ was_in_agenda) /\
  (forall x, In x (popped ++ agenda) -> exists premise, In (premise, x) cs).

(** When no fact is asserted twice, no atom is scheduled twice and every
    scheduled atom is in the minimal model. *)
Definition fc_sound_inv (cs : list clause) (popped agenda : list atom)
    : Prop :=
  NoDup (popped ++ agenda) /\
  forall x, In x (popped ++ agenda) -> entailed cs x.

(** The fact [a] asserted twice, and [a /\ b -> c]. *)
Definition twice_asserted_kb : KBv :=
  kb_of [([], "a"); ([], "a"); (["a"; "b"], "c")].

(** The fact [a], and [a /\ a -> b]. *)
Definition repeated_premise_kb : KBv :=
  kb_of [([], "a"); (["a"; "a"], "b")].

(** ** lab3: hill climbing (cell 14) *)

Section HillClimbing.
Context {State Action : Type}.

(** lab3's [Problem] (cell 3), for cost functions that return Python
    ints, as those of both problems of the notebook do (integer
    arithmetic in [FunctionOptimizationProblem], a [sum] of Booleans in
    [NQueens]); the annotation [-> float] of [cost] is not enforced. For
    an int, [curr_cost < math.inf] holds. Costs that are floats,
    [math.inf] or NaN are outside this model.
    [random_state] is the only use of the random generator: the state it
    draws is an argument of [hill_climbing] below. [None] stands for a
    call that raises, as [NQueens.do_action] and [NQueens.cost] do on an
    index out of range. [lp_state_ltb] is Python's [<] on states, which
    [min] falls back on when two neighbours cost the same. *)
Record LocalProblem : Type := {
  lp_available_actions : State -> list Action;
  lp_do_action : State -> Action -> option State;
  lp_cost : State -> option Z;
  lp_state_ltb : State -> State -> bool
}.

Variable L : LocalProblem.

(** The [for action in ...] loop that fills [adjacent_nodes]. *)
Fixpoint hc_adjacent (curr_state : State) (actions : list Action)
    (adjacent_nodes : list (Z * State)) : option (list (Z * State)) :=
  match actions with
  | [] => Some adjacent_nodes
  | action :: rest =>
      match lp_do_action L curr_state action with
      | None => None
      | Some new_state =>
          match lp_cost L new_state with
          | None => None
          | Some new_cost =>
              hc_adjacent curr_state rest
                (adjacent_nodes ++ [(new_cost, new_state)])
          end
      end
  end.

(** [<] on the tuples [(new_cost, new_state)]. *)
Definition node_ltb (a b : Z * State) : bool :=
  if (fst a =? fst b)%Z then lp_state_ltb L (snd a) (snd b)
  else (fst a <? fst b)%Z.

(** [min] of a non-empty list: the running minimum is replaced by an
    item only when the item is smaller. *)
Definition py_min (first : Z * State) (rest : list (Z * State))
    : Z * State :=
  fold_left (fun best item => if node_ltb item best then item else best)
            rest first.

(** [curr_cost < prev_cost], where [None] is [math.inf]. *)
Definition below (curr_cost : Z) (prev_cost : option Z) : bool :=
  match prev_cost with
  | None => true
  | Some p => (curr_cost <? p)%Z
  end.

(** The [while] loop. [prev_state = None] is the initial [[]]. *)
Fixpoint hc_loop (fuel : nat) (curr_state : State) (curr_cost : Z)
    (prev_state : option State) (prev_cost : option Z)
    : run (option State) :=
  if below curr_cost prev_cost then
    match fuel with
    | O => Timeout
    | S fuel' =>
        match hc_adjacent curr_state
                (lp_available_actions L curr_state) [] with
        | None => Raises IndexError
        | Some [] =>
            hc_loop fuel' curr_state curr_cost
                    (Some curr_state) (Some curr_cost)
        | Some (node :: nodes) =>
            let best := py_min node nodes in
            hc_loop fuel' (snd best) (fst best)
                    (Some curr_state) (Some curr_cost)
        end
    end
  else Done prev_state.

Definition hill_climbing (fuel : nat) (random_state : State)
    : run (option State) :=
  match lp_cost L random_state with
  | None => Raises IndexError
  | Some curr_cost => hc_loop fuel random_state curr_cost None None
  end.

(** No listed action leads to a cheaper state. *)
Definition local_minimum (s : State) (c : Z) : Prop :=
  lp_cost L s = Some c /\
  forall a s', In a (lp_available_actions L s) ->
               lp_do_action L s a = Some s' ->
               exists c', lp_cost L s' = Some c' /\ (c <= c')%Z.

(** [inv] holds along every listed action, and there neither
    [do_action] nor [cost] raises. *)
Definition lp_closed (inv : State -> Prop) : Prop :=
  forall s a, inv s -> In a (lp_available_actions L s) ->
              exists s', lp_do_action L s a = Some s' /\ inv s'.

Definition lp_bounded (inv : State -> Prop) (lb : Z) : Prop :=
  forall s, inv s -> exists c, lp_cost L s = Some c /\ (lb <= c)%Z.

End HillClimbing.

Arguments LocalProblem : clear implicits.

(** Python's [<] on tuples of integers. *)
Fixpoint tuple_ltb (a b : list Z) : bool :=
  match a, b with
  | [], [] => false
  | [], _ :: _ => true
  | _ :: _, [] => false
  | x :: a', y :: b' => if (x =? y)%Z then tuple_ltb a' b' else (x <? y)%Z
  end.

(** ** lab3: [FunctionOptimizationProblem] (cell 7) *)

Definition fo_available_actions (state : Z * Z) : list (Z * Z) :=
  let '(x, y) := state in
  (if (x >? -10)%Z then [((-1)%Z, 0%Z)] else []) ++
  (if (y >? -10)%Z then [(0%Z, (-1)%Z)] else []) ++
  (if (x <? 10)%Z then [(1%Z, 0%Z)] else []) ++
  (if (y <? 10)%Z then [(0%Z, 1%Z)] else []).

Definition fo_do_action (state action : Z * Z) : Z * Z :=
  let '(x, y) := state in
  let '(dx, dy) := action in
  ((x + dx)%Z, (y + dy)%Z).

Definition fo_cost (state : Z * Z) : Z :=
  let '(x, y) := state in
  let cost := (-5 * x - 8 * y)%Z in
  let cost := if (x + y >? 6)%Z then (cost + 10000)%Z else cost in
  let cost := if (5 * x + 9 * y >? 45)%Z then (cost + 10000)%Z else cost in
  let cost := if (x <? 0)%Z then (cost + 10000)%Z else cost in
  let cost := if (y <? 0)%Z then (cost + 10000)%Z else cost in
  cost.

Definition FunctionOptimizationProblem : LocalProblem (Z * Z) (Z * Z) := {|
  lp_available_actions := fo_available_actions;
  lp_do_action := fun s a => Some (fo_do_action s a);
  lp_cost := fun s => Some (fo_cost s);
  lp_state_ltb := fun s t => tuple_ltb [fst s; snd s] [fst t; snd t]
|}.

(** The square [random_state] draws from. *)
Definition fo_box (state : Z * Z) : Prop :=
  (-10 <= fst state <= 10)%Z /\ (-10 <= snd state <= 10)%Z.

(** The four constraints the cost function penalises. *)
Definition fo_feasible (state : Z * Z) : Prop :=
  let '(x, y) := state in
  (x + y <= 6)%Z /\ (5 * x + 9 * y <= 45)%Z /\ (0 <= x)%Z /\ (0 <= y)%Z.

(** ** lab3: [NQueens] (cell 23) *)

(** A Python list index: negative indices count from the end;
    [None] is [IndexError]. *)
Definition py_index (len : nat) (i : Z) : option nat :=
  if decide (0 <= i < Z.of_nat len)%Z then Some (Z.to_nat i)
  else if decide (- Z.of_nat len <= i < 0)%Z
       then Some (Z.to_nat (Z.of_nat len + i))
       else None.

(** [range(lo, hi)]. *)
Definition py_range (lo hi : nat) : list nat := seq lo (hi - lo).

Definition nq_available_actions (n : nat) (state : list Z)
    : list (Z * Z) :=
  flat_map (fun first =>
              map (fun second => (Z.of_nat first, Z.of_nat second))
                  (py_range (n - first) first))
           (py_range 0 n).

(** The swap [l[i], l[j] = l[j], l[i]] on a Python list: the right-hand
    side is read first, [l[j]] before [l[i]]; then [l[i]] is assigned,
    then [l[j]]. *)
Definition py_swap {A : Type} (l : list A) (i j : Z) : option (list A) :=
  match py_index (length l) j, py_index (length l) i with
  | Some pj, Some pi =>
      match l !! pj, l !! pi with
      | Some at_j, Some at_i => Some (<[pj := at_i]> (<[pi := at_j]> l))
      | _, _ => None
      end
  | _, _ => None
  end.

Definition nq_do_action (state : list Z) (action : Z * Z)
    : option (list Z) :=
  let '(first, second) := action in py_swap state first second.

(** [under_attack[r] = state[r] == left_col or state[r] == right_col]
    for a row index [r] known to be non-negative. *)
Definition nq_mark (state : list Z) (left_col right_col : Z)
    (under_attack : list bool) (r : nat) : option (list bool) :=
  match state !! r with
  | None => None
  | Some q =>
      if decide (r < length under_attack)
      then Some (<[r := (q =? left_col)%Z || (q =? right_col)%Z]>
                   under_attack)
      else None
  end.

(** The body of the loop over [spread]. *)
Definition nq_spread (n : nat) (state : list Z) (row : nat) (queen : Z)
    (under_attack : list bool) (spread : nat) : option (list bool) :=
  let left_col := (queen - Z.of_nat spread)%Z in
  let right_col := (queen + Z.of_nat spread)%Z in
  match (if decide (spread <= row)
         then nq_mark state left_col right_col under_attack (row - spread)
         else Some under_attack) with
  | None => None
  | Some under_attack' =>
      if decide (row + spread < n)
      then nq_mark state left_col right_col under_attack' (row + spread)
      else Some under_attack'
  end.

(** A [for] loop whose body can raise. *)
Fixpoint for_each {A B : Type} (body : B -> A -> option B)
    (items : list A) (acc : B) : option B :=
  match items with
  | [] => Some acc
  | x :: rest =>
      match body acc x with
      | None => None
      | Some acc' => for_each body rest acc'
      end
  end.

(** The body of the loop over [enumerate(state)]. *)
Definition nq_row (n : nat) (state : list Z) (under_attack : list bool)
    (item : nat * Z) : option (list bool) :=
  let '(row, queen) := item in
  for_each (nq_spread n state row queen)
           (py_range 1 (Nat.max (n - row) row)) under_attack.

(** [enumerate]. *)
Definition enumerate {A : Type} (l : list A) : list (nat * A) :=
  combine (seq 0 (length l)) l.

Definition nq_cost (n : nat) (state : list Z) : option Z :=
  match for_each (nq_row n state) (enumerate state) (repeat false n) with
  | None => None
  | Some under_attack =>
      Some (Z.of_nat (length (filter (fun b => b = true) under_attack)))
  end.

Definition NQueens (n : nat) : LocalProblem (list Z) (Z * Z) := {|
  lp_available_actions := nq_available_actions n;
  lp_do_action := nq_do_action;
  lp_cost := nq_cost n;
  lp_state_ltb := tuple_ltb
|}.

(** Two queens on one diagonal. *)
Definition nq_diagonal (state : list Z) (i j : nat) : Prop :=
  exists qi qj, state !! i = Some qi /\ state !! j = Some qj /\
                i <> j /\
                (Z.abs (qi - qj) = Z.abs (Z.of_nat i - Z.of_nat j))%Z.

(** *** Bookkeeping for the hill-climbing loop *)

Section HillClimbingInv.
Context {State Action : Type}.
Variable L : LocalProblem State Action.

(** [inv] is kept by every listed action that returns. *)
Definition lp_preserved (inv : State -> Prop) : Prop :=
  forall s a s', inv s -> In a (lp_available_actions L s) ->
                 lp_do_action L s a = Some s' -> inv s'.

(** What the loop knows at its test, for a start of cost [c0]. *)
Definition hc_inv (inv : State -> Prop) (c0 : Z)
    (curr_state : State) (curr_cost : Z)
    (prev_state : option State) (prev_cost : option Z) : Prop :=
  lp_cost L curr_state = Some curr_cost /\ inv curr_state /\
  match prev_state, prev_cost with
  | None, None => (curr_cost <= c0)%Z
  | Some p, Some q =>
      inv p /\ lp_cost L p = Some q /\ (q <= c0)%Z /\
      forall a s', In a (lp_available_actions L p) ->
                   lp_do_action L p a = Some s' ->
                   exists c', lp_cost L s' = Some c' /\ (curr_cost <= c')%Z
  | _, _ => False
  end.

End HillClimbingInv.

(** What the loops of [NQueens.cost] keep true of [under_attack]: it has
    [n] entries, all [False] when no two queens share a diagonal. *)
Definition nq_inv (n : nat) (state : list Z) (under_attack : list bool)
    : Prop :=
  length under_attack = n /\
  ((forall i j, ~ nq_diagonal state i j) -> under_attack = repeat false n).

(** What hill climbing keeps true of an [NQueens] state. *)
Definition nq_reach (n : nat) (start state : list Z) : Prop :=
  length state = n /\ state ≡ₚ start /\ state !! 0 = start !! 0.

(** ** lab2: the 8-puzzle (cell 9) *)

(** [int(sqrt(len(self.initial_state[1])))]: the initial board has nine
    tiles. *)
Definition puzzle_dimension : Z := 3.

Definition puzzle_available_actions (state : Z * list Z) : list string :=
  let '(index_of_blank, board) := state in
  (if (index_of_blank / puzzle_dimension - 1 >=? 0)%Z
   then ["Up"] else []) ++
  (if (index_of_blank / puzzle_dimension + 1 <=? puzzle_dimension - 1)%Z
   then ["Down"] else []) ++
  (if (index_of_blank mod puzzle_dimension - 1 >=? 0)%Z
   then ["Left"] else []) ++
  (if (index_of_blank mod puzzle_dimension + 1 <=? puzzle_dimension - 1)%Z
   then ["Right"] else []).

(** The dictionary [actions] of [do_action]; [None] is [KeyError]. *)
Definition puzzle_actions (action : string) : option Z :=
  if decide (action = "Up") then Some (- puzzle_dimension)%Z
  else if decide (action = "Down") then Some puzzle_dimension
  else if decide (action = "Right") then Some 1%Z
  else if decide (action = "Left") then Some (-1)%Z
  else None.

(** [None] stands for the [KeyError] of an unknown action and for the
    [IndexError] of a blank pushed off the list. *)
Definition puzzle_do_action (state : Z * list Z) (action : string)
    : option (Z * list Z) :=
  let '(index_of_blank, board) := state in
  match puzzle_actions action with
  | None => None
  | Some delta =>
      let new_index_of_blank := (index_of_blank + delta)%Z in
      match py_swap board index_of_blank new_index_of_blank with
      | None => None
      | Some new_board => Some (new_index_of_blank, new_board)
      end
  end.

Definition puzzle_is_goal (state : Z * list Z) : bool :=
  bool_decide (state = (0%Z, map Z.of_nat (py_range 0 (length (snd state))))).

(** The loop of [heuristic], from position [index] on. *)
Fixpoint puzzle_misplaced (index : nat) (board : list Z) (num : Z) : Z :=
  match board with
  | [] => num
  | tile :: rest =>
      puzzle_misplaced (S index) rest
        (if decide (Z.of_nat index <> tile) then (num + 1)%Z else num)
  end.

Definition PuzzleProblem : Problem (Z * list Z) string :=
  {| initial_state := (4%Z, [7; 2; 4; 5; 0; 6; 8; 3; 1]%Z);
     available_actions := puzzle_available_actions;
     do_action := puzzle_do_action;
     is_goal := puzzle_is_goal;
     action_cost := fun _ _ => 1%Z;
     heuristic := fun state => puzzle_misplaced 0 (snd state) (-1)%Z |}.

(** The action that undoes an action. *)
Definition puzzle_opposite (action : string) : string :=
  if decide (action = "Up") then "Down"
  else if decide (action = "Down") then "Up"
  else if decide (action = "Left") then "Right"
  else "Left".

(** A state whose blank index points into a board of nine tiles. *)
Definition puzzle_wf (state : Z * list Z) : Prop :=
  (0 <= fst state < 9)%Z /\ length (snd state) = 9.

(** *** Bookkeeping for the puzzle heuristic *)

(** The number of positions [k, k+1, ...] of [l] whose tile satisfies
    [P position tile]. *)
Fixpoint count_at (P : nat -> Z -> bool) (k : nat) (l : list Z) : Z :=
  match l with
  | [] => 0%Z
  | t :: rest => ((if P k t then 1 else 0) + count_at P (S k) rest)%Z
  end.

Definition tile_misplaced (i : nat) (t : Z) : bool :=
  negb (Z.of_nat i =? t)%Z.

(** A tile other than the blank that is out of place. *)
Definition real_tile_misplaced (i : nat) (t : Z) : bool :=
  negb (Z.of_nat i =? t)%Z && negb (t =? 0)%Z.

Definition blank_misplaced (i : nat) (t : Z) : bool :=
  negb (Z.of_nat i =? t)%Z && (t =? 0)%Z.

(** The blank index of a state points at the tile 0. *)
Definition blank_ok (state : Z * list Z) : Prop :=
  snd state = [] \/
  exists p, py_index (length (snd state)) (fst state) = Some p /\
            snd state !! p = Some 0%Z.

(** ** lab2: [PuzzleProblem2], the Manhattan heuristic (cell 11) *)

(** The distance of position [idx] from the home of [tile]. *)
Definition tile_distance (idx : nat) (tile : Z) : Z :=
  (Z.abs (Z.of_nat idx / puzzle_dimension - tile / puzzle_dimension)
   + Z.abs (Z.of_nat idx mod puzzle_dimension
            - tile mod puzzle_dimension))%Z.

(** The loop over [enumerate(board)], from position [idx] on. *)
Fixpoint puzzle_manhattan (idx : nat) (board : list Z)
    (manhattan_dist : Z) : Z :=
  match board with
  | [] => manhattan_dist
  | tile :: rest =>
      puzzle_manhattan (S idx) rest
        (manhattan_dist + tile_distance idx tile)%Z
  end.

(** [manhattan_dist/2] is Python's true division. *)
Definition puzzle2_heuristic (state : Z * list Z) : Q :=
  puzzle_manhattan 0 (snd state) 0%Z # 2.

(** The sum of [f position tile] over the positions [k, k+1, ...]. *)
Fixpoint sum_at (f : nat -> Z -> Z) (k : nat) (l : list Z) : Z :=
  match l with
  | [] => 0%Z
  | t :: rest => (f k t + sum_at f (S k) rest)%Z
  end.

(** ** lab2: the two variants of the vacuum world (cells 7 and 8) *)

Definition VacuumProblem1 : Problem (Z * list bool) string :=
  {| initial_state := initial_state VacuumProblem;
     available_actions := available_actions VacuumProblem;
     do_action := do_action VacuumProblem;
     is_goal := is_goal VacuumProblem;
     action_cost := fun _ _ => 1%Z;
     heuristic := fun state =>
       (Z.of_nat (length (snd state)) - sum_bools (snd state))%Z |}.

Definition VacuumProblem2 : Problem (Z * list bool) string :=
  {| initial_state := initial_state VacuumProblem;
     available_actions := available_actions VacuumProblem;
     do_action := do_action VacuumProblem;
     is_goal := is_goal VacuumProblem;
     action_cost := fun _ _ => 1%Z;
     heuristic := fun state => (10 * sum_bools (snd state))%Z |}.

(** * Properties *)

(** ** The notebooks' own test cells *)

(** lab1 cells 12 and 14, lab2 cell 10: the plans printed for the vacuum
    world. *)
Example vacuum_plans :
  bfs VacuumProblem 20 = Done ["Suck"; "Right"; "Suck"] /\
  dfs VacuumProblem 102 = Done ["Suck"; "Right"; "Suck"] /\
  astar vacuum_state_ltb String.ltb VacuumProblem 20
  = Done (Some ["Suck"; "Right"; "Suck"]).
Proof. repeat split; vm_compute; reflexivity. Qed.

(** lab10 cells 21 and 26: on the toy knowledge base [a] and [q] follow
    and [w] does not, for both reasoners. *)
Example toy_kb_answers :
  map (ForwardChainingReasoner_query 20 toy_kb) ["a"; "q"; "w"]
  = [Done true; Done true; Done false] /\
  map (BackwardChainingReasoner_query 20 toy_kb) ["a"; "q"; "w"]
  = [Done true; Done true; Done false].
Proof. split; vm_compute; reflexivity. Qed.

(** ** Forward against backward chaining *)

Lemma loop_kb_clauses :
  kb_clauses loop_kb =
  [(["x"], "y"); (["f"], "y"); (["y"], "x"); (["y"; "x"], "z"); ([], "f")].
Proof. vm_compute. reflexivity. Qed.

Lemma loop_kb_entails_z : entailed (kb_clauses loop_kb) "z".
Proof.
  rewrite loop_kb_clauses.
  assert (Hf : entailed
    [(["x"], "y"); (["f"], "y"); (["y"], "x"); (["y"; "x"], "z"); ([], "f")]
    "f").
  { apply (entailed_by _ [] "f"); simpl; [tauto | intros p []]. }
  assert (Hy : entailed
    [(["x"], "y"); (["f"], "y"); (["y"], "x"); (["y"; "x"], "z"); ([], "f")]
    "y").
  { apply (entailed_by _ ["f"] "y"); simpl; [tauto |].
    intros p [<- | []]. exact Hf. }
  assert (Hx : entailed
    [(["x"], "y"); (["f"], "y"); (["y"], "x"); (["y"; "x"], "z"); ([], "f")]
    "x").
  { apply (entailed_by _ ["y"] "x"); simpl; [tauto |].
    intros p [<- | []]. exact Hy. }
  apply (entailed_by _ ["y"; "x"] "z"); simpl; [tauto |].
  intros p [<- | [<- | []]]; assumption.
Qed.

(** C1 (the code departs from the claim). On the knowledge base
    [x -> y], [f -> y], [y -> x], [y /\ x -> z], [f], the atom [z] is in
    the minimal model and [ForwardChainingReasoner(kb).query("z")] is
    [True], but [BackwardChainingReasoner(kb).query("z")] is [False]:
    while [y] is being proved, [x] fails on the guard for [y] and that
    [False] is memoized, so the later premise [x] of [z] reads the stale
    memo. *)
Theorem backward_chaining_misses_entailed_atom :
  entailed (kb_clauses loop_kb) "z" /\
  ForwardChainingReasoner_query 10 loop_kb "z" = Done true /\
  BackwardChainingReasoner_query 10 loop_kb "z" = Done false.
Proof.
  split; [exact loop_kb_entails_z |].
  split; vm_compute; reflexivity.
Qed.

(** ** A* *)

Section AStarFacts.
Context {State Action : Type} `{Countable State} `{EqDecision Action}.
Variable state_ltb : State -> State -> bool.
Variable action_ltb : Action -> Action -> bool.
Variable P : Problem State Action.

(** The [return] after the [while queue:] loop is never reached. *)
Lemma astar_loop_never_returns_None fuel visited queue count :
  astar_loop state_ltb action_ltb P fuel visited queue count <> Done None.
Proof.
  revert visited queue count.
  induction fuel as [|fuel IH]; intros visited queue count; simpl;
    [discriminate |].
  destruct (pq_get state_ltb action_ltb queue)
    as [[[[[f s] p] g] queue']|]; [| discriminate].
  destruct (is_goal P s); [discriminate |].
  destruct (astar_expand P s p g (available_actions P s) visited queue' count)
    as [[[visited' queue''] count']| e | |]; try discriminate.
  apply IH.
Qed.

Lemma plan_cost_nonneg s plan :
  nonneg_costs P -> legal_plan P s plan -> (0 <= plan_cost P s plan)%Z.
Proof.
  intros Hc. revert s.
  induction plan as [|a rest IH]; intros s; simpl; [lia |].
  intros [Hin Hrest].
  destruct (do_action P s a) as [s'|]; [| contradiction].
  specialize (IH s' Hrest). specialize (Hc s a Hin). lia.
Qed.
End AStarFacts.

(** C2 (the code departs from the claim). On a problem whose only state
    is a non-goal state without actions, [astar] pops the initial entry
    and then waits forever in [queue.get()] on the empty queue: [while
    queue:] tests the queue object, which is always true. For no problem
    at all does [astar] reach the [return] that reports "no solution". *)
Theorem astar_blocks_on_exhausted_frontier :
  (forall fuel,
     astar Nat.ltb String.ltb dead_end_problem (S (S fuel))
     = Blocks) /\
  (forall (P : Problem nat string) fuel,
     astar Nat.ltb String.ltb P fuel <> Done None).
Proof.
  split.
  - intros fuel. reflexivity.
  - intros P fuel. apply astar_loop_never_returns_None.
Qed.

(** C3 (the code departs from the claim). The first expansion of [astar]
    on [VacuumProblem] pushes the entry for the state after "Suck" with
    priority 1, although the path cost stored in that entry is 1 and the
    heuristic of its state is 1: the priority is computed from the
    parent's [cumulative_costs], not from [new_cumulative_costs]. *)
Theorem astar_priority_omits_last_action_cost :
  exists visited count,
    astar_expand VacuumProblem (0%Z, [true; true]) [] 0%Z
      (available_actions VacuumProblem (0%Z, [true; true]))
      {[ (0%Z, [true; true]) := 0%Z ]} [] 0
    = Done (visited,
            [(1%Z, (0%Z, [false; true]), ["Suck"], 1%Z);
             (2%Z, (1%Z, [true; true]), ["Right"], 1%Z)],
            count) /\
    (1 + heuristic VacuumProblem (0%Z, [false; true]))%Z = 2%Z /\
    forall fuel,
      astar vacuum_state_ltb String.ltb VacuumProblem (S fuel) =
      astar_loop vacuum_state_ltb String.ltb VacuumProblem fuel visited
        [(1%Z, (0%Z, [false; true]), ["Suck"], 1%Z);
         (2%Z, (1%Z, [true; true]), ["Right"], 1%Z)]
        count.
Proof.
  eexists _, _. split; [vm_compute; reflexivity |].
  split; [reflexivity |].
  intros fuel. reflexivity.
Qed.

Lemma detour_nonneg_costs : nonneg_costs detour_problem.
Proof.
  intros s a _. simpl. destruct s; [case_decide |]; lia.
Qed.

Lemma detour_consistent : consistent detour_problem.
Proof.
  intros s a s' Hin Hdo.
  destruct s as [|[|s]]; simpl in *.
  - destruct Hin as [<- | [<- | []]]; simpl in Hdo;
      injection Hdo as <-; simpl; lia.
  - destruct Hin as [<- | []]. simpl in Hdo. injection Hdo as <-. simpl. lia.
  - contradiction.
Qed.

Lemma detour_admissible : admissible detour_problem.
Proof.
  intros s plan [Hlegal (g & Hrun & Hgoal)].
  pose proof (plan_cost_nonneg detour_problem s plan detour_nonneg_costs
                Hlegal) as Hpos.
  destruct s as [|[|s]]; simpl; try lia.
  destruct plan as [|a rest].
  - simpl in Hrun. injection Hrun as <-. discriminate.
  - simpl in Hlegal. destruct Hlegal as [[<- | []] Hrest]. simpl in Hrest.
    pose proof (plan_cost_nonneg detour_problem 2 rest detour_nonneg_costs
                  Hrest).
    simpl. lia.
Qed.

(** C4 (the code departs from the claim). [detour_problem] has three
    states, nonnegative costs and a nonnegative, admissible and consistent
    heuristic, and the plan "via", "on" reaches the goal at cost 2; yet
    [astar] returns the plan "direct" of cost 10, because the priority of
    an entry leaves out the cost of its last action. *)
Theorem astar_returns_suboptimal_plan :
  closed_states detour_problem {[0; 1; 2]} = true /\
  nonneg_costs detour_problem /\
  (forall s, (0 <= heuristic detour_problem s)%Z) /\
  admissible detour_problem /\
  consistent detour_problem /\
  reaches_goal detour_problem 0 ["via"; "on"] /\
  plan_cost detour_problem 0 ["via"; "on"] = 2%Z /\
  astar Nat.ltb String.ltb detour_problem 2 = Done (Some ["direct"]) /\
  plan_cost detour_problem 0 ["direct"] = 10%Z.
Proof.
  split; [vm_compute; reflexivity |].
  split; [exact detour_nonneg_costs |].
  split; [intros [|[|s]]; simpl; lia |].
  split; [exact detour_admissible |].
  split; [exact detour_consistent |].
  split.
  { split; [simpl; tauto |]. exists 2. split; reflexivity. }
  split; [reflexivity |].
  split; [vm_compute; reflexivity | reflexivity].
Qed.

(** ** Breadth-first search *)

Section PlanFacts.
Context {State Action : Type}.
Variable P : Problem State Action.

Lemma run_plan_snoc s plan a s1 s2 :
  run_plan P s plan = Some s1 -> do_action P s1 a = Some s2 ->
  run_plan P s (plan ++ [a]) = Some s2.
Proof.
  revert s. induction plan as [|b rest IH]; intros s; simpl.
  - intros [= ->] ->. reflexivity.
  - destruct (do_action P s b) as [s'|]; [| discriminate]. apply IH.
Qed.

Lemma legal_plan_snoc s plan a s1 s2 :
  legal_plan P s plan -> run_plan P s plan = Some s1 ->
  In a (available_actions P s1) -> do_action P s1 a = Some s2 ->
  legal_plan P s (plan ++ [a]).
Proof.
  revert s. induction plan as [|b rest IH]; intros s; simpl.
  - intros _ [= ->] Hin ->. auto.
  - intros [Hb Hrest]. destruct (do_action P s b) as [s'|]; [| contradiction].
    intros Hrun Hin Hdo. split; [exact Hb |]. now apply IH.
Qed.
End PlanFacts.

Lemma size_unvisited {State : Type} `{Countable State}
    (univ : gset State) (s : State) (visited : gset State) :
  s ∈ univ -> s ∉ visited ->
  S (size (univ ∖ ({[s]} ∪ visited))) = size (univ ∖ visited).
Proof.
  intros Hs Hn.
  assert (Heq : univ ∖ visited = {[s]} ∪ (univ ∖ ({[s]} ∪ visited))).
  { apply set_eq. intros x. destruct (decide (x = s)); set_solver. }
  pose proof (size_union (C := gset State) {[s]}
                (univ ∖ ({[s]} ∪ visited))) as Hu.
  pose proof (size_singleton (C := gset State) s) as H1.
  rewrite Heq, Hu by set_solver. rewrite H1. reflexivity.
Qed.

Section BFSFacts.
Context {State Action : Type} `{Countable State}.
Variable P : Problem State Action.
Variable univ : gset State.
Hypothesis Hclosed : closed_states P univ = true.

Lemma closed_initial : initial_state P ∈ univ.
Proof.
  unfold closed_states in Hclosed.
  apply andb_true_iff in Hclosed as [Hi _].
  now apply bool_decide_eq_true in Hi.
Qed.

Lemma closed_step s a :
  s ∈ univ -> In a (available_actions P s) ->
  exists s', do_action P s a = Some s' /\ s' ∈ univ.
Proof.
  intros Hs Ha. unfold closed_states in Hclosed.
  apply andb_true_iff in Hclosed as [_ Hall].
  rewrite forallb_forall in Hall.
  assert (Hs' : In s (elements univ)).
  { apply list_elem_of_In, elem_of_elements, Hs. }
  specialize (Hall s Hs'). rewrite forallb_forall in Hall.
  specialize (Hall a Ha).
  destruct (do_action P s a) as [s'|]; [| discriminate].
  exists s'. split; [reflexivity |]. now apply bool_decide_eq_true in Hall.
Qed.

Lemma bfs_expand_spec cur cur_path moves visited queue :
  entry_ok P univ (cur, cur_path) ->
  (forall a, In a moves -> In a (available_actions P cur)) ->
  Forall (entry_ok P univ) queue ->
  exists visited' added,
    bfs_expand P cur cur_path moves visited queue
      = Done (visited', queue ++ added) /\
    Forall (entry_ok P univ) added /\
    size (univ ∖ visited') + length added = size (univ ∖ visited).
Proof.
  intros (Hcur & Hlegal & Hrun) Hmoves. simpl in *.
  revert visited queue.
  induction moves as [|move rest IH]; intros visited queue Hq; simpl.
  - exists visited, []. rewrite app_nil_r. repeat split; auto.
  - destruct (closed_step cur move Hcur (Hmoves move (or_introl eq_refl)))
      as (s' & Hdo & Hs').
    rewrite Hdo.
    assert (Hrest : forall a, In a rest -> In a (available_actions P cur))
      by (intros a Ha; apply Hmoves; now right).
    destruct (decide (s' ∈ visited)) as [Hin | Hnin].
    + apply (IH Hrest visited queue Hq).
    + assert (Hnew : entry_ok P univ (s', cur_path ++ [move])).
      { repeat split; simpl; [exact Hs' | |].
        - eapply legal_plan_snoc; eauto. apply Hmoves. now left.
        - eapply run_plan_snoc; eauto. }
      destruct (IH Hrest ({[s']} ∪ visited)
                  (queue ++ [(s', cur_path ++ [move])]))
        as (visited' & added & Heq & Hadded & Hsize).
      { apply Forall_app. split; [exact Hq | now constructor]. }
      exists visited', ((s', cur_path ++ [move]) :: added).
      rewrite Heq, <- app_assoc. simpl.
      repeat split; [now constructor |].
      rewrite <- (size_unvisited univ s' visited Hs' Hnin). lia.
Qed.

End BFSFacts.

Section BFSLogFacts.
Context {State Action : Type} `{Countable State}.
Variable P : Problem State Action.

(** The log changes nothing: [bfs_loop] returns the path that
    [bfs_loop_log] returns. *)
Lemma bfs_loop_log_erase fuel :
  forall cur cur_path visited queue dequeued,
    bfs_loop P fuel cur cur_path visited queue
    = match bfs_loop_log P fuel cur cur_path visited queue dequeued with
      | Done (_, p, _, _) => Done p
      | Raises e => Raises e
      | Blocks => Blocks
      | Timeout => Timeout
      end.
Proof.
  induction fuel as [| fuel IH]; intros cur cur_path visited queue dequeued;
    simpl; [reflexivity |].
  destruct (negb (is_goal P cur) && negb (bool_decide (queue = [])));
    [| reflexivity].
  destruct (bfs_expand P cur cur_path (available_actions P cur)
              visited queue) as [[visited' [| [s p] queue'']] | e | |];
    try reflexivity.
  apply IH.
Qed.

Variable univ : gset State.
Hypothesis Hclosed : closed_states P univ = true.
Hypothesis Hnogoal : no_goal_among P univ = true.

Lemma no_goal_in_univ s : s ∈ univ -> is_goal P s = false.
Proof.
  intros Hs. unfold no_goal_among in Hnogoal.
  rewrite forallb_forall in Hnogoal.
  apply negb_true_iff, Hnogoal, list_elem_of_In, elem_of_elements, Hs.
Qed.

(** Without a goal the loop leaves only through the empty deque, and
    then [current_state] and [current_path] are the entry it dequeued
    last. *)
Lemma bfs_loop_log_spec fuel :
  forall cur cur_path visited queue dequeued,
    entry_ok P univ (cur, cur_path) -> Forall (entry_ok P univ) queue ->
    size (univ ∖ visited) + length queue < fuel ->
    (dequeued = [] -> queue <> []) ->
    (dequeued <> [] -> last dequeued = Some (cur, cur_path)) ->
    exists s p dequeued',
      bfs_loop_log P fuel cur cur_path visited queue dequeued
      = Done (s, p, [], dequeued') /\
      last dequeued' = Some (s, p) /\
      entry_ok P univ (s, p).
Proof.
  induction fuel as [| fuel IH];
    intros cur cur_path visited queue dequeued Hcur Hq Hm Hfirst Hlast;
    [lia |].
  simpl. rewrite (no_goal_in_univ cur (proj1 Hcur)). simpl.
  destruct (bool_decide (queue = [])) eqn:Hempty; simpl.
  - apply bool_decide_eq_true in Hempty. subst queue.
    exists cur, cur_path, dequeued. split; [reflexivity |].
    split; [| exact Hcur]. apply Hlast. intros E. now apply Hfirst.
  - apply bool_decide_eq_false in Hempty.
    destruct (bfs_expand_spec P univ Hclosed cur cur_path
                (available_actions P cur) visited queue Hcur
                (fun a Ha => Ha) Hq)
      as (visited' & added & -> & Hadded & Hsize).
    destruct queue as [| [s p] queue'']; [contradiction |].
    simpl. apply Forall_cons in Hq as [Hsp Hq].
    apply IH; [exact Hsp | apply Forall_app; auto | | |].
    + rewrite length_app. simpl in Hm. lia.
    + intros E. now apply app_nil in E as [_ E].
    + intros _. apply last_snoc.
Qed.
End BFSLogFacts.

(** C5 (amended). On a problem whose finite state space [univ] holds no
    goal, [bfs] terminates once the frontier is exhausted (the loop is
    left with an empty deque) and returns the action list stored with
    the entry it dequeued last: a list of listed actions that leads from
    the initial state to the state of that entry, which is not a goal.
    It has no separate failure value. *)
Theorem bfs_without_goal_returns_last_path :
  forall (State Action : Type) `{Countable State}
         (P : Problem State Action) (univ : gset State) (fuel : nat),
    closed_states P univ = true ->
    no_goal_among P univ = true ->
    size univ < fuel ->
    exists p s dequeued,
      bfs P fuel = Done p /\
      bfs_log P fuel = Done (s, p, [], dequeued) /\
      last dequeued = Some (s, p) /\
      legal_plan P (initial_state P) p /\
      run_plan P (initial_state P) p = Some s /\
      is_goal P s = false.
Proof.
  intros State Action ? ? P univ fuel Hclosed Hnogoal Hfuel.
  pose proof (closed_initial P univ Hclosed) as Hinit.
  destruct (bfs_loop_log_spec P univ Hclosed Hnogoal fuel (initial_state P)
              [] {[initial_state P]} [(initial_state P, [])] [])
    as (s & p & dequeued & Hrun & Hlast & Hs & Hlegal & Hreach).
  - repeat split; simpl; auto.
  - constructor; [| constructor]. repeat split; simpl; auto.
  - pose proof (size_unvisited univ (initial_state P) ∅ Hinit) as Hsz.
    rewrite union_empty_r_L, difference_empty_L in Hsz.
    rewrite <- Hsz in Hfuel by set_solver. simpl. lia.
  - intros _. discriminate.
  - intros E. now contradiction E.
  - exists p, s, dequeued. simpl in *.
    split.
    { unfold bfs, bfs_log in *.
      rewrite (bfs_loop_log_erase P fuel _ _ _ _ []), Hrun. reflexivity. }
    split; [exact Hrun |]. split; [exact Hlast |].
    split; [exact Hlegal |]. split; [exact Hreach |].
    now apply (no_goal_in_univ P univ Hnogoal).
Qed.

Lemma bfs_without_goal_witness :
  closed_states one_step_no_goal {[0; 1]} = true /\
  no_goal_among one_step_no_goal {[0; 1]} = true /\
  size ({[0; 1]} : gset nat) < 3 /\
  exists p s dequeued,
    bfs one_step_no_goal 3 = Done p /\
    bfs_log one_step_no_goal 3 = Done (s, p, [], dequeued) /\
    last dequeued = Some (s, p) /\
    legal_plan one_step_no_goal 0 p /\
    run_plan one_step_no_goal 0 p = Some s /\
    is_goal one_step_no_goal s = false.
Proof.
  assert (H1 : closed_states one_step_no_goal {[0; 1]} = true)
    by (vm_compute; reflexivity).
  assert (H2 : no_goal_among one_step_no_goal {[0; 1]} = true)
    by (vm_compute; reflexivity).
  assert (H3 : size ({[0; 1]} : gset nat) < 3) by (vm_compute; lia).
  split; [exact H1 |]. split; [exact H2 |]. split; [exact H3 |].
  exact (bfs_without_goal_returns_last_path nat string one_step_no_goal
           {[0; 1]} 3 H1 H2 H3).
Defined.

(** What the log holds on the chain [0 -> 1] without a goal: the initial
    entry, then the entry of state 1, whose list is returned. *)
Example bfs_log_one_step :
  bfs_log one_step_no_goal 3
  = Done (1, ["next"], [], [(0, []); (1, ["next"])]) /\
  bfs one_step_no_goal 3 = Done ["next"].
Proof. split; vm_compute; reflexivity. Qed.

(** C5 as stated fails: on the chain [0 -> 1] without a goal, [bfs]
    returns the action list ["next"]. *)
Lemma bfs_no_goal_returns_action_list :
  closed_states one_step_no_goal {[0; 1]} = true /\
  no_goal_among one_step_no_goal {[0; 1]} = true /\
  bfs one_step_no_goal 3 = Done ["next"].
Proof. repeat split; vm_compute; reflexivity. Qed.

(** C7 (the code departs from the claim). On the chain [0 -> 1 -> 2] with
    goal 2, [bfs] returns ["next"], which ends in the non-goal state 1:
    the loop stops as soon as the deque is empty, before the entry that
    was dequeued last is tested or expanded. The plan "next", "next"
    reaches the goal. *)
Theorem bfs_stops_short_of_goal :
  (forall fuel, bfs two_step_chain (S (S (S fuel))) = Done ["next"]) /\
  run_plan two_step_chain 0 ["next"] = Some 1 /\
  is_goal two_step_chain 1 = false /\
  reaches_goal two_step_chain 0 ["next"; "next"].
Proof.
  split; [intros fuel; vm_compute; reflexivity |].
  split; [reflexivity |]. split; [reflexivity |].
  split; [simpl; tauto |]. exists 2. split; reflexivity.
Qed.

(** ** Depth-first search *)

Lemma pop_last_snoc {A : Type} (l : list A) (x : A) :
  pop_last (l ++ [x]) = Some l.
Proof.
  unfold pop_last. destruct (l ++ [x]) eqn:E.
  - destruct l; discriminate.
  - rewrite <- E, removelast_last. reflexivity.
Qed.

Lemma snoc_nonempty {A : Type} (l : list A) (x : A) : l ++ [x] <> [].
Proof. destruct l; discriminate. Qed.

Lemma last_nonempty {A : Type} (l : list A) :
  l <> [] -> exists x, last l = Some x.
Proof.
  intros Hl. destruct (last l) as [x|] eqn:E; [eauto |].
  apply last_None in E. contradiction.
Qed.

Section DFSFacts.
Context {State Action : Type} `{Countable State}.
Variable P : Problem State Action.
Hypothesis Hok : listed_actions_ok P.

Lemma dfs_unwound_refl st : dfs_unwound P st st.
Proof. split; [reflexivity | left; split; reflexivity]. Qed.

Lemma dfs_moves_post f :
  (forall st, list_of_occured_states st <> [] ->
              dfs_post P f st (dfs_recurrence P f st)) ->
  forall moves st0 top0 st,
    last (list_of_occured_states st0) = Some top0 ->
    (forall a, In a moves -> In a (available_actions P top0)) ->
    dfs_unwound P st0 st ->
    dfs_post P (S f) st0 (dfs_moves P (dfs_recurrence P f) moves st).
Proof.
  intros IHf moves st0 top0.
  induction moves as [|move rest IH]; intros st Htop0 Hmoves Hun; simpl;
    [exact Hun |].
  assert (Hrest : forall a, In a rest -> In a (available_actions P top0))
    by (intros a Ha; apply Hmoves; now right).
  assert (Htop : exists top, last (list_of_occured_states st) = Some top).
  { destruct Hun as [_ [[-> _] | (t & Ht & _)]]; eauto. }
  destruct Htop as (top & Htop). rewrite Htop.
  destruct (is_goal P top || bool_decide (100 < length (path st)))
    eqn:Hstop; [exact Hun |].
  apply orb_false_iff in Hstop as [Hgoal Hdepth].
  apply bool_decide_eq_false in Hdepth.
  destruct Hun as [Hvis [[Hlos Hpath] | (t & Ht & Hgt)]];
    [| rewrite Htop in Ht; injection Ht as <-; congruence].
  assert (top = top0) as -> by (rewrite Hlos, Htop0 in Htop; congruence).
  destruct (Hok top0 move (Hmoves move (or_introl eq_refl)))
    as (new_state & Hdo).
  rewrite Hdo.
  destruct (decide (new_state ∈ visited_states st)) as [Hin | Hnin].
  { apply IH; auto. split; auto. }
  assert (Hne : list_of_occured_states (dfs_push st move new_state) <> [])
    by (simpl; apply snoc_nonempty).
  specialize (IHf (dfs_push st move new_state) Hne).
  destruct (dfs_recurrence P f (dfs_push st move new_state))
    as [st' | e | |]; simpl in IHf; try contradiction.
  - destruct IHf as [Hvis' Hcase]. simpl in Hvis'.
    assert (Hvis0 : visited_states st0 ⊆ visited_states st')
      by set_solver.
    destruct Hcase as [[Hlos' Hpath'] | (t & Ht & Hgt)].
    + simpl in Hlos', Hpath'. rewrite Hlos', last_snoc.
      destruct (is_goal P new_state) eqn:Hnew.
      * apply IH; auto. split; [exact Hvis0 |]. right.
        exists new_state. rewrite Hlos', last_snoc. auto.
      * unfold dfs_pop. rewrite Hlos', Hpath', !pop_last_snoc.
        apply IH; auto. split; [exact Hvis0 |]. left. auto.
    + rewrite Ht, Hgt. apply IH; auto. split; [exact Hvis0 |].
      right. eauto.
  - right. rewrite <- Hpath. rewrite length_app in IHf. simpl in IHf. lia.
Qed.

Lemma dfs_recurrence_post fuel st :
  list_of_occured_states st <> [] ->
  dfs_post P fuel st (dfs_recurrence P fuel st).
Proof.
  revert st. induction fuel as [|f IH]; intros st Hne; simpl; [now left |].
  destruct (last_nonempty _ Hne) as (top & Htop). rewrite Htop.
  apply (dfs_moves_post f IH _ st top st Htop (fun a Ha => Ha)
           (dfs_unwound_refl st)).
Qed.
End DFSFacts.

(** A call of [dfs_recurrence] returns, and never removes a state from
    the visited set; when it returns with a non-goal state on top of the
    state list, the path and the state list are as they were at the
    call. *)
Lemma dfs_recurrence_returns {State Action : Type} `{Countable State}
    (P : Problem State Action) (fuel : nat) (st : dfs_state) :
  listed_actions_ok P ->
  list_of_occured_states st <> [] ->
  1 <= fuel -> 102 <= fuel + length (path st) ->
  exists st',
    dfs_recurrence P fuel st = Done st' /\
    visited_states st ⊆ visited_states st' /\
    (forall t, last (list_of_occured_states st') = Some t ->
               is_goal P t = false ->
               list_of_occured_states st' = list_of_occured_states st /\
               path st' = path st).
Proof.
  intros Hok Hne Hf1 Hf2.
  pose proof (dfs_recurrence_post P Hok fuel st Hne) as Hpost.
  destruct (dfs_recurrence P fuel st) as [st' | e | |]; simpl in Hpost;
    try contradiction; [| lia].
  exists st'. destruct Hpost as [Hvis Hcase].
  split; [reflexivity |]. split; [exact Hvis |].
  intros t Ht Hgoal.
  destruct Hcase as [Hsame | (t' & Ht' & Hgoal')]; [exact Hsame |].
  rewrite Ht in Ht'. injection Ht' as <-. congruence.
Qed.

(** C6 (amended). Let the loop of [dfs_recurrence] try [move] in a
    non-goal top state, leading to the unvisited [new_state]. The
    recursive call on the pushed state returns, and nothing leaves the
    visited set. If it returns with a non-goal state on top (the branch
    is exhausted without a goal), the two [pop]s succeed and the loop goes
    on with the remaining moves in a state whose path and state list are
    those from before the push, while [new_state] is still in the visited
    set. *)
Theorem dfs_backtracking_keeps_visited :
  forall (State Action : Type) `{Countable State}
         (P : Problem State Action) (f : nat) (st : dfs_state)
         (top : State) (move : Action) (rest : list Action)
         (new_state : State),
    listed_actions_ok P ->
    last (list_of_occured_states st) = Some top ->
    is_goal P top = false ->
    length (path st) <= 100 ->
    do_action P top move = Some new_state ->
    new_state ∉ visited_states st ->
    1 <= f -> 101 <= f + length (path st) ->
    exists st1,
      dfs_recurrence P f (dfs_push st move new_state) = Done st1 /\
      visited_states st ⊆ visited_states st1 /\
      (forall t, last (list_of_occured_states st1) = Some t ->
                 is_goal P t = false ->
                 exists st2,
                   dfs_pop st1 = Some st2 /\
                   list_of_occured_states st2 = list_of_occured_states st /\
                   path st2 = path st /\
                   new_state ∈ visited_states st2 /\
                   dfs_moves P (dfs_recurrence P f) (move :: rest) st
                   = dfs_moves P (dfs_recurrence P f) rest st2).
Proof.
  intros State Action ? ? P f st top move rest new_state
         Hok Htop Hgoal Hlen Hdo Hnew Hf1 Hf2.
  destruct (dfs_recurrence_returns P f (dfs_push st move new_state) Hok)
    as (st1 & Hrun & Hvis & Hback).
  { simpl. apply snoc_nonempty. }
  { exact Hf1. }
  { simpl. rewrite length_app. simpl. lia. }
  exists st1. split; [exact Hrun |]. simpl in Hvis.
  split; [set_solver |].
  intros t Ht Hgt. destruct (Hback t Ht Hgt) as [Hlos Hpath].
  simpl in Hlos, Hpath.
  exists {| list_of_occured_states := list_of_occured_states st;
            path := path st;
            visited_states := visited_states st1 |}.
  assert (Hpop : dfs_pop st1 =
                 Some {| list_of_occured_states := list_of_occured_states st;
                         path := path st;
                         visited_states := visited_states st1 |}).
  { unfold dfs_pop. rewrite Hlos, Hpath, !pop_last_snoc. reflexivity. }
  split; [exact Hpop |]. simpl.
  split; [reflexivity |]. split; [reflexivity |]. split; [set_solver |].
  rewrite Htop, Hgoal. simpl.
  rewrite bool_decide_eq_false_2 by lia.
  rewrite Hdo. rewrite decide_False by exact Hnew.
  rewrite Hrun, Ht, Hgt, Hpop. reflexivity.
Qed.

Lemma fork_listed_actions_ok : listed_actions_ok fork_problem.
Proof.
  intros s a. simpl. destruct (Nat.eqb s 0); simpl; [| contradiction].
  intros [<- | [<- | []]]; eexists; reflexivity.
Qed.

Lemma dfs_backtracking_witness :
  listed_actions_ok fork_problem /\
  last (list_of_occured_states (dfs_init fork_problem)) = Some 0 /\
  is_goal fork_problem 0 = false /\
  length (path (dfs_init fork_problem)) <= 100 /\
  do_action fork_problem 0 "a" = Some 1 /\
  (1 ∉ visited_states (dfs_init fork_problem)) /\
  1 <= 101 /\ 101 <= 101 + length (path (dfs_init fork_problem)) /\
  exists st1,
    dfs_recurrence fork_problem 101 (dfs_push (dfs_init fork_problem) "a" 1)
    = Done st1 /\
    visited_states (dfs_init fork_problem) ⊆ visited_states st1 /\
    (forall t, last (list_of_occured_states st1) = Some t ->
               is_goal fork_problem t = false ->
               exists st2,
                 dfs_pop st1 = Some st2 /\
                 list_of_occured_states st2
                 = list_of_occured_states (dfs_init fork_problem) /\
                 path st2 = path (dfs_init fork_problem) /\
                 1 ∈ visited_states st2 /\
                 dfs_moves fork_problem (dfs_recurrence fork_problem 101)
                   ("a" :: ["b"]) (dfs_init fork_problem)
                 = dfs_moves fork_problem (dfs_recurrence fork_problem 101)
                     ["b"] st2).
Proof.
  assert (H2 : last (list_of_occured_states (dfs_init fork_problem)) = Some 0)
    by reflexivity.
  assert (H3 : is_goal fork_problem 0 = false) by reflexivity.
  assert (H4 : length (path (dfs_init fork_problem)) <= 100) by (simpl; lia).
  assert (H5 : do_action fork_problem 0 "a" = Some 1) by reflexivity.
  assert (H6 : 1 ∉ visited_states (dfs_init fork_problem)).
  { simpl. intros Hin. apply elem_of_singleton in Hin. discriminate. }
  assert (H7 : 1 <= 101) by lia.
  assert (H8 : 101 <= 101 + length (path (dfs_init fork_problem)))
    by (simpl; lia).
  split; [exact fork_listed_actions_ok |].
  split; [exact H2 |]. split; [exact H3 |]. split; [exact H4 |].
  split; [exact H5 |]. split; [exact H6 |]. split; [exact H7 |].
  split; [exact H8 |].
  exact (dfs_backtracking_keeps_visited nat string fork_problem 101
           (dfs_init fork_problem) 0 "a" ["b"] 1 fork_listed_actions_ok
           H2 H3 H4 H5 H6 H7 H8).
Defined.

(** C6 as stated fails: on [fork_problem] the search pushes the dead end
    1, backtracks out of it and then finds the goal 2; at the end 1 is on
    neither list but is still in the visited set. *)
Lemma dfs_dead_end_stays_visited :
  exists st,
    dfs_recurrence fork_problem 102 (dfs_init fork_problem) = Done st /\
    path st = ["b"] /\
    list_of_occured_states st = [0; 2] /\
    bool_decide (1 ∈ visited_states st) = true /\
    is_goal fork_problem 1 = false.
Proof.
  eexists. split; [vm_compute; reflexivity |].
  repeat split; vm_compute; reflexivity.
Qed.

(** ** No engine hands an unlisted action to [do_action] *)

Section NoInvalidAction.
Context {State Action : Type} `{Countable State} `{EqDecision Action}.
Variable state_ltb : State -> State -> bool.
Variable action_ltb : Action -> Action -> bool.
Variable P : Problem State Action.
Hypothesis Hok : listed_actions_ok P.

Lemma bfs_expand_no_invalid cur cur_path moves visited queue :
  (forall a, In a moves -> In a (available_actions P cur)) ->
  bfs_expand P cur cur_path moves visited queue <> Raises InvalidAction.
Proof.
  revert visited queue.
  induction moves as [|move rest IH]; intros visited queue Hmoves; simpl;
    [discriminate |].
  destruct (Hok cur move (Hmoves move (or_introl eq_refl))) as (s' & ->).
  destruct (decide (s' ∈ visited)); apply IH;
    intros a Ha; apply Hmoves; now right.
Qed.

Lemma bfs_loop_no_invalid fuel cur cur_path visited queue :
  bfs_loop P fuel cur cur_path visited queue <> Raises InvalidAction.
Proof.
  revert cur cur_path visited queue.
  induction fuel as [|fuel IH]; intros cur cur_path visited queue; simpl;
    [discriminate |].
  destruct (negb (is_goal P cur) && negb (bool_decide (queue = [])));
    [| discriminate].
  destruct (bfs_expand P cur cur_path (available_actions P cur) visited
              queue) as [[visited' queue'] | e | |] eqn:E;
    try discriminate.
  - destruct queue' as [|[s p] queue'']; [discriminate | apply IH].
  - intros [= ->]. revert E. apply bfs_expand_no_invalid. auto.
Qed.

Lemma astar_expand_no_invalid cur cur_path g actions visited queue count :
  (forall a, In a actions -> In a (available_actions P cur)) ->
  astar_expand P cur cur_path g actions visited queue count
  <> Raises InvalidAction.
Proof.
  revert visited queue count.
  induction actions as [|action rest IH]; intros visited queue count Hact;
    simpl; [discriminate |].
  destruct (Hok cur action (Hact action (or_introl eq_refl))) as (s' & ->).
  assert (Hrest : forall a, In a rest -> In a (available_actions P cur))
    by (intros a Ha; apply Hact; now right).
  destruct (visited !! s') as [d|]; [| now apply IH].
  destruct (heuristic P s' + g <? d)%Z; now apply IH.
Qed.

Lemma astar_loop_no_invalid fuel visited queue count :
  astar_loop state_ltb action_ltb P fuel visited queue count
  <> Raises InvalidAction.
Proof.
  revert visited queue count.
  induction fuel as [|fuel IH]; intros visited queue count; simpl;
    [discriminate |].
  destruct (pq_get state_ltb action_ltb queue)
    as [[[[[f s] p] g] queue']|]; [| discriminate].
  destruct (is_goal P s); [discriminate |].
  destruct (astar_expand P s p g (available_actions P s) visited queue'
              count) as [[[visited' queue''] count'] | e | |] eqn:E;
    try discriminate.
  - apply IH.
  - intros [= ->]. revert E. apply astar_expand_no_invalid. auto.
Qed.

Lemma dfs_no_invalid fuel : dfs P fuel <> Raises InvalidAction.
Proof.
  unfold dfs.
  pose proof (dfs_recurrence_post P Hok fuel (dfs_init P)) as Hpost.
  destruct (dfs_recurrence P fuel (dfs_init P)) as [st | e | |];
    try discriminate.
  exfalso. apply Hpost. simpl. discriminate.
Qed.
End NoInvalidAction.

(** C10. For a Problem whose [do_action] raises at most on actions it did
    not list for the state, no run of [bfs], [dfs] or [astar] raises the
    invalid-action error, whatever the fuel: each engine only passes to
    [do_action] a state together with an action of
    [available_actions] of that state. *)
Theorem engines_never_raise_invalid_action :
  forall (State Action : Type) `{Countable State} `{EqDecision Action}
         (state_ltb : State -> State -> bool)
         (action_ltb : Action -> Action -> bool)
         (P : Problem State Action) (fuel : nat),
    listed_actions_ok P ->
    bfs P fuel <> Raises InvalidAction /\
    dfs P fuel <> Raises InvalidAction /\
    astar state_ltb action_ltb P fuel <> Raises InvalidAction.
Proof.
  intros State Action ? ? ? state_ltb action_ltb P fuel Hok.
  split; [apply bfs_loop_no_invalid; exact Hok |].
  split; [apply dfs_no_invalid; exact Hok |].
  apply astar_loop_no_invalid; exact Hok.
Qed.

Lemma vacuum_listed_actions_ok : listed_actions_ok VacuumProblem.
Proof.
  intros [robot dirty] a. simpl.
  intros [<- | [<- | [<- | []]]]; eexists; reflexivity.
Qed.

Lemma engines_never_raise_witness :
  listed_actions_ok VacuumProblem /\
  bfs VacuumProblem 20 <> Raises InvalidAction /\
  dfs VacuumProblem 20 <> Raises InvalidAction /\
  astar vacuum_state_ltb String.ltb VacuumProblem 20 <> Raises InvalidAction.
Proof.
  split; [exact vacuum_listed_actions_ok |].
  exact (engines_never_raise_invalid_action (Z * list bool) string
           vacuum_state_ltb String.ltb VacuumProblem 20
           vacuum_listed_actions_ok).
Defined.

(** ** The knowledge base *)

Lemma KB_read_inv (k : KB) (h h' : heap) (v : KBv) :
  KB_read k h = Some (v, h') ->
  h' = h /\
  h !! clauses k = Some (PyList (kb_clauses v)) /\
  h !! symbols k = Some (PySet (kb_symbols v)).
Proof.
  unfold KB_read, bind, load_list, load_set, ret.
  destruct (h !! clauses k) as [[cs | ?] |] eqn:Hc; try discriminate.
  destruct (h !! symbols k) as [[? | ss] |] eqn:Hs; try discriminate.
  intros [= <- <-]. auto.
Qed.

Lemma KB_read_intro (k : KB) (h : heap) cs ss :
  h !! clauses k = Some (PyList cs) ->
  h !! symbols k = Some (PySet ss) ->
  KB_read k h = Some ({| kb_clauses := cs; kb_symbols := ss |}, h).
Proof.
  intros Hc Hs. unfold KB_read, bind, load_list, load_set, ret.
  rewrite Hc, Hs. reflexivity.
Qed.

(** C8. Let [k] be a KB object of the heap. After [k2 = k.copy()] and
    [k2.add(p, c)], [k.clauses] and [k.symbols] read exactly as before,
    [k2.clauses] contains the clause [(p, c)], and [k2.symbols] includes
    the symbols of [k], the atoms of [p] and [c]. *)
Theorem copy_then_add_leaves_original :
  forall (h : heap) (k : KB) (v : KBv) (p : list atom) (c : atom),
    KB_read k h = Some (v, h) ->
    exists k2 h' v2,
      copy_then_add k p c h = Some (k2, h') /\
      KB_read k h' = Some (v, h') /\
      KB_read k2 h' = Some (v2, h') /\
      In (p, c) (kb_clauses v2) /\
      kb_symbols v ∪ list_to_set p ∪ {[c]} ⊆ kb_symbols v2.
Proof.
  intros h k [cs ss] p c Hread.
  apply KB_read_inv in Hread as (_ & Hc & Hs). simpl in Hc, Hs.
  remember (fresh (dom h)) as l1 eqn:E1.
  remember (fresh (dom (<[l1 := PyList []]> h))) as l2 eqn:E2.
  assert (Hl1 : h !! l1 = None).
  { rewrite E1. apply not_elem_of_dom. apply is_fresh. }
  assert (Hl2 : <[l1 := PyList []]> h !! l2 = None).
  { rewrite E2. apply not_elem_of_dom. apply is_fresh. }
  assert (Hc1 : l1 <> clauses k) by (intros E; rewrite <- E in Hc; congruence).
  assert (Hs1 : l1 <> symbols k) by (intros E; rewrite <- E in Hs; congruence).
  assert (Hl12 : l1 <> l2).
  { intros E. rewrite <- E, lookup_insert_eq in Hl2. discriminate. }
  assert (Hl21 : l2 <> l1) by auto.
  assert (Hc2 : l2 <> clauses k).
  { intros E. rewrite E, lookup_insert_ne in Hl2 by auto. congruence. }
  assert (Hs2 : l2 <> symbols k).
  { intros E. rewrite E, lookup_insert_ne in Hl2 by auto. congruence. }
  exists {| clauses := l1; symbols := l2 |}.
  eexists. exists {| kb_clauses := [] ++ cs ++ [(p, c)];
                     kb_symbols := ∅ ∪ ss ∪ list_to_set p ∪ {[c]} |}.
  split.
  { unfold copy_then_add, KB_copy, KB_init, KB_add, bind, ret, alloc,
      load_list, load_set, store.
    rewrite <- E1. simpl. rewrite <- E2. simpl.
    repeat (first [ rewrite lookup_insert_eq
                  | rewrite lookup_insert_ne by auto
                  | rewrite Hc | rewrite Hs ]; simpl).
    reflexivity. }
  split.
  { apply KB_read_intro;
      repeat (rewrite lookup_insert_ne by auto); assumption. }
  split.
  { apply KB_read_intro; simpl.
    - repeat (first [ rewrite lookup_insert_eq
                    | rewrite lookup_insert_ne by auto ]).
      reflexivity.
    - rewrite lookup_insert_eq. reflexivity. }
  simpl. split; [apply in_or_app; right; now left | set_solver].
Qed.

Lemma copy_then_add_witness :
  KB_read fact_KB fact_heap = Some (fact_KBv, fact_heap) /\
  exists k2 h' v2,
    copy_then_add fact_KB ["u"] "w" fact_heap = Some (k2, h') /\
    KB_read fact_KB h' = Some (fact_KBv, h') /\
    KB_read k2 h' = Some (v2, h') /\
    In (["u"], "w") (kb_clauses v2) /\
    kb_symbols fact_KBv ∪ list_to_set ["u"] ∪ {["w"]} ⊆ kb_symbols v2.
Proof.
  assert (H1 : KB_read fact_KB fact_heap = Some (fact_KBv, fact_heap))
    by (vm_compute; reflexivity).
  split; [exact H1 |].
  exact (copy_then_add_leaves_original fact_heap fact_KB fact_KBv ["u"] "w"
           H1).
Defined.

(** ** Backward chaining terminates *)

Lemma bc_step_refl st : bc_step st st.
Proof. repeat split; auto. intros a Hin Hnin. contradiction. Qed.

Lemma bc_step_through_call st0 st p st' :
  bc_step st0 st -> bc_step (bc_add p st) st' -> p ∉ to_check st' ->
  bc_step st0 st'.
Proof.
  intros (Hm & Ht & Hr) (Hm' & Ht' & Hr') Hp. simpl in *.
  assert (Hmemo : forall a, is_Some (memo st a) -> is_Some (memo st' a))
    by (intros a Ha; apply Hm'; exact Ha).
  repeat split.
  - auto.
  - intros a Ha. specialize (Ht' a Ha).
    apply elem_of_union in Ht' as [Heq | Hin]; [| auto].
    apply elem_of_singleton in Heq. subst a. contradiction.
  - intros a Ha Hna. destruct (decide (a ∈ to_check st)) as [Hin | Hnin].
    + apply Hr'; [| exact Hna]. apply elem_of_union. now right.
    + apply Hmemo, Hr; assumption.
Qed.

Lemma pending_shrinks U st0 st p :
  p ∈ U -> memo st p = None -> p ∉ to_check st -> bc_step st0 st ->
  size (pending U (bc_add p st)) + 1 <= size (pending U st0).
Proof.
  intros HU Hmemo Hnin (Hm & Ht & Hr).
  assert (Hsub : {[p]} ∪ pending U (bc_add p st) ⊆ pending U st0).
  { intros x Hx. unfold pending. apply elem_of_filter.
    assert (Hx' : x ∈ U /\ memo st x = None /\ x ∉ to_check st).
    { apply elem_of_union in Hx as [Hx | Hx].
      - apply elem_of_singleton in Hx. subst x. auto.
      - unfold pending in Hx. apply elem_of_filter in Hx as [[H1 H2] H3].
        simpl in H2. repeat split; auto.
        intros Hin. apply H2. apply elem_of_union. now right. }
    destruct Hx' as (HxU & Hxm & Hxt).
    split; [| exact HxU]. split.
    - destruct (memo st0 x) as [b|] eqn:E; [| reflexivity].
      destruct (Hm x) as [b' Hb']; [eauto | congruence].
    - intros Hin. destruct (Hr x Hin Hxt) as [b' Hb']. congruence. }
  assert (Hdisj : ({[p]} : gset atom) ## pending U (bc_add p st)).
  { apply disjoint_singleton_l. unfold pending. intros Hin.
    apply elem_of_filter in Hin as [[_ H2] _]. apply H2. simpl.
    apply elem_of_union. left. now apply elem_of_singleton. }
  pose proof (subseteq_size _ _ Hsub) as Hle.
  pose proof (size_union (C := gset atom) _ _ Hdisj) as Hu.
  pose proof (size_singleton (C := gset atom) p) as H1.
  rewrite Hu, H1 in Hle. lia.
Qed.

Lemma clause_atoms_premise cs c p :
  In c cs -> In p (fst c) -> p ∈ clause_atoms cs.
Proof.
  intros Hc Hp. unfold clause_atoms. apply elem_of_union_list.
  exists (list_to_set (fst c) ∪ {[snd c]}). split.
  - apply list_elem_of_In, in_map_iff. exists c. auto.
  - apply elem_of_union. left. apply elem_of_list_to_set.
    now apply list_elem_of_In.
Qed.

Section BackwardFacts.
Variable kb : KBv.
Variable U : gset atom.
Variable f : nat.
Hypothesis IHf :
  forall s st, rq_post U f s st (recursive_query f kb s st).

Lemma bc_premises_post st0 premises st :
  (forall p, In p premises -> p ∈ U) ->
  bc_step st0 st ->
  loop_post U f st0 (bc_premises (recursive_query f kb) premises st).
Proof.
  revert st.
  induction premises as [|p rest IH]; intros st HU Hstep; simpl;
    [exact Hstep |].
  destruct (decide (p ∈ to_check st)) as [Hin | Hnin]; [exact Hstep |].
  assert (Hrest : forall q, In q rest -> q ∈ U)
    by (intros q Hq; apply HU; now right).
  specialize (IHf p (bc_add p st)).
  destruct (recursive_query f kb p (bc_add p st)) as [[st' b] | e | |];
    simpl in IHf; try contradiction.
  - destruct IHf as (Hcall & Hp & _).
    pose proof (bc_step_through_call st0 st p st' Hstep Hcall Hp) as Hstep'.
    destruct b; [apply IH; assumption | exact Hstep'].
  - unfold loop_post. destruct IHf as [Hz | [Hmemo Hlt]]; [lia |].
    pose proof (pending_shrinks U st0 st p (HU p (or_introl eq_refl))
                  Hmemo Hnin Hstep).
    lia.
Qed.

Lemma bc_clauses_post st0 cs st :
  (forall c, In c cs -> forall p, In p (fst c) -> p ∈ U) ->
  bc_step st0 st ->
  loop_post U f st0 (bc_clauses (recursive_query f kb) cs st).
Proof.
  revert st.
  induction cs as [|c rest IH]; intros st HU Hstep; simpl; [exact Hstep |].
  pose proof (bc_premises_post st0 (fst c) st
                (HU c (or_introl eq_refl)) Hstep) as Hprem.
  destruct (bc_premises (recursive_query f kb) (fst c) st)
    as [[st' b] | e | |]; simpl in Hprem; try contradiction.
  - destruct b; [exact Hprem |].
    apply IH; [| exact Hprem]. intros c' Hc'. apply HU. now right.
  - exact Hprem.
Qed.
End BackwardFacts.

Lemma recursive_query_post (kb : KBv) fuel s st :
  rq_post (clause_atoms (kb_clauses kb)) fuel s st
    (recursive_query fuel kb s st).
Proof.
  revert s st. induction fuel as [|f IH]; intros s st; simpl; [now left |].
  destruct (memo st s) as [b|] eqn:Hmemo; simpl.
  - assert (Hs : is_Some (memo (bc_remove s st) s)).
    { unfold memo in *. simpl. rewrite Hmemo. eauto. }
    split; [| split; [simpl; set_solver | exact Hs]].
    split; [auto |]. split; [simpl; set_solver |].
    intros a Ha Hna. simpl in Hna.
    destruct (decide (a = s)) as [-> | Hne]; [exact Hs | set_solver].
  - assert (HU : forall c,
              In c (filter (fun c : clause => snd c = s) (kb_clauses kb)) ->
              forall p, In p (fst c) -> p ∈ clause_atoms (kb_clauses kb)).
    { intros c Hc p Hp. apply (clause_atoms_premise _ c p); [| exact Hp].
      apply list_elem_of_In in Hc. apply list_elem_of_filter in Hc as [_ Hc].
      now apply list_elem_of_In. }
    pose proof (bc_clauses_post kb (clause_atoms (kb_clauses kb)) f IH st
                  (filter (fun c : clause => snd c = s) (kb_clauses kb)) st
                  HU (bc_step_refl st)) as Hloop.
    destruct (bc_clauses (recursive_query f kb)
                (filter (fun c : clause => snd c = s) (kb_clauses kb)) st)
      as [[st' b] | e | |]; simpl in Hloop; try contradiction.
    + destruct Hloop as (Hm & Ht & Hr).
      assert (Hs : is_Some (memo (bc_remove s (bc_memoize s b st')) s)).
      { unfold memo. simpl. rewrite lookup_insert_eq. eauto. }
      assert (Hkeep : forall a, is_Some (memo st' a) ->
                is_Some (memo (bc_remove s (bc_memoize s b st')) a)).
      { intros a Ha. destruct (decide (a = s)) as [-> | Hne]; [exact Hs |].
        unfold memo in *. simpl. rewrite lookup_insert_ne by auto. exact Ha. }
      split; [| split; [simpl; set_solver | exact Hs]].
      split; [auto |]. split; [simpl; set_solver |].
      intros a Ha Hna. simpl in Hna.
      destruct (decide (a = s)) as [-> | Hne]; [exact Hs |].
      apply Hkeep, Hr; [exact Ha | set_solver].
    + right. split; [exact Hmemo | exact Hloop].
Qed.

Lemma recursive_query_returns (kb : KBv) fuel s st :
  size (clause_atoms (kb_clauses kb)) + 2 <= fuel ->
  exists st' b, recursive_query fuel kb s st = Done (st', b).
Proof.
  intros Hfuel.
  pose proof (recursive_query_post kb fuel s st) as Hpost.
  destruct (recursive_query fuel kb s st) as [[st' b] | e | |];
    simpl in Hpost; try contradiction; [eauto |].
  destruct Hpost as [Hz | [_ Hlt]]; [lia |].
  assert (Hsub : pending (clause_atoms (kb_clauses kb)) st
                 ⊆ clause_atoms (kb_clauses kb)).
  { unfold pending. intros x Hx. now apply elem_of_filter in Hx as [_ Hx]. }
  apply subseteq_size in Hsub. lia.
Qed.

(** The limited recursion is the fuel-bounded one with the end of the
    fuel read as [RecursionError]. *)
Lemma bc_premises_limit_exceeded
    (rec rec' : atom -> bc_state -> run (bc_state * bool)) :
  (forall a st, rec' a st = limit_exceeded (rec a st)) ->
  forall premises st,
    bc_premises rec' premises st
    = limit_exceeded (bc_premises rec premises st).
Proof.
  intros Hrec. induction premises as [| p rest IH]; intros st; simpl;
    [reflexivity |].
  destruct (decide (p ∈ to_check st)); [reflexivity |].
  rewrite Hrec.
  destruct (rec p (bc_add p st)) as [[st' [|]] | e | |]; simpl; auto.
Qed.

Lemma bc_clauses_limit_exceeded
    (rec rec' : atom -> bc_state -> run (bc_state * bool)) :
  (forall a st, rec' a st = limit_exceeded (rec a st)) ->
  forall cs st,
    bc_clauses rec' cs st = limit_exceeded (bc_clauses rec cs st).
Proof.
  intros Hrec. induction cs as [| c rest IH]; intros st; simpl;
    [reflexivity |].
  rewrite (bc_premises_limit_exceeded rec rec' Hrec).
  destruct (bc_premises rec (fst c) st) as [[st' [|]] | e | |]; simpl; auto.
Qed.

Lemma recursive_query_limited_eq (kb : KBv) (limit : nat) :
  forall s st,
    recursive_query_limited limit kb s st
    = limit_exceeded (recursive_query limit kb s st).
Proof.
  induction limit as [| limit IH]; intros s st; simpl; [reflexivity |].
  destruct (memo st s); [reflexivity |].
  rewrite (bc_clauses_limit_exceeded (recursive_query limit kb)
             (recursive_query_limited limit kb) IH).
  destruct (bc_clauses (recursive_query limit kb) _ st)
    as [[st' b] | e | |]; reflexivity.
Qed.

Lemma recursive_query_limited_returns (kb : KBv) limit s st :
  size (clause_atoms (kb_clauses kb)) + 2 <= limit ->
  exists st' b, recursive_query_limited limit kb s st = Done (st', b).
Proof.
  intros Hlimit. rewrite recursive_query_limited_eq.
  destruct (recursive_query_returns kb limit s st Hlimit)
    as (st' & b & ->).
  simpl. eauto.
Qed.

Lemma recursive_query_limited_ends (kb : KBv) limit s st :
  (exists st' b, recursive_query_limited limit kb s st = Done (st', b)) \/
  recursive_query_limited limit kb s st = Raises RecursionError.
Proof.
  rewrite recursive_query_limited_eq.
  pose proof (recursive_query_post kb limit s st) as Hpost.
  destruct (recursive_query limit kb s st) as [[st' b] | e | |];
    simpl in *; try contradiction; eauto.
Qed.

(** C9. [query] ends on every knowledge base, from any memo, for every
    atom, cyclic clauses or not. The recursion never nests deeper than
    two more than the number of atoms in the clauses: where the
    interpreter allows that many nested calls, [query] returns a Boolean.
    Under any limit it returns a Boolean or raises the interpreter's
    [RecursionError], and it does nothing else. The guard that cuts the
    cycles: a premise that is in [to_check] fails its clause at once,
    without a recursive call. *)
Theorem backward_query_terminates :
  forall (kb : KBv) (inferred : gmap atom (option bool)) (symbol : atom)
         (limit extra : nat),
    (exists inferred' b,
       bc_query_limited (size (clause_atoms (kb_clauses kb)) + 2 + extra) kb
         inferred symbol = Done (inferred', b)) /\
    (exists b,
       BackwardChainingReasoner_query_limited
         (size (clause_atoms (kb_clauses kb)) + 2 + extra) kb symbol
       = Done b) /\
    ((exists b,
        BackwardChainingReasoner_query_limited limit kb symbol = Done b) \/
     BackwardChainingReasoner_query_limited limit kb symbol
     = Raises RecursionError) /\
    (forall rec premise rest st,
       premise ∈ to_check st ->
       bc_premises rec (premise :: rest) st = Done (st, false)).
Proof.
  intros kb inferred symbol limit extra.
  assert (Hq : forall inf, exists inf' b,
             bc_query_limited (size (clause_atoms (kb_clauses kb)) + 2 + extra)
               kb inf symbol = Done (inf', b)).
  { intros inf. unfold bc_query_limited.
    destruct (memo _ symbol) as [b|]; [eauto |].
    destruct (decide (symbol ∈ kb_symbols kb)); [| eauto].
    destruct (recursive_query_limited_returns kb
                (size (clause_atoms (kb_clauses kb)) + 2 + extra) symbol
                {| bc_inferred := inf;
                   to_check := list_to_set (chars symbol) |})
      as (st' & b & ->); [lia | eauto]. }
  split; [apply Hq |]. split; [| split].
  - unfold BackwardChainingReasoner_query_limited.
    destruct (Hq (bc_init kb)) as (inf' & b & ->). eauto.
  - unfold BackwardChainingReasoner_query_limited, bc_query_limited.
    destruct (memo _ symbol) as [b|]; [eauto |].
    destruct (decide (symbol ∈ kb_symbols kb)); [| eauto].
    destruct (recursive_query_limited_ends kb limit symbol
                {| bc_inferred := bc_init kb;
                   to_check := list_to_set (chars symbol) |})
      as [(st' & b & ->) | ->]; eauto.
  - intros rec premise rest st Hin. simpl.
    destruct (decide (premise ∈ to_check st)); [reflexivity | contradiction].
Qed.

(** * Further properties of the engines *)

Section PlanToFacts.
Context {State Action : Type}.
Variable P : Problem State Action.

Lemma plan_to_nil : plan_to P (initial_state P) [].
Proof. split; simpl; auto. Qed.

Lemma plan_to_snoc s plan a s' :
  plan_to P s plan -> In a (available_actions P s) ->
  do_action P s a = Some s' -> plan_to P s' (plan ++ [a]).
Proof.
  intros [Hl Hr] Ha Hdo. split.
  - eapply legal_plan_snoc; eauto.
  - eapply run_plan_snoc; eauto.
Qed.

Lemma plan_cost_snoc s0 plan a s s' :
  run_plan P s0 plan = Some s -> do_action P s a = Some s' ->
  plan_cost P s0 (plan ++ [a])
  = (plan_cost P s0 plan + action_cost P s a)%Z.
Proof.
  revert s0. induction plan as [|b rest IH]; intros s0; simpl.
  - intros [= ->] ->. lia.
  - destruct (do_action P s0 b) as [s1|]; [| discriminate].
    intros Hrun Hdo. rewrite (IH s1 Hrun Hdo). lia.
Qed.
End PlanToFacts.

(** ** Breadth-first search builds legal plans *)

Section BFSPlans.
Context {State Action : Type} `{Countable State}.
Variable P : Problem State Action.

Lemma bfs_expand_plans cur cur_path moves visited queue visited' queue' :
  plan_to P cur cur_path ->
  (forall a, In a moves -> In a (available_actions P cur)) ->
  Forall (fun e => plan_to P (fst e) (snd e)) queue ->
  bfs_expand P cur cur_path moves visited queue = Done (visited', queue') ->
  Forall (fun e => plan_to P (fst e) (snd e)) queue'.
Proof.
  intros Hcur. revert visited queue.
  induction moves as [|move rest IH]; intros visited queue Hmoves Hq; simpl.
  - intros [= <- <-]. exact Hq.
  - destruct (do_action P cur move) as [s'|] eqn:Hdo; [| discriminate].
    assert (Hrest : forall a, In a rest -> In a (available_actions P cur))
      by (intros a Ha; apply Hmoves; now right).
    destruct (decide (s' ∈ visited)); [now apply IH |].
    apply IH; [exact Hrest |].
    apply Forall_app. split; [exact Hq |]. constructor; [| constructor].
    simpl. eapply plan_to_snoc; eauto. apply Hmoves. now left.
Qed.

Lemma bfs_loop_plans fuel cur cur_path visited queue p :
  plan_to P cur cur_path ->
  Forall (fun e => plan_to P (fst e) (snd e)) queue ->
  bfs_loop P fuel cur cur_path visited queue = Done p ->
  exists s, plan_to P s p.
Proof.
  revert cur cur_path visited queue.
  induction fuel as [|fuel IH]; intros cur cur_path visited queue Hcur Hq;
    simpl; [discriminate |].
  destruct (negb (is_goal P cur) && negb (bool_decide (queue = [])));
    [| intros [= <-]; eauto].
  destruct (bfs_expand P cur cur_path (available_actions P cur) visited queue)
    as [[visited' queue'] | e | |] eqn:E; try discriminate.
  pose proof (bfs_expand_plans _ _ _ _ _ _ _ Hcur (fun a Ha => Ha) Hq E)
    as Hq'.
  destruct queue' as [|[s q] queue'']; [discriminate |].
  apply Forall_cons in Hq' as [Hs Hq'']. apply IH; assumption.
Qed.
End BFSPlans.

(** X1. Whatever list [bfs] returns is executable: each of its actions is
    listed by [available_actions] in the state where it is taken, and
    [do_action] never raises along it. *)
Theorem bfs_returns_legal_plan :
  forall (State Action : Type) `{Countable State}
         (P : Problem State Action) (fuel : nat) (p : list Action),
    bfs P fuel = Done p ->
    legal_plan P (initial_state P) p /\
    exists s, run_plan P (initial_state P) p = Some s.
Proof.
  intros State Action ? ? P fuel p Hrun.
  destruct (bfs_loop_plans P fuel (initial_state P) [] {[initial_state P]}
              [(initial_state P, [])] p) as (s & Hl & Hr).
  - apply plan_to_nil.
  - constructor; [apply plan_to_nil | constructor].
  - exact Hrun.
  - split; [exact Hl | eauto].
Qed.

Lemma bfs_returns_legal_plan_witness :
  bfs VacuumProblem 20 = Done ["Suck"; "Right"; "Suck"] /\
  legal_plan VacuumProblem (initial_state VacuumProblem)
    ["Suck"; "Right"; "Suck"] /\
  exists s, run_plan VacuumProblem (initial_state VacuumProblem)
              ["Suck"; "Right"; "Suck"] = Some s.
Proof.
  assert (H1 : bfs VacuumProblem 20 = Done ["Suck"; "Right"; "Suck"])
    by (vm_compute; reflexivity).
  split; [exact H1 |].
  exact (bfs_returns_legal_plan (Z * list bool) string VacuumProblem 20
           ["Suck"; "Right"; "Suck"] H1).
Defined.

(** ** A* returns plans that reach a goal *)

Section AStarSound.
Context {State Action : Type} `{Countable State} `{EqDecision Action}.
Variable state_ltb : State -> State -> bool.
Variable action_ltb : Action -> Action -> bool.
Variable P : Problem State Action.

Lemma pq_min_in e q : In (pq_min state_ltb action_ltb e q) (e :: q).
Proof.
  revert e. induction q as [|x q IH]; intros e; simpl; [auto |].
  destruct (entry_ltb state_ltb action_ltb x e).
  - destruct (IH x) as [<- | Hin]; auto.
  - destruct (IH e) as [<- | Hin]; auto.
Qed.

Lemma pq_remove_incl (m x : entry (State := State) (Action := Action)) q :
  In x (pq_remove m q) -> In x q.
Proof.
  induction q as [|y q IH]; simpl; [auto |].
  destruct (decide (y = m)); [auto |].
  intros [<- | Hin]; auto.
Qed.

Lemma pq_get_entries q m q' :
  Forall (astar_entry_ok P) q ->
  pq_get state_ltb action_ltb q = Some (m, q') ->
  astar_entry_ok P m /\ Forall (astar_entry_ok P) q'.
Proof.
  intros Hq. destruct q as [|e q0]; simpl; [discriminate |].
  intros [= <- <-]. rewrite Forall_forall in Hq. split.
  - apply Hq, list_elem_of_In, pq_min_in.
  - apply Forall_forall. intros x Hx. apply Hq.
    apply list_elem_of_In. apply list_elem_of_In in Hx.
    eapply pq_remove_incl. exact Hx.
Qed.

Lemma astar_expand_entries cur cur_path g actions visited queue count
    visited' queue' count' :
  plan_to P cur cur_path ->
  g = plan_cost P (initial_state P) cur_path ->
  (forall a, In a actions -> In a (available_actions P cur)) ->
  Forall (astar_entry_ok P) queue ->
  astar_expand P cur cur_path g actions visited queue count
  = Done (visited', queue', count') ->
  Forall (astar_entry_ok P) queue'.
Proof.
  intros Hcur Hg. revert visited queue count.
  induction actions as [|action rest IH]; intros visited queue count Hact Hq;
    simpl.
  - intros [= <- <- <-]. exact Hq.
  - destruct (do_action P cur action) as [s'|] eqn:Hdo; [| discriminate].
    assert (Hrest : forall a, In a rest -> In a (available_actions P cur))
      by (intros a Ha; apply Hact; now right).
    assert (Hnew : Forall (astar_entry_ok P)
              (pq_put ((heuristic P s' + g)%Z, s', cur_path ++ [action],
                       (g + action_cost P cur action)%Z) queue)).
    { unfold pq_put. apply Forall_app. split; [exact Hq |].
      constructor; [| constructor]. simpl. split.
      - eapply plan_to_snoc; eauto. apply Hact. now left.
      - destruct Hcur as [_ Hrun].
        rewrite (plan_cost_snoc P _ _ _ _ _ Hrun Hdo). lia. }
    destruct (visited !! s') as [d|]; [| now apply IH].
    destruct (heuristic P s' + g <? d)%Z; now apply IH.
Qed.

Lemma astar_loop_sound fuel visited queue count p :
  Forall (astar_entry_ok P) queue ->
  astar_loop state_ltb action_ltb P fuel visited queue count = Done (Some p) ->
  reaches_goal P (initial_state P) p.
Proof.
  revert visited queue count.
  induction fuel as [|fuel IH]; intros visited queue count Hq; simpl;
    [discriminate |].
  destruct (pq_get state_ltb action_ltb queue)
    as [[[[[f s] q] g] queue']|] eqn:Hget; [| discriminate].
  destruct (pq_get_entries _ _ _ Hq Hget) as [[Hs Hg] Hq'].
  destruct (is_goal P s) eqn:Hgoal.
  - intros [= <-]. destruct Hs as [Hl Hr]. split; [exact Hl | eauto].
  - destruct (astar_expand P s q g (available_actions P s) visited queue'
                count) as [[[visited' queue''] count'] | e | |] eqn:E;
      try discriminate.
    apply IH.
    eapply astar_expand_entries; [exact Hs | exact Hg | | exact Hq' | exact E].
    auto.
Qed.
End AStarSound.

(** X2. Whenever [astar] returns a plan, the plan consists of listed
    actions and leads from the initial state to a goal state. *)
Theorem astar_returned_plan_reaches_goal :
  forall (State Action : Type) `{Countable State} `{EqDecision Action}
         (state_ltb : State -> State -> bool)
         (action_ltb : Action -> Action -> bool)
         (P : Problem State Action) (fuel : nat) (p : list Action),
    astar state_ltb action_ltb P fuel = Done (Some p) ->
    reaches_goal P (initial_state P) p.
Proof.
  intros State Action ? ? ? state_ltb action_ltb P fuel p Hrun.
  eapply astar_loop_sound; [| exact Hrun].
  unfold astar_init_queue, pq_put. simpl.
  constructor; [| constructor]. simpl. split; [apply plan_to_nil | reflexivity].
Qed.

Lemma astar_returned_plan_witness :
  astar Nat.ltb String.ltb detour_problem 2 = Done (Some ["direct"]) /\
  reaches_goal detour_problem (initial_state detour_problem) ["direct"].
Proof.
  assert (H1 : astar Nat.ltb String.ltb detour_problem 2
               = Done (Some ["direct"])) by (vm_compute; reflexivity).
  split; [exact H1 |].
  exact (astar_returned_plan_reaches_goal nat string Nat.ltb String.ltb
           detour_problem 2 ["direct"] H1).
Defined.

(** ** A goal as initial state *)

(** X3. When the initial state is a goal, each engine returns the empty
    plan at once, without expanding a state. *)
Theorem engines_return_empty_plan_on_goal :
  forall (State Action : Type) `{Countable State} `{EqDecision Action}
         (state_ltb : State -> State -> bool)
         (action_ltb : Action -> Action -> bool)
         (P : Problem State Action) (fuel : nat),
    is_goal P (initial_state P) = true ->
    bfs P (S fuel) = Done [] /\
    dfs P (S fuel) = Done [] /\
    astar state_ltb action_ltb P (S fuel) = Done (Some []).
Proof.
  intros State Action ? ? ? state_ltb action_ltb P fuel Hgoal.
  split; [| split].
  - unfold bfs. simpl. rewrite Hgoal. reflexivity.
  - unfold dfs. simpl.
    destruct (available_actions P (initial_state P)) as [|move rest];
      simpl; [reflexivity |].
    rewrite Hgoal. reflexivity.
  - unfold astar, astar_init_queue, pq_put. simpl.
    rewrite Hgoal. reflexivity.
Qed.

Lemma engines_return_empty_plan_witness :
  is_goal (chain_problem 3 (fun _ => true))
    (initial_state (chain_problem 3 (fun _ => true))) = true /\
  bfs (chain_problem 3 (fun _ => true)) 1 = Done [] /\
  dfs (chain_problem 3 (fun _ => true)) 1 = Done [] /\
  astar Nat.ltb String.ltb (chain_problem 3 (fun _ => true)) 1
  = Done (Some []).
Proof.
  assert (H1 : is_goal (chain_problem 3 (fun _ => true))
                 (initial_state (chain_problem 3 (fun _ => true))) = true)
    by reflexivity.
  split; [exact H1 |].
  exact (engines_return_empty_plan_on_goal nat string Nat.ltb String.ltb
           (chain_problem 3 (fun _ => true)) 0 H1).
Defined.

(** ** Depth-first search: what [dfs] returns *)

Section TraceFacts.
Context {State Action : Type}.
Variable P : Problem State Action.

Lemma trace_plan_snoc s0 plan a s s' :
  run_plan P s0 plan = Some s -> do_action P s a = Some s' ->
  trace_plan P s0 (plan ++ [a]) = trace_plan P s0 plan ++ [s'].
Proof.
  revert s0. induction plan as [|b rest IH]; intros s0; simpl.
  - intros [= ->] ->. reflexivity.
  - destruct (do_action P s0 b) as [s1|]; [| discriminate].
    intros Hrun Hdo. rewrite (IH s1 Hrun Hdo). reflexivity.
Qed.

Lemma trace_plan_last s0 plan :
  legal_plan P s0 plan ->
  exists s, run_plan P s0 plan = Some s /\
            last (trace_plan P s0 plan) = Some s.
Proof.
  revert s0. induction plan as [|b rest IH]; intros s0; simpl.
  - intros _. exists s0. auto.
  - intros [_ Hrest]. destruct (do_action P s0 b) as [s1|]; [| contradiction].
    destruct (IH s1 Hrest) as (s & Hrun & Hlast). exists s. split; [exact Hrun |].
    destruct rest; simpl in *; exact Hlast.
Qed.
End TraceFacts.

Section DFSInv.
Context {State Action : Type} `{Countable State}.
Variable P : Problem State Action.
Hypothesis Hok : listed_actions_ok P.

Lemma dfs_inv_init : dfs_inv P (dfs_init P).
Proof.
  repeat split; simpl; auto.
  - constructor; [intros Hin; inversion Hin | constructor].
  - intros s [<- | []]. now apply elem_of_singleton.
  - lia.
Qed.

Lemma dfs_inv_top st top :
  dfs_inv P st -> last (list_of_occured_states st) = Some top ->
  run_plan P (initial_state P) (path st) = Some top.
Proof.
  intros (Hl & Hlos & _) Htop.
  destruct (trace_plan_last P _ _ Hl) as (s & Hrun & Hlast).
  rewrite Hlos, Hlast in Htop. congruence.
Qed.

Lemma dfs_inv_push st top move new_state :
  dfs_inv P st -> last (list_of_occured_states st) = Some top ->
  ~ 100 < length (path st) ->
  In move (available_actions P top) ->
  do_action P top move = Some new_state ->
  new_state ∉ visited_states st ->
  dfs_inv P (dfs_push st move new_state).
Proof.
  intros Hinv Htop Hlen Hmove Hdo Hnew.
  pose proof (dfs_inv_top st top Hinv Htop) as Hrun.
  destruct Hinv as (Hl & Hlos & Hsz & Hnd & Hvis & _).
  repeat split; simpl.
  - eapply legal_plan_snoc; eauto.
  - rewrite (trace_plan_snoc P _ _ _ _ _ Hrun Hdo), Hlos. reflexivity.
  - rewrite !length_app. simpl. lia.
  - apply NoDup_app. split; [exact Hnd |]. split.
    + intros x Hx Hin. apply list_elem_of_In in Hx.
      apply list_elem_of_singleton in Hin. subst x.
      apply Hnew, Hvis, Hx.
    + apply NoDup_singleton.
  - intros s Hs. apply in_app_iff in Hs as [Hs | [<- | []]].
    + apply elem_of_union. right. now apply Hvis.
    + apply elem_of_union. left. now apply elem_of_singleton.
  - rewrite length_app. simpl. lia.
Qed.

Lemma dfs_moves_inv f :
  (forall st st', dfs_inv P st -> dfs_recurrence P f st = Done st' ->
                  dfs_inv P st') ->
  forall moves st st',
    dfs_inv P st ->
    (forall top, last (list_of_occured_states st) = Some top ->
                 is_goal P top = false ->
                 forall a, In a moves -> In a (available_actions P top)) ->
    dfs_moves P (dfs_recurrence P f) moves st = Done st' ->
    dfs_inv P st'.
Proof.
  intros IHf moves.
  induction moves as [|move rest IH]; intros st st' Hinv Hmoves; simpl.
  - intros [= <-]. exact Hinv.
  - destruct (last (list_of_occured_states st)) as [top|] eqn:Htop;
      [| discriminate].
    destruct (is_goal P top || bool_decide (100 < length (path st)))
      eqn:Hstop; [intros [= <-]; exact Hinv |].
    apply orb_false_iff in Hstop as [Hgoal Hdepth].
    apply bool_decide_eq_false in Hdepth.
    assert (Hrest : forall top', Some top = Some top' ->
              is_goal P top' = false ->
              forall a, In a rest -> In a (available_actions P top')).
    { intros top' Heq Hg a Ha. apply (Hmoves top' Heq Hg). now right. }
    destruct (do_action P top move) as [new_state|] eqn:Hdo; [| discriminate].
    destruct (decide (new_state ∈ visited_states st)) as [Hin | Hnin].
    { apply IH; [exact Hinv |]. rewrite Htop. exact Hrest. }
    assert (Hpush : dfs_inv P (dfs_push st move new_state)).
    { eapply dfs_inv_push; eauto.
      apply (Hmoves top eq_refl Hgoal). now left. }
    pose proof (dfs_recurrence_post P Hok f (dfs_push st move new_state))
      as Hpost.
    destruct (dfs_recurrence P f (dfs_push st move new_state))
      as [st1 | e | |] eqn:Hrec; try discriminate.
    specialize (IHf _ _ Hpush Hrec).
    simpl in Hpost. destruct Hpost as [Hvis Hcase];
      [simpl; apply snoc_nonempty |].
    destruct (last (list_of_occured_states st1)) as [top1|] eqn:Htop1;
      [| discriminate].
    destruct (is_goal P top1) eqn:Hgoal1.
    { apply IH; [exact IHf |]. rewrite Htop1.
      intros top' [= <-] Hg. congruence. }
    destruct Hcase as [[Hlos Hpath] | (t & Ht & Hgt)]; [| congruence].
    simpl in Hlos, Hpath, Hvis.
    unfold dfs_pop. rewrite Hlos, Hpath, !pop_last_snoc.
    apply IH.
    + destruct Hinv as (Hl & Htr & Hsz & Hnd & Hin & Hle).
      repeat split; simpl; auto.
      intros s Hs. apply Hvis. apply elem_of_union. right. now apply Hin.
    + simpl. rewrite Htop. exact Hrest.
Qed.

Lemma dfs_recurrence_inv fuel st st' :
  dfs_inv P st -> dfs_recurrence P fuel st = Done st' -> dfs_inv P st'.
Proof.
  revert st st'. induction fuel as [|f IH]; intros st st' Hinv; simpl;
    [discriminate |].
  destruct (last (list_of_occured_states st)) as [top|] eqn:Htop;
    [| discriminate].
  apply (dfs_moves_inv f IH); [exact Hinv |].
  rewrite Htop. intros top' [= <-] _ a Ha. exact Ha.
Qed.
End DFSInv.

(** X4. For a Problem that does not raise on its listed actions, [dfs]
    returns whatever the state space, with a recursion depth of at most
    102; the list it returns is either empty or a plan of listed actions
    that leads from the initial state to a goal state. *)
Theorem dfs_returns_empty_or_goal_plan :
  forall (State Action : Type) `{Countable State}
         (P : Problem State Action) (extra : nat),
    listed_actions_ok P ->
    exists p,
      dfs P (102 + extra) = Done p /\
      (p = [] \/ reaches_goal P (initial_state P) p).
Proof.
  intros State Action ? ? P extra Hok.
  pose proof (dfs_recurrence_post P Hok (102 + extra) (dfs_init P)) as Hpost.
  pose proof (dfs_recurrence_inv P Hok (102 + extra) (dfs_init P)) as Hinv.
  unfold dfs.
  destruct (dfs_recurrence P (102 + extra) (dfs_init P)) as [st | e | |];
    simpl in Hpost.
  - exists (path st). split; [reflexivity |].
    specialize (Hinv st (dfs_inv_init P) eq_refl).
    destruct Hpost as [_ [[_ Hpath] | (t & Ht & Hgoal)]];
      [simpl; discriminate | left; exact Hpath |].
    right. split; [apply Hinv |]. exists t. split; [| exact Hgoal].
    eapply dfs_inv_top; eauto.
  - exfalso. apply Hpost. simpl. discriminate.
  - exfalso. apply Hpost. simpl. discriminate.
  - exfalso. destruct Hpost as [Hz | Hlt]; [simpl; discriminate | lia |].
    simpl in Hlt. lia.
Qed.

Lemma dfs_returns_witness :
  listed_actions_ok VacuumProblem /\
  exists p,
    dfs VacuumProblem (102 + 0) = Done p /\
    (p = [] \/ reaches_goal VacuumProblem (initial_state VacuumProblem) p).
Proof.
  split; [exact vacuum_listed_actions_ok |].
  exact (dfs_returns_empty_or_goal_plan (Z * list bool) string VacuumProblem
           0 vacuum_listed_actions_ok).
Defined.

(** X5. The plan [dfs] returns has at most 101 actions, and the states
    it passes through, from the initial state on, are pairwise
    different: the search never steps onto a state of its current
    path. *)
Theorem dfs_plan_is_short_and_loop_free :
  forall (State Action : Type) `{Countable State}
         (P : Problem State Action) (fuel : nat) (p : list Action),
    listed_actions_ok P ->
    dfs P fuel = Done p ->
    length p <= 101 /\ NoDup (trace_plan P (initial_state P) p).
Proof.
  intros State Action ? ? P fuel p Hok Hrun. unfold dfs in Hrun.
  destruct (dfs_recurrence P fuel (dfs_init P)) as [st | e | |] eqn:Hrec;
    try discriminate.
  injection Hrun as <-.
  destruct (dfs_recurrence_inv P Hok fuel _ _ (dfs_inv_init P) Hrec)
    as (_ & Htr & _ & Hnd & _ & Hle).
  split; [exact Hle |]. rewrite <- Htr. exact Hnd.
Qed.

Lemma dfs_plan_witness :
  listed_actions_ok VacuumProblem /\
  dfs VacuumProblem 102 = Done ["Suck"; "Right"; "Suck"] /\
  length ["Suck"; "Right"; "Suck"] <= 101 /\
  NoDup (trace_plan VacuumProblem (initial_state VacuumProblem)
           ["Suck"; "Right"; "Suck"]).
Proof.
  assert (H1 : dfs VacuumProblem 102 = Done ["Suck"; "Right"; "Suck"])
    by (vm_compute; reflexivity).
  split; [exact vacuum_listed_actions_ok |]. split; [exact H1 |].
  exact (dfs_plan_is_short_and_loop_free (Z * list bool) string VacuumProblem
           102 ["Suck"; "Right"; "Suck"] vacuum_listed_actions_ok H1).
Defined.

(** ** Breadth-first search: a goal it reaches is reached by a shortest plan *)

Section BFSOptimal.
Context {State Action : Type} `{Countable State}.
Variable P : Problem State Action.

Lemma plan_to_unsnoc t q0 a :
  plan_to P t (q0 ++ [a]) ->
  exists u, plan_to P u q0 /\ In a (available_actions P u) /\
            do_action P u a = Some t.
Proof.
  unfold plan_to. generalize (initial_state P) as s0.
  induction q0 as [|b rest IH]; intros s0; simpl.
  - intros [[Ha Hdo] Hrun].
    destruct (do_action P s0 a) as [s1|] eqn:E; [| contradiction].
    injection Hrun as <-. exists s0. auto.
  - intros [[Hb Hl] Hrun].
    destruct (do_action P s0 b) as [s1|] eqn:E; [| contradiction].
    destruct (IH s1 (conj Hl Hrun)) as (u & [Hl' Hr'] & Ha & Hdo).
    exists u. repeat split; auto.
Qed.

Lemma plan_to_functional s s' p : plan_to P s p -> plan_to P s' p -> s = s'.
Proof. intros [_ H1] [_ H2]. congruence. Qed.

Lemma bfs_closed_mono visited visited' v :
  visited ⊆ visited' -> bfs_closed P visited v -> bfs_closed P visited' v.
Proof.
  intros Hsub [Hg Hsucc]. split; [exact Hg |].
  intros a v' Ha Hdo. apply Hsub. eauto.
Qed.

Lemma bfs_expand_opt cur cur_path moves visited queue visited' queue' :
  plan_to P cur cur_path ->
  (forall a, In a moves -> In a (available_actions P cur)) ->
  (forall t q, plan_to P t q -> length q <= length cur_path -> t ∈ visited) ->
  bfs_expand P cur cur_path moves visited queue = Done (visited', queue') ->
  exists added,
    queue' = queue ++ added /\
    visited ⊆ visited' /\
    Forall (fun e => shortest_to P (fst e) (snd e) /\
                     length (snd e) = S (length cur_path)) added /\
    (forall v, v ∈ visited' -> v ∈ visited \/ exists p, In (v, p) added) /\
    (forall a v', In a moves -> do_action P cur a = Some v' -> v' ∈ visited').
Proof.
  intros Hcur. revert visited queue.
  induction moves as [|move rest IH]; intros visited queue Hmoves Hnear; simpl.
  - intros [= <- <-]. exists []. rewrite app_nil_r.
    repeat split; auto. intros a v' [].
  - destruct (do_action P cur move) as [s'|] eqn:Hdo; [| discriminate].
    assert (Hrest : forall a, In a rest -> In a (available_actions P cur))
      by (intros a Ha; apply Hmoves; now right).
    destruct (decide (s' ∈ visited)) as [Hin | Hnin]; intros Hrun.
    + destruct (IH visited queue Hrest Hnear Hrun)
        as (added & Hq & Hsub & Hadded & Hnew & Hsucc).
      exists added. repeat split; auto.
      intros a v' [<- | Ha] Hdo'; [| eauto].
      apply Hsub. congruence.
    + destruct (IH ({[s']} ∪ visited)
                  (queue ++ [(s', cur_path ++ [move])]) Hrest)
        as (added & Hq & Hsub & Hadded & Hnew & Hsucc); [| exact Hrun |].
      { intros t q Ht Hlen. apply elem_of_union. right. eauto. }
      exists ((s', cur_path ++ [move]) :: added).
      rewrite Hq, <- app_assoc. simpl.
      split; [reflexivity |]. split; [set_solver |]. split; [| split].
      * constructor; [| exact Hadded]. simpl. split.
        -- split.
           ++ eapply plan_to_snoc; eauto. apply Hmoves. now left.
           ++ intros q Hq'. rewrite length_app. simpl.
              destruct (le_lt_dec (length q) (length cur_path)) as [Hle | Hlt];
                [| lia].
              exfalso. apply Hnin. eauto.
        -- rewrite length_app. simpl. lia.
      * intros v Hv. destruct (Hnew v Hv) as [Hold | (p & Hp)].
        -- apply elem_of_union in Hold as [Heq | Hold]; [| now left].
           apply elem_of_singleton in Heq. subst v. right.
           exists (cur_path ++ [move]). now left.
        -- right. exists p. now right.
      * intros a v' [<- | Ha] Hdo'; [| eauto].
        apply Hsub. apply elem_of_union. left.
        apply elem_of_singleton. congruence.
Qed.

Lemma bfs_loop_opt fuel cur cur_path visited queue p g :
  bfs_opt_inv P cur cur_path visited queue ->
  bfs_loop P fuel cur cur_path visited queue = Done p ->
  run_plan P (initial_state P) p = Some g ->
  is_goal P g = true ->
  forall g' q, plan_to P g' q -> is_goal P g' = true ->
               length p <= length q.
Proof.
  revert cur cur_path visited queue.
  induction fuel as [|fuel IH]; intros cur cur_path visited queue Hinv; simpl;
    [discriminate |].
  destruct Hinv as (Hcur & (A & B & Hq & HA & HB) & Hshort & Hfront & Hnear).
  destruct (negb (is_goal P cur) && negb (bool_decide (queue = [])))
    eqn:Hcond.
  - (* one more iteration *)
    apply andb_true_iff in Hcond as [Hng Hne].
    apply negb_true_iff in Hng.
    apply negb_true_iff, bool_decide_eq_false in Hne.
    destruct (bfs_expand P cur cur_path (available_actions P cur) visited
                queue) as [[visited' queue'] | e | |] eqn:E; try discriminate.
    destruct (bfs_expand_opt _ _ _ _ _ _ _ (proj1 Hcur) (fun a Ha => Ha)
                Hnear E) as (added & -> & Hsub & Hadded & Hnew & Hsucc).
    assert (Hclosed : bfs_closed P visited' cur) by (split; assumption).
    assert (Hshort' : Forall (fun e => shortest_to P (fst e) (snd e))
                        (queue ++ added)).
    { apply Forall_app. split; [exact Hshort |].
      eapply Forall_impl; [exact Hadded |]. intros e [He _]. exact He. }
    assert (Hfront' : forall v, v ∈ visited' ->
              (exists p', In (v, p') (queue ++ added))
              \/ bfs_closed P visited' v).
    { intros v Hv. destruct (Hnew v Hv) as [Hold | (p' & Hp')].
      - destruct (Hfront v Hold) as [[-> | (p' & Hp')] | Hcl].
        + now right.
        + left. exists p'. apply in_or_app. now left.
        + right. eapply bfs_closed_mono; eauto.
      - left. exists p'. apply in_or_app. now right. }
    destruct queue as [|[s0 p0] queue0]; [contradiction |].
    simpl. apply IH. clear IH.
    apply Forall_cons in Hshort' as [Hs0 Hrest].
    assert (Hlen0 : length p0 = length cur_path
                    \/ (A = [] /\ length p0 = S (length cur_path))).
    { destruct A as [|a0 A0]; simpl in Hq.
      - right. split; [reflexivity |]. subst B.
        apply Forall_cons in HB as [HB _]. exact HB.
      - left. injection Hq as <- _. apply Forall_cons in HA as [HA _].
        exact HA. }
    split; [exact Hs0 |]. split; [| split; [exact Hrest | split]].
    + destruct A as [|a0 A0]; simpl in Hq.
      * subst B. apply Forall_cons in HB as [Hb0 HB0]. simpl in Hb0.
        exists (queue0 ++ added), []. rewrite app_nil_r.
        split; [reflexivity |]. split; [| constructor].
        apply Forall_app. split.
        -- eapply Forall_impl; [exact HB0 |]. simpl. intros e He. lia.
        -- eapply Forall_impl; [exact Hadded |]. simpl. intros e [_ He]. lia.
      * injection Hq as <- ->. apply Forall_cons in HA as [Ha0 HA0].
        simpl in Ha0.
        exists A0, (B ++ added). rewrite app_assoc.
        split; [reflexivity |]. split.
        -- eapply Forall_impl; [exact HA0 |]. simpl. intros e He. lia.
        -- apply Forall_app. split.
           ++ eapply Forall_impl; [exact HB |]. simpl. intros e He. lia.
           ++ eapply Forall_impl; [exact Hadded |]. simpl.
              intros e [_ He]. lia.
    + intros v Hv. destruct (Hfront' v Hv) as [(p' & Hp') | Hcl];
        [| now right].
      left. destruct Hp' as [[= <- <-] | Hp']; [now left |].
      right. eauto.
    + intros t q Ht Hlen.
      destruct (le_lt_dec (length q) (length cur_path)) as [Hle | Hlt];
        [apply Hsub; eauto |].
      destruct Hlen0 as [Heq | [-> Heq]]; [lia |].
      assert (Hq1 : length q = S (length cur_path)) by lia.
      destruct (exists_last (l := q)) as (q0 & a & ->);
        [intros ->; simpl in Hq1; lia |].
      rewrite length_app in Hq1. simpl in Hq1.
      destruct (plan_to_unsnoc t q0 a Ht) as (u & Hu & Ha & Hdo).
      assert (Huv : u ∈ visited') by (apply Hsub; apply (Hnear u q0 Hu); lia).
      destruct (Hfront' u Huv) as [(p' & Hp') | [_ Hcl]]; [| eauto].
      exfalso. simpl in Hq. subst B.
      assert (Hall : Forall (fun e => shortest_to P (fst e) (snd e) /\
                       length (snd e) = S (length cur_path))
                       ((s0, p0) :: queue0 ++ added)).
      { constructor; [split; [exact Hs0 | exact Heq] |].
        apply Forall_cons in HB as [_ HB0].
        apply Forall_cons in Hshort as [_ Hshort0].
        apply Forall_app. split; [| exact Hadded].
        apply Forall_forall. intros e He.
        rewrite Forall_forall in HB0, Hshort0. auto. }
      rewrite Forall_forall in Hall.
      destruct (Hall (u, p')) as [[_ Hmin] Hl];
        [apply list_elem_of_In; exact Hp' |].
      simpl in Hmin, Hl. specialize (Hmin q0 Hu). lia.
  - (* the loop ends: [cur_path] is returned *)
    intros [= <-] Hrun Hgoal g' q Hq' Hg'.
    assert (g = cur) as -> by (destruct Hcur as [[_ Hr] _]; congruence).
    destruct (le_lt_dec (length cur_path) (length q)) as [Hle | Hlt];
      [exact Hle |].
    exfalso.
    assert (Hv : g' ∈ visited) by (apply (Hnear g' q Hq'); lia).
    destruct (Hfront g' Hv) as [[-> | (p' & Hp')] | [Hng _]].
    + destruct Hcur as [_ Hmin]. specialize (Hmin q Hq'). lia.
    + rewrite Forall_forall in Hshort.
      destruct (Hshort (g', p')) as [_ Hmin];
        [apply list_elem_of_In; exact Hp' |].
      simpl in Hmin. specialize (Hmin q Hq').
      assert (Hlen : length cur_path <= length p').
      { subst queue. apply in_app_or in Hp' as [Hin | Hin].
        - rewrite Forall_forall in HA.
          specialize (HA (g', p') ltac:(apply list_elem_of_In; exact Hin)).
          simpl in HA. lia.
        - rewrite Forall_forall in HB.
          specialize (HB (g', p') ltac:(apply list_elem_of_In; exact Hin)).
          simpl in HB. lia. }
      lia.
    + congruence.
Qed.
End BFSOptimal.

(** X6. If the list [bfs] returns leads to a goal state, then it is a
    shortest plan: no plan of listed actions leads from the initial state
    to a goal in fewer steps. *)
Theorem bfs_goal_plan_is_shortest :
  forall (State Action : Type) `{Countable State}
         (P : Problem State Action) (fuel : nat) (p : list Action)
         (g : State),
    bfs P fuel = Done p ->
    run_plan P (initial_state P) p = Some g ->
    is_goal P g = true ->
    forall q, reaches_goal P (initial_state P) q -> length p <= length q.
Proof.
  intros State Action ? ? P fuel p g Hrun Hp Hg q [Hl (g' & Hq & Hg')].
  eapply (bfs_loop_opt P fuel (initial_state P) [] {[initial_state P]}
            [(initial_state P, [])] p g); eauto; [| split; eauto].
  assert (Hinit : shortest_to P (initial_state P) []).
  { split; [apply plan_to_nil | intros; simpl; lia]. }
  split; [exact Hinit |]. split; [| split; [| split]].
  - exists [(initial_state P, [])], []. repeat split; repeat constructor.
  - constructor; [exact Hinit | constructor].
  - intros v Hv. apply elem_of_singleton in Hv. left. now left.
  - intros t q0 [_ Ht] Hlen. destruct q0; simpl in *; [| lia].
    injection Ht as <-. now apply elem_of_singleton.
Qed.

Lemma bfs_goal_plan_witness :
  bfs VacuumProblem 20 = Done ["Suck"; "Right"; "Suck"] /\
  run_plan VacuumProblem (initial_state VacuumProblem)
    ["Suck"; "Right"; "Suck"] = Some (1%Z, [false; false]) /\
  is_goal VacuumProblem (1%Z, [false; false]) = true /\
  forall q, reaches_goal VacuumProblem (initial_state VacuumProblem) q ->
            length ["Suck"; "Right"; "Suck"] <= length q.
Proof.
  assert (H1 : bfs VacuumProblem 20 = Done ["Suck"; "Right"; "Suck"])
    by (vm_compute; reflexivity).
  assert (H2 : run_plan VacuumProblem (initial_state VacuumProblem)
                 ["Suck"; "Right"; "Suck"] = Some (1%Z, [false; false]))
    by reflexivity.
  assert (H3 : is_goal VacuumProblem (1%Z, [false; false]) = true)
    by reflexivity.
  split; [exact H1 |]. split; [exact H2 |]. split; [exact H3 |].
  exact (bfs_goal_plan_is_shortest (Z * list bool) string VacuumProblem 20
           ["Suck"; "Right"; "Suck"] (1%Z, [false; false]) H1 H2 H3).
Defined.

(** ** The vacuum world *)

Lemma sum_bools_nonneg l : (0 <= sum_bools l)%Z.
Proof. induction l as [|[] l IH]; simpl; lia. Qed.

Lemma sum_bools_clean l i :
  (sum_bools (<[i := false]> l) <= sum_bools l
   <= 1 + sum_bools (<[i := false]> l))%Z.
Proof.
  revert i. induction l as [|b l IH]; intros i; [simpl; lia |].
  destruct i as [|i]; simpl.
  - destruct b; lia.
  - specialize (IH i). destruct b; lia.
Qed.

Lemma sum_bools_no_dirt l : existsb id l = false -> sum_bools l = 0%Z.
Proof.
  induction l as [|b l IH]; simpl; [reflexivity |].
  destruct b; simpl; [discriminate |]. intros Hl. rewrite (IH Hl). lia.
Qed.

(** A consistent heuristic that is not positive on goals never
    overestimates the cost of a plan to a goal. *)
Lemma consistent_admissible {State Action : Type} (P : Problem State Action) :
  consistent P ->
  (forall s, is_goal P s = true -> (heuristic P s <= 0)%Z) ->
  admissible P.
Proof.
  intros Hcons Hgoal s plan. revert s.
  induction plan as [|a rest IH]; intros s [Hl (g & Hrun & Hg)]; simpl in *.
  - injection Hrun as <-. now apply Hgoal.
  - destruct Hl as [Ha Hrest].
    destruct (do_action P s a) as [s'|] eqn:Hdo; [| contradiction].
    specialize (Hcons s a s' Ha Hdo).
    assert (Hreach : reaches_goal P s' rest) by (split; eauto).
    specialize (IH s' Hreach). lia.
Qed.

Lemma vacuum_consistent : consistent VacuumProblem.
Proof.
  intros [robot dirty] a s' Hin Hdo. simpl in *.
  destruct Hin as [<- | [<- | [<- | []]]]; simpl in Hdo;
    injection Hdo as <-; simpl; try lia.
  pose proof (sum_bools_clean dirty (Z.to_nat robot)). lia.
Qed.

(** X7. The heuristic of lab2's [VacuumProblem], the number of dirty
    rooms, is never negative, is consistent with the unit action cost,
    and is admissible: it never exceeds the cost of a plan that reaches a
    goal. *)
Theorem vacuum_heuristic_consistent_admissible :
  nonneg_heuristic VacuumProblem /\
  consistent VacuumProblem /\
  admissible VacuumProblem.
Proof.
  split; [intros s; apply sum_bools_nonneg |].
  split; [exact vacuum_consistent |].
  apply consistent_admissible; [exact vacuum_consistent |].
  intros [robot dirty] Hg. simpl in *.
  apply negb_true_iff in Hg. rewrite (sum_bools_no_dirt _ Hg). lia.
Qed.

(** X8. In a well-formed state of the vacuum world (the robot stands in
    one of the rooms) each of the three listed actions succeeds and
    leads to a well-formed state with as many rooms; "Left" and "Right"
    leave the dirt as it is and move the robot by at most one room, and
    "Suck" cleans the robot's room and no other. *)
Theorem vacuum_actions_keep_state_well_formed :
  forall (robot : Z) (dirty : list bool) (a : string),
    vacuum_wf (robot, dirty) ->
    In a (available_actions VacuumProblem (robot, dirty)) ->
    exists robot' dirty',
      do_action VacuumProblem (robot, dirty) a = Some (robot', dirty') /\
      vacuum_wf (robot', dirty') /\
      length dirty' = length dirty /\
      (a <> "Suck" -> dirty' = dirty /\ (Z.abs (robot' - robot) <= 1)%Z) /\
      (a = "Suck" ->
         robot' = robot /\
         dirty' !! Z.to_nat robot = Some false /\
         forall i, i <> Z.to_nat robot -> dirty' !! i = dirty !! i).
Proof.
  intros robot dirty a Hwf Hin. unfold vacuum_wf in *. simpl in *.
  destruct Hin as [<- | [<- | [<- | []]]]; simpl.
  - exists (Z.max (robot - 1) 0), dirty.
    repeat split; simpl; try lia; congruence.
  - exists robot, (<[Z.to_nat robot := false]> dirty).
    rewrite length_insert.
    split; [reflexivity |]. split; [simpl; lia |]. split; [reflexivity |].
    split; [intros Hne; contradiction |].
    intros _. split; [reflexivity |]. split.
    + apply list_lookup_insert_eq. lia.
    + intros i Hi. apply list_lookup_insert_ne. auto.
  - exists (Z.min (robot + 1) (Z.of_nat (length dirty) - 1)), dirty.
    repeat split; simpl; try lia; congruence.
Qed.

Lemma vacuum_actions_witness :
  vacuum_wf (0%Z, [true; true]) /\
  In "Suck" (available_actions VacuumProblem (0%Z, [true; true])) /\
  exists robot' dirty',
    do_action VacuumProblem (0%Z, [true; true]) "Suck"
    = Some (robot', dirty') /\
    vacuum_wf (robot', dirty') /\
    length dirty' = length [true; true] /\
    ("Suck" <> "Suck" ->
       dirty' = [true; true] /\ (Z.abs (robot' - 0) <= 1)%Z) /\
    ("Suck" = "Suck" ->
       robot' = 0%Z /\
       dirty' !! Z.to_nat 0 = Some false /\
       forall i, i <> Z.to_nat 0 -> dirty' !! i = [true; true] !! i).
Proof.
  assert (H1 : vacuum_wf (0%Z, [true; true])) by (unfold vacuum_wf; simpl; lia).
  assert (H2 : In "Suck" (available_actions VacuumProblem (0%Z, [true; true])))
    by (simpl; tauto).
  split; [exact H1 |]. split; [exact H2 |].
  exact (vacuum_actions_keep_state_well_formed 0%Z [true; true] "Suck" H1 H2).
Defined.

(** ** The knowledge base: [add], sequences of [add], [copy] *)

(** X9. [k.add(p, c)] on a KB object of the heap appends the clause
    [(p, c)] at the end of [k.clauses], extends [k.symbols] by the atoms
    of [p] and by [c], and changes no other object of the heap. *)
Theorem KB_add_appends_clause :
  forall (h : heap) (k : KB) (v : KBv) (p : list atom) (c : atom),
    KB_read k h = Some (v, h) ->
    exists h',
      KB_add k p c h = Some (tt, h') /\
      KB_read k h'
      = Some ({| kb_clauses := kb_clauses v ++ [(p, c)];
                 kb_symbols := kb_symbols v ∪ list_to_set p ∪ {[c]} |}, h') /\
      (forall l, l <> clauses k -> l <> symbols k -> h' !! l = h !! l).
Proof.
  intros h k [cs ss] p c Hread.
  apply KB_read_inv in Hread as (_ & Hc & Hs). simpl in Hc, Hs.
  assert (Hne : clauses k <> symbols k)
    by (intros E; rewrite E in Hc; congruence).
  eexists. split; [| split].
  - unfold KB_add, bind, load_list, load_set, store. rewrite Hc. simpl.
    repeat (first [ rewrite lookup_insert_eq
                  | rewrite lookup_insert_ne by auto
                  | rewrite Hc | rewrite Hs ]; simpl).
    reflexivity.
  - apply KB_read_intro; simpl.
    + repeat (first [ rewrite lookup_insert_eq
                    | rewrite lookup_insert_ne by auto ]).
      reflexivity.
    + rewrite lookup_insert_eq. reflexivity.
  - intros l Hl1 Hl2. simpl.
    repeat (rewrite lookup_insert_ne by auto). reflexivity.
Qed.

Lemma KB_add_appends_witness :
  KB_read fact_KB fact_heap = Some (fact_KBv, fact_heap) /\
  exists h',
    KB_add fact_KB ["u"] "w" fact_heap = Some (tt, h') /\
    KB_read fact_KB h'
    = Some ({| kb_clauses := kb_clauses fact_KBv ++ [(["u"], "w")];
               kb_symbols := kb_symbols fact_KBv ∪ list_to_set ["u"]
                             ∪ {["w"]} |}, h') /\
    (forall l, l <> clauses fact_KB -> l <> symbols fact_KB ->
               h' !! l = fact_heap !! l).
Proof.
  assert (H1 : KB_read fact_KB fact_heap = Some (fact_KBv, fact_heap))
    by (vm_compute; reflexivity).
  split; [exact H1 |].
  exact (KB_add_appends_clause fact_heap fact_KB fact_KBv ["u"] "w" H1).
Defined.

Lemma clause_atoms_app cs1 cs2 :
  clause_atoms (cs1 ++ cs2) = clause_atoms cs1 ∪ clause_atoms cs2.
Proof.
  unfold clause_atoms. rewrite map_app.
  apply (union_list_app_L (C := gset atom)).
Qed.

Lemma clause_atoms_one p c :
  clause_atoms [(p, c)] = list_to_set p ∪ {[c]}.
Proof. unfold clause_atoms. simpl. set_solver. Qed.

Lemma KB_add_read (h : heap) (k : KB) (v : KBv) (p : list atom) (c : atom) :
  KB_read k h = Some (v, h) ->
  exists h',
    KB_add k p c h = Some (tt, h') /\
    KB_read k h'
    = Some ({| kb_clauses := kb_clauses v ++ [(p, c)];
               kb_symbols := kb_symbols v ∪ list_to_set p ∪ {[c]} |}, h').
Proof.
  destruct v as [cs ss]. intros Hread.
  apply KB_read_inv in Hread as (_ & Hc & Hs). simpl in Hc, Hs.
  assert (Hne : clauses k <> symbols k)
    by (intros E; rewrite E in Hc; congruence).
  eexists. split.
  - unfold KB_add, bind, load_list, load_set, store. rewrite Hc. simpl.
    repeat (first [ rewrite lookup_insert_eq
                  | rewrite lookup_insert_ne by auto
                  | rewrite Hc | rewrite Hs ]; simpl).
    reflexivity.
  - apply KB_read_intro; simpl.
    + repeat (first [ rewrite lookup_insert_eq
                    | rewrite lookup_insert_ne by auto ]).
      reflexivity.
    + rewrite lookup_insert_eq. reflexivity.
Qed.

Lemma KB_add_all_spec cs : forall (h : heap) (k : KB) (v : KBv),
  KB_read k h = Some (v, h) ->
  exists h',
    KB_add_all k cs h = Some (tt, h') /\
    KB_read k h'
    = Some ({| kb_clauses := kb_clauses v ++ cs;
               kb_symbols := kb_symbols v ∪ clause_atoms cs |}, h').
Proof.
  induction cs as [|[p c] rest IH]; intros h k v Hread.
  - exists h. split; [reflexivity |]. rewrite app_nil_r.
    unfold clause_atoms. simpl. rewrite union_empty_r_L.
    destruct v. exact Hread.
  - simpl. destruct (KB_add_read h k v p c Hread) as (h1 & Hadd & Hread1).
    destruct (IH h1 k _ Hread1) as (h' & Hall & Hread').
    exists h'. split.
    + unfold bind. rewrite Hadd. exact Hall.
    + rewrite Hread'. simpl. rewrite <- app_assoc. simpl.
      do 3 f_equal.
      change ((p, c) :: rest) with ([(p, c)] ++ rest).
      rewrite clause_atoms_app, clause_atoms_one. set_solver.
Qed.

Lemma kb_of_read cs :
  kb_clauses (kb_of cs) = cs /\ kb_symbols (kb_of cs) = clause_atoms cs.
Proof.
  assert (E : kb_of cs
              = {| kb_clauses := cs; kb_symbols := clause_atoms cs |}).
  { unfold kb_of.
    set (l1 := fresh (dom (∅ : heap))).
    set (h1 := <[l1 := PyList []]> (∅ : heap)).
    set (l2 := fresh (dom h1)).
    set (h2 := <[l2 := PySet ∅]> h1).
    set (k := {| clauses := l1; symbols := l2 |}).
    assert (Hl12 : l1 <> l2).
    { intros E. assert (Hin : l2 ∈ dom h1)
        by (rewrite <- E; apply elem_of_dom; unfold h1;
            rewrite lookup_insert_eq; eauto).
      revert Hin. apply is_fresh. }
    assert (Hread : KB_read k h2
                    = Some ({| kb_clauses := []; kb_symbols := ∅ |}, h2)).
    { apply KB_read_intro; unfold h2, h1; simpl.
      - rewrite lookup_insert_ne by auto. apply lookup_insert_eq.
      - apply lookup_insert_eq. }
    destruct (KB_add_all_spec cs h2 k _ Hread) as (h' & Hall & Hread').
    change ((k0 <~ KB_init ;; KB_add_all k0 cs ;;; KB_read k0) ∅)
      with (bind (KB_add_all k cs) (fun _ => KB_read k) h2).
    unfold bind at 1. rewrite Hall, Hread'. simpl.
    rewrite union_empty_l_L. reflexivity. }
  rewrite E. split; reflexivity.
Qed.

(** X10. A knowledge base built by [KB()] and a sequence of [add] calls
    holds the added clauses in the order of the calls, and its [symbols]
    is exactly the set of the atoms that occur in those clauses. *)
Theorem kb_of_adds_keeps_symbols_in_step :
  forall cs : list clause,
    kb_of cs = {| kb_clauses := cs; kb_symbols := clause_atoms cs |}.
Proof.
  intros cs. destruct (kb_of_read cs) as [Hc Hs].
  destruct (kb_of cs) as [c s]. simpl in Hc, Hs. subst c s. reflexivity.
Qed.

(** X11. [k.copy()] returns a KB object that reads the same clauses and
    the same symbols as [k], held in two objects that are new to the
    heap and different from each other; no object that existed before is
    changed. *)
Theorem KB_copy_reads_the_same :
  forall (h : heap) (k : KB) (v : KBv),
    KB_read k h = Some (v, h) ->
    exists k2 h',
      KB_copy k h = Some (k2, h') /\
      KB_read k2 h' = Some (v, h') /\
      KB_read k h' = Some (v, h') /\
      h !! clauses k2 = None /\ h !! symbols k2 = None /\
      clauses k2 <> symbols k2 /\
      (forall l, is_Some (h !! l) -> h' !! l = h !! l).
Proof.
  intros h k [cs ss] Hread.
  apply KB_read_inv in Hread as (_ & Hc & Hs). simpl in Hc, Hs.
  remember (fresh (dom h)) as l1 eqn:E1.
  remember (fresh (dom (<[l1 := PyList []]> h))) as l2 eqn:E2.
  assert (Hl1 : h !! l1 = None).
  { rewrite E1. apply not_elem_of_dom. apply is_fresh. }
  assert (Hl2 : <[l1 := PyList []]> h !! l2 = None).
  { rewrite E2. apply not_elem_of_dom. apply is_fresh. }
  assert (Hl12 : l1 <> l2).
  { intros E. rewrite <- E, lookup_insert_eq in Hl2. discriminate. }
  assert (Hl21 : l2 <> l1) by auto.
  assert (Hl2h : h !! l2 = None)
    by (rewrite lookup_insert_ne in Hl2 by auto; exact Hl2).
  assert (Hc1 : l1 <> clauses k) by (intros E; rewrite <- E in Hc; congruence).
  assert (Hs1 : l1 <> symbols k) by (intros E; rewrite <- E in Hs; congruence).
  assert (Hc2 : l2 <> clauses k) by (intros E; rewrite <- E in Hc; congruence).
  assert (Hs2 : l2 <> symbols k) by (intros E; rewrite <- E in Hs; congruence).
  exists {| clauses := l1; symbols := l2 |}. eexists.
  split; [| split; [| split; [| split; [| split; [| split]]]]].
  - unfold KB_copy, KB_init, bind, ret, alloc, load_list, load_set, store.
    rewrite <- E1. simpl. rewrite <- E2. simpl.
    repeat (first [ rewrite lookup_insert_eq
                  | rewrite lookup_insert_ne by auto
                  | rewrite Hc | rewrite Hs ]; simpl).
    reflexivity.
  - replace {| kb_clauses := cs; kb_symbols := ss |}
      with {| kb_clauses := [] ++ cs; kb_symbols := ∅ ∪ ss |}
      by (simpl; rewrite union_empty_l_L; reflexivity).
    apply KB_read_intro; simpl.
    + repeat (first [ rewrite lookup_insert_eq
                    | rewrite lookup_insert_ne by auto ]).
      reflexivity.
    + rewrite lookup_insert_eq. reflexivity.
  - apply KB_read_intro;
      repeat (rewrite lookup_insert_ne by auto); assumption.
  - exact Hl1.
  - exact Hl2h.
  - exact Hl12.
  - intros l [o Hl].
    assert (l1 <> l) by (intros E; rewrite <- E in Hl; congruence).
    assert (l2 <> l) by (intros E; rewrite <- E in Hl; congruence).
    repeat (rewrite lookup_insert_ne by auto). reflexivity.
Qed.

Lemma KB_copy_witness :
  KB_read fact_KB fact_heap = Some (fact_KBv, fact_heap) /\
  exists k2 h',
    KB_copy fact_KB fact_heap = Some (k2, h') /\
    KB_read k2 h' = Some (fact_KBv, h') /\
    KB_read fact_KB h' = Some (fact_KBv, h') /\
    fact_heap !! clauses k2 = None /\ fact_heap !! symbols k2 = None /\
    clauses k2 <> symbols k2 /\
    (forall l, is_Some (fact_heap !! l) -> h' !! l = fact_heap !! l).
Proof.
  assert (H1 : KB_read fact_KB fact_heap = Some (fact_KBv, fact_heap))
    by (vm_compute; reflexivity).
  split; [exact H1 |].
  exact (KB_copy_reads_the_same fact_heap fact_KB fact_KBv H1).
Defined.

(** ** The reasoners against the minimal model *)

Lemma dummy_loop_fact cs a : dummy_loop cs a = true <-> In ([], a) cs.
Proof.
  induction cs as [|[premise conclusion] rest IH]; simpl; [split; [discriminate | tauto] |].
  destruct (bool_decide (conclusion = a) && Nat.eqb (length premise) 0)
    eqn:Hc.
  - apply andb_true_iff in Hc as [Hc Hp].
    apply bool_decide_eq_true in Hc. apply Nat.eqb_eq in Hp.
    destruct premise; [| discriminate]. subst. split; auto.
  - rewrite IH. split; [auto |]. intros [[= -> ->] | Hin]; [| exact Hin].
    simpl in Hc. rewrite bool_decide_eq_true_2 in Hc by reflexivity.
    discriminate.
Qed.

Lemma entailed_fact cs a : In ([], a) cs -> entailed cs a.
Proof. intros Hin. apply (entailed_by cs [] a Hin). intros p []. Qed.

Lemma entailed_in_atoms cs a : entailed cs a -> a ∈ clause_atoms cs.
Proof.
  intros [premise conclusion Hin _]. unfold clause_atoms.
  apply elem_of_union_list.
  exists (list_to_set premise ∪ {[conclusion]}). split; [| set_solver].
  apply list_elem_of_In, in_map_iff. exists (premise, conclusion). auto.
Qed.

(** X12. On a knowledge base built by [add] calls, [DummyReasoner]
    answers [True] exactly for the atoms asserted by a clause with an
    empty premise, so each of its [True] answers is in the minimal model
    (it is sound); [SmartReasoner] answers [True] for every atom of the
    minimal model (it is complete). *)
Theorem baseline_reasoners_bracket_minimal_model :
  forall (cs : list clause) (a : atom),
    (DummyReasoner_query (kb_of cs) a = true <-> In ([], a) cs) /\
    (DummyReasoner_query (kb_of cs) a = true -> entailed cs a) /\
    (entailed cs a -> SmartReasoner_query (kb_of cs) a = true).
Proof.
  intros cs a. destruct (kb_of_read cs) as [Hc Hs].
  unfold DummyReasoner_query, SmartReasoner_query. rewrite Hc, Hs.
  split; [apply dummy_loop_fact |]. split.
  - intros Hd. apply entailed_fact, dummy_loop_fact, Hd.
  - intros He. apply bool_decide_eq_true, entailed_in_atoms, He.
Qed.

(** *** Backward chaining is sound *)

Lemma bc_init_true (kb : KBv) a :
  bc_init kb !! a = Some (Some true) -> In ([], a) (kb_clauses kb).
Proof.
  unfold bc_init.
  assert (Hgen : forall cs (m : gmap atom (option bool)),
            fold_left
              (fun m (c : clause) =>
                 if bool_decide (fst c = []) then <[snd c := Some true]> m
                 else m) cs m !! a = Some (Some true) ->
            m !! a = Some (Some true) \/ In ([], a) cs).
  { induction cs as [|[p c] rest IH]; intros m; simpl; [auto |].
    intros Hl. destruct (IH _ Hl) as [Hm | Hin]; [| auto].
    destruct (bool_decide (p = [])) eqn:Hp; [| auto].
    apply bool_decide_eq_true in Hp. subst p.
    destruct (decide (c = a)) as [-> | Hne]; [auto |].
    rewrite lookup_insert_ne in Hm by auto. auto. }
  intros Hl. destruct (Hgen _ _ Hl) as [Hm | Hin]; [| exact Hin].
  apply lookup_gset_to_gmap_Some in Hm as [_ Hm]. discriminate.
Qed.

Section BackwardSound.
Variable kb : KBv.
Variable f : nat.
Hypothesis IHf :
  forall s st st' b,
    memo_sound (kb_clauses kb) st ->
    recursive_query f kb s st = Done (st', b) ->
    memo_sound (kb_clauses kb) st' /\
    (b = true -> entailed (kb_clauses kb) s).

Lemma bc_premises_sound premises st st' b :
  memo_sound (kb_clauses kb) st ->
  bc_premises (recursive_query f kb) premises st = Done (st', b) ->
  memo_sound (kb_clauses kb) st' /\
  (b = true -> forall p, In p premises -> entailed (kb_clauses kb) p).
Proof.
  revert st. induction premises as [|p rest IH]; intros st Hst; simpl.
  - intros [= <- <-]. split; [exact Hst | intros _ q []].
  - destruct (decide (p ∈ to_check st));
      [intros [= <- <-]; split; [exact Hst | discriminate] |].
    destruct (recursive_query f kb p (bc_add p st)) as [[st1 b1] | e | |]
      eqn:Hrec; try discriminate.
    destruct (IHf p (bc_add p st) st1 b1) as [Hst1 Hp]; [exact Hst | exact Hrec |].
    destruct b1.
    + intros Hrest. destruct (IH st1 Hst1 Hrest) as [Hst' Hall].
      split; [exact Hst' |]. intros Hb q [<- | Hq]; auto.
    + intros [= <- <-]. split; [exact Hst1 | discriminate].
Qed.

Lemma bc_clauses_sound s cs st st' b :
  (forall c, In c cs -> In c (kb_clauses kb) /\ snd c = s) ->
  memo_sound (kb_clauses kb) st ->
  bc_clauses (recursive_query f kb) cs st = Done (st', b) ->
  memo_sound (kb_clauses kb) st' /\
  (b = true -> entailed (kb_clauses kb) s).
Proof.
  revert st. induction cs as [|c rest IH]; intros st Hcs Hst; simpl.
  - intros [= <- <-]. split; [exact Hst | discriminate].
  - destruct (bc_premises (recursive_query f kb) (fst c) st)
      as [[st1 b1] | e | |] eqn:Hprem; try discriminate.
    destruct (bc_premises_sound _ _ _ _ Hst Hprem) as [Hst1 Hall].
    destruct b1.
    + intros [= <- <-]. split; [exact Hst1 |]. intros _.
      destruct (Hcs c (or_introl eq_refl)) as [Hin <-].
      destruct c as [premise conclusion]. simpl in *.
      apply (entailed_by _ premise conclusion Hin). auto.
    + apply IH; [| exact Hst1]. intros c' Hc'. apply Hcs. now right.
Qed.
End BackwardSound.

Lemma recursive_query_sound (kb : KBv) fuel s st st' b :
  memo_sound (kb_clauses kb) st ->
  recursive_query fuel kb s st = Done (st', b) ->
  memo_sound (kb_clauses kb) st' /\
  (b = true -> entailed (kb_clauses kb) s).
Proof.
  revert s st st' b. induction fuel as [|f IH]; intros s st st' b Hst; simpl;
    [discriminate |].
  destruct (memo st s) as [b0|] eqn:Hmemo.
  - intros [= <- <-]. split; [exact Hst |]. intros ->. now apply Hst.
  - destruct (bc_clauses (recursive_query f kb)
                (filter (fun c : clause => snd c = s) (kb_clauses kb)) st)
      as [[st1 b1] | e | |] eqn:Hloop; try discriminate.
    intros [= <- <-].
    destruct (bc_clauses_sound kb f IH s
                (filter (fun c : clause => snd c = s) (kb_clauses kb))
                st st1 b1) as [Hst1 Hs];
      [| exact Hst | exact Hloop |].
    { intros c Hc. apply list_elem_of_In, list_elem_of_filter in Hc as [Hc Hin].
      split; [now apply list_elem_of_In | exact Hc]. }
    split; [| exact Hs].
    intros a Ha. unfold memo in Ha. simpl in Ha.
    destruct (decide (a = s)) as [-> | Hne].
    + rewrite lookup_insert_eq in Ha. injection Ha as ->. now apply Hs.
    + rewrite lookup_insert_ne in Ha by auto. apply Hst1. exact Ha.
Qed.

(** X13. Backward chaining is sound: when
    [BackwardChainingReasoner(kb).query(a)] answers [True], the atom [a]
    is in the minimal model of the clauses of [kb]. *)
Theorem backward_chaining_sound :
  forall (kb : KBv) (fuel : nat) (a : atom),
    BackwardChainingReasoner_query fuel kb a = Done true ->
    entailed (kb_clauses kb) a.
Proof.
  intros kb fuel a. unfold BackwardChainingReasoner_query, bc_query.
  assert (Hinit : forall tc,
            memo_sound (kb_clauses kb)
              {| bc_inferred := bc_init kb; to_check := tc |}).
  { intros tc x Hx. unfold memo in Hx. simpl in Hx.
    destruct (bc_init kb !! x) as [[[]|]|] eqn:E; try discriminate.
    apply entailed_fact, bc_init_true, E. }
  destruct (memo _ a) as [b|] eqn:Hmemo.
  - intros [= ->]. exact (Hinit _ a Hmemo).
  - destruct (decide (a ∈ kb_symbols kb)) as [Hin | Hnin]; [| discriminate].
    destruct (recursive_query fuel kb a _) as [[st' b] | ex | |] eqn:Hrec;
      try discriminate.
    intros [= ->].
    destruct (recursive_query_sound kb fuel a _ st' true (Hinit _) Hrec)
      as [_ Ha].
    now apply Ha.
Qed.

Lemma backward_chaining_sound_witness :
  BackwardChainingReasoner_query 20 toy_kb "q" = Done true /\
  entailed (kb_clauses toy_kb) "q".
Proof.
  assert (H1 : BackwardChainingReasoner_query 20 toy_kb "q" = Done true)
    by (vm_compute; reflexivity).
  split; [exact H1 |].
  exact (backward_chaining_sound toy_kb 20 "q" H1).
Defined.

(** ** Forward chaining *)

Lemma dict_set_in {K V : Type} `{EqDecision K} (k : K) (v : V) d k' v' :
  In (k', v') (dict_set k v d) ->
  (k' = k /\ v' = v) \/ In (k', v') d.
Proof.
  induction d as [|[k0 v0] d IH]; simpl.
  - intros [[= <- <-] | []]. auto.
  - destruct (decide (k0 = k)) as [-> | Hne]; simpl.
    + intros [[= <- <-] | Hin]; auto.
    + intros [[= <- <-] | Hin]; [auto |].
      destruct (IH Hin) as [? | ?]; auto.
Qed.

Lemma dict_set_keys {K V : Type} `{EqDecision K} (k : K) (v : V) d k' :
  In k' (map fst (dict_set k v d)) <-> k' = k \/ In k' (map fst d).
Proof.
  induction d as [|[k0 v0] d IH]; simpl.
  - split; [intros [<- | []]; auto | intros [-> | []]; auto].
  - destruct (decide (k0 = k)) as [-> | Hne]; simpl.
    + split; [intros [<- | Hin]; auto | intros [-> | [<- | Hin]]; auto].
    + rewrite IH. split.
      * intros [<- | [-> | Hin]]; auto.
      * intros [-> | [<- | Hin]]; auto.
Qed.

Lemma fc_count_entries cs cl n :
  In (cl, n) (fc_count cs) -> n = Z.of_nat (length (fst cl)).
Proof.
  unfold fc_count.
  assert (Hgen : forall cs (d : list (clause * Z)),
    (forall cl n, In (cl, n) d -> n = Z.of_nat (length (fst cl))) ->
    forall cl n,
      In (cl, n)
        (fold_left (fun d c => dict_set c (Z.of_nat (length (fst c))) d) cs d)
      -> n = Z.of_nat (length (fst cl))).
  { clear. induction cs as [|c rest IH]; intros d Hd; simpl; [exact Hd |].
    apply IH. intros cl n Hin.
    apply dict_set_in in Hin as [[-> ->] | Hin]; [reflexivity | eauto]. }
  apply Hgen. intros ? ? [].
Qed.

Lemma fc_count_keys cs cl : In cl (map fst (fc_count cs)) <-> In cl cs.
Proof.
  unfold fc_count.
  assert (Hgen : forall cs (d : list (clause * Z)),
    In cl (map fst
             (fold_left
                (fun d c => dict_set c (Z.of_nat (length (fst c))) d) cs d))
    <-> In cl (map fst d) \/ In cl cs).
  { clear. induction cs as [|c rest IH]; intros d; simpl; [tauto |].
    rewrite IH, dict_set_keys. split.
    - intros [[-> | Hin] | Hin]; auto.
    - intros [Hin | [-> | Hin]]; auto. }
  rewrite Hgen. simpl. tauto.
Qed.

Lemma fc_agenda_fact cs x : In x (fc_agenda cs) <-> In ([], x) cs.
Proof.
  unfold fc_agenda. rewrite in_map_iff. split.
  - intros ([p c] & <- & Hin). apply list_elem_of_In in Hin.
    apply list_elem_of_filter in Hin as [Hp Hin]. simpl in Hp. subst p.
    now apply list_elem_of_In.
  - intros Hin. exists ([], x). split; [reflexivity |].
    apply list_elem_of_In, list_elem_of_filter. split; [reflexivity |].
    now apply list_elem_of_In.
Qed.

Lemma last_pop_last {A : Type} (l l0 : list A) (x : A) :
  last l = Some x -> pop_last l = Some l0 -> l = l0 ++ [x].
Proof.
  destruct (decide_rel (fun (n m : nat) => n = m) (length l) 0) as [Hz | Hnz].
  - destruct l; [discriminate | discriminate].
  - destruct (exists_last (l := l)) as (l' & a & ->);
      [intros ->; simpl in Hnz; contradiction |].
    rewrite last_snoc, pop_last_snoc. intros [= ->] [= ->]. reflexivity.
Qed.

Lemma fc_dec_fst p e : fst (fc_dec p e) = fst e.
Proof. unfold fc_dec. destruct (decide (p ∈ fst (fst e))); reflexivity. Qed.

(** One pass of the [for clause in count] loop. *)
Lemma fc_scan_spec p count : forall was agenda count' was' agenda',
  fc_scan p count was agenda = (count', was', agenda') ->
  count' = map (fc_dec p) count /\
  exists new,
    agenda' = agenda ++ new /\
    was' = was ∪ list_to_set new /\
    NoDup new /\
    (forall x, In x new ->
       (x ∉ was) /\
       exists cl n, In (cl, n) count /\ p ∈ fst cl /\ (n - 1 = 0)%Z /\
                    snd cl = x) /\
    (forall cl n, In (cl, n) count -> p ∈ fst cl -> (n - 1 = 0)%Z ->
                  snd cl ∈ was').
Proof.
  induction count as [|[cl n] rest IH]; intros was agenda count' was' agenda';
    simpl.
  - intros [= <- <- <-]. split; [reflexivity |]. exists [].
    rewrite app_nil_r. split; [reflexivity |]. split; [set_solver |].
    split; [constructor |]. split; [intros x [] | intros cl n []].
  - unfold fc_dec at 1. simpl.
    destruct (decide (p ∈ fst cl)) as [Hp | Hnp].
    + destruct (bool_decide (n - 1 = 0)%Z && bool_decide (snd cl ∉ was))
        eqn:Hfire.
      * apply andb_true_iff in Hfire as [Hz Hw].
        apply bool_decide_eq_true in Hz. apply bool_decide_eq_true in Hw.
        destruct (fc_scan p rest ({[snd cl]} ∪ was) (agenda ++ [snd cl]))
          as [[r w] a] eqn:Hrec.
        intros [= <- <- <-].
        destruct (IH _ _ _ _ _ Hrec)
          as (-> & new & -> & -> & Hnd & Hnew & Hall).
        split; [reflexivity |]. exists (snd cl :: new).
        rewrite <- app_assoc. simpl.
        split; [reflexivity |]. split; [set_solver |]. split; [| split].
        -- constructor; [| exact Hnd]. intros Hin.
           apply list_elem_of_In in Hin.
           destruct (Hnew _ Hin) as [Hx _]. set_solver.
        -- intros x [<- | Hx].
           ++ split; [exact Hw |]. exists cl, n. auto.
           ++ destruct (Hnew x Hx) as [Hx1 (cl' & n' & Hin & Hr)].
              split; [set_solver |]. exists cl', n'.
              split; [now right | exact Hr].
        -- intros cl' n' [[= <- <-] | Hin] Hp' Hz'; [set_solver | eauto].
      * destruct (fc_scan p rest was agenda) as [[r w] a] eqn:Hrec.
        intros [= <- <- <-].
        destruct (IH _ _ _ _ _ Hrec)
          as (-> & new & -> & -> & Hnd & Hnew & Hall).
        split; [reflexivity |]. exists new.
        split; [reflexivity |]. split; [reflexivity |].
        split; [exact Hnd |]. split.
        -- intros x Hx. destruct (Hnew x Hx) as [Hx1 (cl' & n' & Hin & Hr)].
           split; [exact Hx1 |]. exists cl', n'. split; [now right | exact Hr].
        -- intros cl' n' [[= <- <-] | Hin] Hp' Hz'; [| eauto].
           apply andb_false_iff in Hfire as [Hf | Hf].
           ++ apply bool_decide_eq_false in Hf. contradiction.
           ++ apply bool_decide_eq_false in Hf.
              destruct (decide (snd cl ∈ was)); [set_solver | contradiction].
    + destruct (fc_scan p rest was agenda) as [[r w] a] eqn:Hrec.
      intros [= <- <- <-].
      destruct (IH _ _ _ _ _ Hrec)
        as (-> & new & -> & -> & Hnd & Hnew & Hall).
      split; [reflexivity |]. exists new.
      split; [reflexivity |]. split; [reflexivity |].
      split; [exact Hnd |]. split.
      * intros x Hx. destruct (Hnew x Hx) as [Hx1 (cl' & n' & Hin & Hr)].
        split; [exact Hx1 |]. exists cl', n'. split; [now right | exact Hr].
      * intros cl' n' [[= <- <-] | Hin] Hp' Hz'; [contradiction | eauto].
Qed.

Lemma size_remove_list {A : Type} `{Countable A} (X : gset A) (new : list A) :
  NoDup new -> (forall x, In x new -> x ∈ X) ->
  size (X ∖ list_to_set new) + length new = size X.
Proof.
  induction new as [|x l IH]; intros Hnd Hin; simpl.
  - rewrite difference_empty_L. lia.
  - apply NoDup_cons in Hnd as [Hx Hnd].
    rewrite <- (IH Hnd) by (intros y Hy; apply Hin; now right).
    rewrite <- (size_unvisited X x (list_to_set l));
      [lia | apply Hin; now left |].
    intros Hl. apply elem_of_list_to_set in Hl. contradiction.
Qed.

Lemma fc_dec_keys p count : map fst (map (fc_dec p) count) = map fst count.
Proof.
  rewrite map_map. apply map_ext. intros e. apply fc_dec_fst.
Qed.

Lemma fc_dec_entry p count cl n' :
  In (cl, n') (map (fc_dec p) count) ->
  exists n, In (cl, n) count /\
            ((p ∈ fst cl /\ n' = (n - 1)%Z) \/ ((p ∉ fst cl) /\ n' = n)).
Proof.
  intros Hin. apply in_map_iff in Hin as ([cl0 n0] & Heq & Hin).
  unfold fc_dec in Heq. simpl in Heq.
  destruct (decide (p ∈ fst cl0)); injection Heq as <- <-; eauto.
Qed.

Lemma fc_loop_returns cs fuel : forall count inferred was agenda,
  (forall cl n, In (cl, n) count -> In cl cs) ->
  length agenda + size (conclusions cs ∖ was) < fuel ->
  exists m, fc_loop fuel count inferred was agenda = Done m.
Proof.
  induction fuel as [|fuel IH]; intros count inferred was agenda Hkeys Hm;
    [lia |].
  simpl.
  destruct (last agenda) as [p|] eqn:Hlast; [| eauto].
  destruct (pop_last agenda) as [agenda0|] eqn:Hpop; [| eauto].
  pose proof (last_pop_last _ _ _ Hlast Hpop) as ->.
  destruct (fc_scan p count was agenda0) as [[count' was'] agenda'] eqn:Hscan.
  destruct (fc_scan_spec _ _ _ _ _ _ _ Hscan)
    as (-> & new & -> & -> & Hnd & Hnew & _).
  apply IH.
  - intros cl n Hin. apply fc_dec_entry in Hin as (n0 & Hin & _). eauto.
  - assert (Hsub : forall x, In x new -> x ∈ conclusions cs ∖ was).
    { intros x Hx. destruct (Hnew x Hx) as [Hw (cl & n & Hin & _ & _ & <-)].
      apply elem_of_difference. split; [| exact Hw].
      unfold conclusions. apply elem_of_list_to_set, list_elem_of_In.
      apply in_map. eauto. }
    pose proof (size_remove_list _ _ Hnd Hsub) as Hsz.
    replace (conclusions cs ∖ (was ∪ list_to_set new))
      with ((conclusions cs ∖ was) ∖ list_to_set new) by set_solver.
    rewrite !length_app in *. simpl in Hm. lia.
Qed.

Lemma fc_step_inv cs popped count inferred was agenda0 p count' was' agenda' :
  fc_inv cs popped count inferred was (agenda0 ++ [p]) ->
  fc_scan p count was agenda0 = (count', was', agenda') ->
  fc_inv cs (p :: popped) count' (<[p := true]> inferred) was' agenda' /\
  was ⊆ was'.
Proof.
  intros (Hkeys & Hcnt & Hwas & Hinf & Hsched & Hconc) Hscan.
  destruct (fc_scan_spec _ _ _ _ _ _ _ Hscan)
    as (-> & new & -> & -> & Hnd & Hnew & Hall).
  split; [| set_solver].
  split; [| split; [| split; [| split; [| split]]]].
  - intros cl. rewrite fc_dec_keys. apply Hkeys.
  - intros cl n' Hin. apply fc_dec_entry in Hin as (n & Hin & Hcase).
    rewrite (Hcnt cl n Hin) in Hcase. rewrite filter_cons.
    destruct Hcase as [[Hp ->] | [Hp ->]].
    + rewrite decide_True by exact Hp. simpl. lia.
    + rewrite decide_False by exact Hp. reflexivity.
  - rewrite Hwas. apply set_eq. intros x.
    rewrite elem_of_union, !elem_of_list_to_set.
    rewrite !list_elem_of_In. simpl. rewrite !in_app_iff. simpl. tauto.
  - intros a. destruct (decide (a = p)) as [-> | Hne].
    + rewrite lookup_insert_eq. simpl. split; auto.
    + rewrite lookup_insert_ne by auto. rewrite Hinf. simpl.
      split; [auto | intros [Heq | Hin]; [congruence | exact Hin]].
  - intros cl n' Hin Hle. apply fc_dec_entry in Hin as (n & Hin & Hcase).
    destruct Hcase as [[Hp ->] | [Hp ->]].
    + destruct (decide (n - 1 = 0)%Z) as [Hz | Hnz]; [eauto |].
      apply elem_of_union. left. apply (Hsched cl n Hin). lia.
    + apply elem_of_union. left. apply (Hsched cl n Hin). lia.
  - intros x Hx. simpl in Hx. rewrite in_app_iff in Hx.
    assert (Hcases : In x (popped ++ agenda0 ++ [p]) \/ In x new).
    { rewrite !in_app_iff in *. simpl. tauto. }
    destruct Hcases as [Hold | Hn]; [now apply Hconc |].
    destruct (Hnew x Hn) as [_ ([premise c] & n & Hin & _ & _ & Hc)].
    simpl in Hc. subst c. exists premise. apply Hkeys.
    apply in_map_iff. exists (premise, x, n). auto.
Qed.

Lemma fc_step_sound cs popped count inferred was agenda0 p count' was'
    agenda' :
  fc_inv cs popped count inferred was (agenda0 ++ [p]) ->
  fc_sound_inv cs popped (agenda0 ++ [p]) ->
  fc_scan p count was agenda0 = (count', was', agenda') ->
  fc_sound_inv cs (p :: popped) agenda'.
Proof.
  intros (Hkeys & Hcnt & Hwas & Hinf & Hsched & Hconc) [Hnd Hent] Hscan.
  destruct (fc_scan_spec _ _ _ _ _ _ _ Hscan)
    as (-> & new & -> & -> & Hndnew & Hnew & Hall).
  assert (Hnd1 : NoDup (p :: popped ++ agenda0)).
  { apply NoDup_ListNoDup.
    eapply Permutation_NoDup; [| apply NoDup_ListNoDup; exact Hnd].
    rewrite app_assoc. apply Permutation_sym, Permutation_cons_append. }
  assert (Hold : forall x, In x (p :: popped ++ agenda0) -> entailed cs x).
  { intros x Hx. apply Hent. simpl in Hx. rewrite !in_app_iff in *. simpl.
    tauto. }
  split.
  - change ((p :: popped) ++ agenda0 ++ new)
      with (p :: popped ++ agenda0 ++ new).
    rewrite app_assoc, app_comm_cons.
    apply NoDup_app. split; [exact Hnd1 |]. split; [| exact Hndnew].
    intros x Hx Hxn. apply list_elem_of_In in Hx, Hxn.
    destruct (Hnew x Hxn) as [Hw _]. apply Hw. rewrite Hwas.
    apply elem_of_list_to_set, list_elem_of_In.
    simpl in Hx. rewrite !in_app_iff in *. simpl. tauto.
  - intros x Hx.
    assert (Hcases : In x (p :: popped ++ agenda0) \/ In x new).
    { simpl in Hx. rewrite !in_app_iff in Hx. simpl.
      rewrite in_app_iff. tauto. }
    destruct Hcases as [Hx1 | Hn]; [now apply Hold |].
    destruct (Hnew x Hn) as [_ ([premise c] & n & Hin & Hp & Hz & Hc)].
    simpl in Hc, Hp. subst c.
    assert (Hcl : In (premise, x) cs).
    { apply Hkeys. apply in_map_iff. exists (premise, x, n). auto. }
    apply (entailed_by cs premise x Hcl). intros q Hq.
    pose proof (Hcnt _ _ Hin) as Hn0. simpl in Hn0.
    assert (HndL : NoDup (filter (fun q => q ∈ premise) (p :: popped))).
    { apply NoDup_filter. apply NoDup_cons in Hnd1 as [Hp1 Hnd2].
      apply NoDup_app in Hnd2 as (Hnd2 & _ & _).
      apply NoDup_cons. split; [| exact Hnd2].
      intros Hin'. apply Hp1. apply elem_of_app. now left. }
    assert (Hincl : incl (filter (fun q => q ∈ premise) (p :: popped))
                      premise).
    { intros y Hy. apply list_elem_of_In in Hy.
      apply list_elem_of_filter in Hy as [Hy _]. now apply list_elem_of_In. }
    assert (Hlen : length premise
                   <= length (filter (fun q => q ∈ premise) (p :: popped))).
    { rewrite filter_cons, decide_True by exact Hp. simpl. lia. }
    apply NoDup_ListNoDup in HndL.
    pose proof (NoDup_length_incl HndL Hlen Hincl q Hq) as HqL.
    apply list_elem_of_In, list_elem_of_filter in HqL as [_ HqL].
    apply Hold. apply list_elem_of_In in HqL. simpl in *.
    rewrite in_app_iff. tauto.
Qed.

Lemma fc_loop_inv cs fuel : forall popped count inferred was agenda m,
  fc_inv cs popped count inferred was agenda ->
  (NoDup (fc_agenda cs) -> fc_sound_inv cs popped agenda) ->
  fc_loop fuel count inferred was agenda = Done m ->
  exists popped' count' was',
    fc_inv cs popped' count' m was' [] /\
    was ⊆ was' /\
    (NoDup (fc_agenda cs) -> fc_sound_inv cs popped' []).
Proof.
  induction fuel as [|fuel IH];
    intros popped count inferred was agenda m Hinv Hsound; simpl;
    [discriminate |].
  destruct (last agenda) as [p|] eqn:Hlast.
  - destruct (pop_last agenda) as [agenda0|] eqn:Hpop.
    + pose proof (last_pop_last _ _ _ Hlast Hpop) as ->.
      destruct (fc_scan p count was agenda0) as [[count' was'] agenda']
        eqn:Hscan.
      destruct (fc_step_inv _ _ _ _ _ _ _ _ _ _ Hinv Hscan) as [Hinv' Hsub].
      intros Hrun.
      destruct (IH _ _ _ _ _ _ Hinv'
                  (fun Hf => fc_step_sound _ _ _ _ _ _ _ _ _ _ Hinv
                               (Hsound Hf) Hscan) Hrun)
        as (popped' & count'' & was'' & Hfin & Hsub' & Hs').
      exists popped', count'', was''. split; [exact Hfin |].
      split; [set_solver | exact Hs'].
    + destruct agenda; discriminate.
  - apply last_None in Hlast. subst agenda. intros [= <-].
    exists popped, count, was. split; [exact Hinv |]. split; [reflexivity |].
    exact Hsound.
Qed.

Lemma fc_inv_init (kb : KBv) :
  fc_inv (kb_clauses kb) [] (fc_count (kb_clauses kb))
    (gset_to_gmap false (kb_symbols kb))
    (list_to_set (fc_agenda (kb_clauses kb)))
    (fc_agenda (kb_clauses kb)).
Proof.
  split; [| split; [| split; [| split; [| split]]]].
  - apply fc_count_keys.
  - intros cl n Hin. rewrite (fc_count_entries _ _ _ Hin). simpl. lia.
  - reflexivity.
  - intros a. split; [| intros []].
    intros Hl. apply lookup_gset_to_gmap_Some in Hl as [_ Hl]. discriminate.
  - intros [premise c] n Hin Hle.
    pose proof (fc_count_entries _ _ _ Hin) as Hn. simpl in *.
    assert (premise = []) as -> by (destruct premise; [auto | simpl in *; lia]).
    apply elem_of_list_to_set, list_elem_of_In, fc_agenda_fact.
    apply fc_count_keys. apply in_map_iff. exists ([], c, n). auto.
  - intros x Hx. simpl in Hx. exists []. now apply fc_agenda_fact.
Qed.

Lemma fc_sound_init cs :
  NoDup (fc_agenda cs) -> fc_sound_inv cs [] (fc_agenda cs).
Proof.
  intros Hnd. split; [exact Hnd |]. simpl.
  intros x Hx. apply entailed_fact, fc_agenda_fact, Hx.
Qed.

(** What [_infer] leaves in [inferred], for a run that returns. *)
Lemma fc_infer_final (kb : KBv) fuel m :
  fc_infer fuel kb = Done m ->
  exists popped count was,
    fc_inv (kb_clauses kb) popped count m was [] /\
    list_to_set (fc_agenda (kb_clauses kb)) ⊆ was /\
    (NoDup (fc_agenda (kb_clauses kb)) ->
     fc_sound_inv (kb_clauses kb) popped []).
Proof.
  intros Hrun.
  apply (fc_loop_inv (kb_clauses kb) fuel [] _ _ _ _ m (fc_inv_init kb)
           (fc_sound_init (kb_clauses kb)) Hrun).
Qed.

Lemma fc_infer_returns (kb : KBv) extra :
  exists m,
    fc_infer (length (fc_agenda (kb_clauses kb))
              + size (conclusions (kb_clauses kb)) + 1 + extra) kb = Done m.
Proof.
  apply (fc_loop_returns (kb_clauses kb)).
  - intros cl n Hin. apply fc_count_keys, in_map_iff. exists (cl, n). auto.
  - assert (Hle : size (conclusions (kb_clauses kb)
                        ∖ list_to_set (fc_agenda (kb_clauses kb)))
                  <= size (conclusions (kb_clauses kb)))
      by (apply subseteq_size; set_solver).
    lia.
Qed.

(** X14. The constructor of [ForwardChainingReasoner] returns for every
    knowledge base: the [while agenda] loop runs at most once per
    asserted fact and once per conclusion. In the result every atom
    asserted by a clause with an empty premise is inferred, and every
    inferred atom is the conclusion of some clause. *)
Theorem forward_chaining_returns :
  forall (kb : KBv) (extra : nat),
    exists m,
      fc_infer (length (fc_agenda (kb_clauses kb))
                + size (conclusions (kb_clauses kb)) + 1 + extra) kb
      = Done m /\
      (forall a, In ([], a) (kb_clauses kb) -> m !! a = Some true) /\
      (forall a, m !! a = Some true ->
                 exists premise, In (premise, a) (kb_clauses kb)).
Proof.
  intros kb extra. destruct (fc_infer_returns kb extra) as (m & Hrun).
  exists m. split; [exact Hrun |].
  destruct (fc_infer_final kb _ m Hrun)
    as (popped & count & was & Hinv & Hsub & _).
  destruct Hinv as (_ & _ & Hwas & Hinf & _ & Hconc).
  rewrite app_nil_r in Hwas, Hconc. split.
  - intros a Ha. apply Hinf.
    assert (Hin : a ∈ was).
    { apply Hsub, elem_of_list_to_set, list_elem_of_In, fc_agenda_fact, Ha. }
    rewrite Hwas in Hin. apply elem_of_list_to_set in Hin.
    now apply list_elem_of_In.
  - intros a Ha. apply Hconc, Hinf, Ha.
Qed.

(** X15. Forward chaining is sound on a knowledge base in which no fact
    is asserted twice: an atom that [ForwardChainingReasoner(kb).query]
    answers [True] for is in the minimal model. *)
Theorem forward_chaining_sound :
  forall (kb : KBv) (fuel : nat) (a : atom),
    NoDup (fc_agenda (kb_clauses kb)) ->
    ForwardChainingReasoner_query fuel kb a = Done true ->
    entailed (kb_clauses kb) a.
Proof.
  intros kb fuel a Hnd. unfold ForwardChainingReasoner_query.
  destruct (fc_infer fuel kb) as [m | e | |] eqn:Hrun; try discriminate.
  intros [= Hq]. apply bool_decide_eq_true in Hq.
  destruct (fc_infer_final kb fuel m Hrun)
    as (popped & count & was & Hinv & _ & Hsound).
  destruct Hinv as (_ & _ & _ & Hinf & _ & _).
  destruct (Hsound Hnd) as [_ Hent]. apply Hent.
  rewrite app_nil_r. apply Hinf, Hq.
Qed.

Lemma toy_kb_clauses :
  kb_clauses toy_kb =
  [(["p"], "q"); (["l"; "m"], "p"); (["b"; "l"], "m");
   (["a"; "p"], "l"); (["a"; "b"], "l"); (["x"], "w");
   ([], "a"); ([], "b")].
Proof. vm_compute. reflexivity. Qed.

Lemma toy_kb_facts_distinct : NoDup (fc_agenda (kb_clauses toy_kb)).
Proof.
  rewrite toy_kb_clauses.
  change (NoDup ["a"; "b"]).
  apply NoDup_cons. split; [| apply NoDup_singleton].
  intros Hin. apply list_elem_of_singleton in Hin. discriminate.
Qed.

Lemma forward_chaining_sound_witness :
  NoDup (fc_agenda (kb_clauses toy_kb)) /\
  ForwardChainingReasoner_query 20 toy_kb "q" = Done true /\
  entailed (kb_clauses toy_kb) "q".
Proof.
  assert (H2 : ForwardChainingReasoner_query 20 toy_kb "q" = Done true)
    by (vm_compute; reflexivity).
  split; [exact toy_kb_facts_distinct |]. split; [exact H2 |].
  exact (forward_chaining_sound toy_kb 20 "q" toy_kb_facts_distinct H2).
Defined.

(** X16. Forward chaining is complete on a knowledge base in which no
    premise lists an atom twice: for every atom of the minimal model
    [ForwardChainingReasoner(kb).query] answers [True]. *)
Theorem forward_chaining_complete :
  forall (kb : KBv) (extra : nat) (a : atom),
    (forall premise c, In (premise, c) (kb_clauses kb) -> NoDup premise) ->
    entailed (kb_clauses kb) a ->
    ForwardChainingReasoner_query
      (length (fc_agenda (kb_clauses kb))
       + size (conclusions (kb_clauses kb)) + 1 + extra) kb a
    = Done true.
Proof.
  intros kb extra a Hprem Hent. unfold ForwardChainingReasoner_query.
  destruct (fc_infer_returns kb extra) as (m & Hrun). rewrite Hrun.
  f_equal. apply bool_decide_eq_true.
  destruct (fc_infer_final kb _ m Hrun)
    as (popped & count & was & Hinv & _ & _).
  destruct Hinv as (Hkeys & Hcnt & Hwas & Hinf & Hsched & _).
  rewrite app_nil_r in Hwas.
  induction Hent as [premise conclusion Hin _ IH].
  apply Hinf.
  assert (Hkey : In (premise, conclusion) (map fst count))
    by (apply Hkeys; exact Hin).
  apply in_map_iff in Hkey as ([cl n] & Hcl & Hentry). simpl in Hcl. subst cl.
  assert (Hle : (n <= 0)%Z).
  { rewrite (Hcnt _ _ Hentry). simpl.
    assert (Hsubm : premise ⊆+ filter (fun p => p ∈ premise) popped).
    { apply NoDup_submseteq; [eapply Hprem; eauto |].
      intros q Hq. apply list_elem_of_filter. split; [exact Hq |].
      apply list_elem_of_In, Hinf, IH. now apply list_elem_of_In. }
    apply submseteq_length in Hsubm. lia. }
  pose proof (Hsched _ _ Hentry Hle) as Hw. simpl in Hw.
  rewrite Hwas in Hw. apply elem_of_list_to_set in Hw.
  now apply list_elem_of_In.
Qed.

Lemma toy_kb_premises_distinct :
  forall premise c, In (premise, c) (kb_clauses toy_kb) -> NoDup premise.
Proof.
  rewrite toy_kb_clauses. intros premise c Hin. simpl in Hin.
  repeat (destruct Hin as [[= <- <-] | Hin];
          [repeat (apply NoDup_cons; split;
                   [intros Hx; repeat (apply elem_of_cons in Hx as [Hx | Hx];
                                       [discriminate |]);
                    inversion Hx |]);
           apply NoDup_nil; exact I |]).
  contradiction.
Qed.

Lemma forward_chaining_complete_witness :
  (forall premise c, In (premise, c) (kb_clauses toy_kb) -> NoDup premise) /\
  entailed (kb_clauses toy_kb) "a" /\
  ForwardChainingReasoner_query
    (length (fc_agenda (kb_clauses toy_kb))
     + size (conclusions (kb_clauses toy_kb)) + 1 + 0) toy_kb "a"
  = Done true.
Proof.
  assert (H2 : entailed (kb_clauses toy_kb) "a").
  { apply entailed_fact. rewrite toy_kb_clauses. simpl. tauto. }
  split; [exact toy_kb_premises_distinct |]. split; [exact H2 |].
  exact (forward_chaining_complete toy_kb 0 "a" toy_kb_premises_distinct H2).
Defined.

(** The two preconditions are needed. With the fact [a] asserted twice,
    [a] is popped twice and the counter of [a /\ b -> c] reaches zero
    although [b] is not known: [c] is answered [True]. With [a] listed
    twice in the premise of [a /\ a -> b], the counter starts at 2 and is
    decremented once: [b] is answered [False]. *)
Example forward_chaining_needs_its_preconditions :
  ForwardChainingReasoner_query 10 twice_asserted_kb "c" = Done true /\
  ForwardChainingReasoner_query 10 repeated_premise_kb "b" = Done false.
Proof. split; vm_compute; reflexivity. Qed.


(** * lab3: local search *)

(** ** Hill climbing *)

Lemma Forall2_In_l {A B : Type} (P : A -> B -> Prop) (l : list A) (k : list B) :
  Forall2 P l k -> forall a, In a l -> exists b, In b k /\ P a b.
Proof.
  induction 1 as [| x y l k Hxy _ IH]; intros a Ha; [contradiction |].
  destruct Ha as [<- | Ha].
  - exists y. split; [now left | exact Hxy].
  - destruct (IH a Ha) as (b & Hb & Hab). exists b. split; [now right | exact Hab].
Qed.

Lemma Forall2_In_r {A B : Type} (P : A -> B -> Prop) (l : list A) (k : list B) :
  Forall2 P l k -> forall b, In b k -> exists a, In a l /\ P a b.
Proof.
  induction 1 as [| x y l k Hxy _ IH]; intros b Hb; [contradiction |].
  destruct Hb as [<- | Hb].
  - exists x. split; [now left | exact Hxy].
  - destruct (IH b Hb) as (a & Ha & Hab). exists a. split; [now right | exact Hab].
Qed.

Section HillClimbingFacts.
Context {State Action : Type}.
Variable L : LocalProblem State Action.

Lemma hc_adjacent_spec (s : State) :
  forall actions acc nodes,
    hc_adjacent L s actions acc = Some nodes ->
    exists new,
      nodes = acc ++ new /\
      Forall2 (fun a node => lp_do_action L s a = Some (snd node) /\
                             lp_cost L (snd node) = Some (fst node))
              actions new.
Proof.
  induction actions as [| a rest IH]; intros acc nodes H; simpl in H.
  - injection H as <-. exists []. rewrite app_nil_r. split; [easy | constructor].
  - destruct (lp_do_action L s a) as [s' |] eqn:Hdo; [| discriminate].
    destruct (lp_cost L s') as [c' |] eqn:Hc; [| discriminate].
    apply IH in H as (new & -> & Hall).
    exists ((c', s') :: new). rewrite <- app_assoc. split; [easy |].
    constructor; [simpl; easy | exact Hall].
Qed.

Lemma hc_adjacent_returns (inv : State -> Prop) (lb : Z) (s : State) :
  lp_closed L inv -> lp_bounded L inv lb -> inv s ->
  forall actions acc,
    (forall a, In a actions -> In a (lp_available_actions L s)) ->
    exists nodes, hc_adjacent L s actions acc = Some nodes.
Proof.
  intros Hclosed Hbound Hs.
  induction actions as [| a rest IH]; intros acc Hsub; simpl.
  - eauto.
  - destruct (Hclosed s a Hs (Hsub a (or_introl eq_refl)))
      as (s' & -> & Hs').
    destruct (Hbound s' Hs') as (c' & -> & _).
    apply IH. intros b Hb. apply Hsub. now right.
Qed.

Lemma node_min_le (y first : Z * State) :
  let best := if node_ltb L y first then y else first in
  (fst best <= fst first)%Z /\ (fst best <= fst y)%Z /\
  (best = first \/ best = y).
Proof.
  unfold node_ltb.
  destruct (Z.eqb_spec (fst y) (fst first)) as [E | E].
  - destruct (lp_state_ltb L (snd y) (snd first)); simpl;
      (split; [lia |]; split; [lia | tauto]).
  - destruct (Z.ltb_spec (fst y) (fst first)); simpl;
      (split; [lia |]; split; [lia | tauto]).
Qed.

Lemma py_min_spec (rest : list (Z * State)) :
  forall first,
    In (py_min L first rest) (first :: rest) /\
    forall x, In x (first :: rest) -> (fst (py_min L first rest) <= fst x)%Z.
Proof.
  unfold py_min.
  induction rest as [| y rest IH]; intros first; simpl.
  - split; [now left |]. intros x [<- | []]. lia.
  - destruct (node_min_le y first) as (H1 & H2 & H3).
    destruct (IH (if node_ltb L y first then y else first)) as [Hin Hle].
    split.
    + destruct Hin as [Hin | Hin].
      * rewrite <- Hin. destruct H3 as [-> | ->]; [now left | right; now left].
      * right; now right.
    + intros x [<- | [<- | Hx]].
      * pose proof (Hle _ (or_introl eq_refl)). lia.
      * pose proof (Hle _ (or_introl eq_refl)). lia.
      * apply Hle. now right.
Qed.

(** One turn of the loop keeps [hc_inv]. *)
Lemma hc_step_inv (inv : State -> Prop) (c0 : Z)
    (curr : State) (cc : Z) (prev : option State) (pc : option Z) :
  lp_preserved L inv ->
  hc_inv L inv c0 curr cc prev pc ->
  below cc pc = true ->
  forall nodes,
    hc_adjacent L curr (lp_available_actions L curr) [] = Some nodes ->
    match nodes with
    | [] => hc_inv L inv c0 curr cc (Some curr) (Some cc)
    | node :: rest =>
        hc_inv L inv c0 (snd (py_min L node rest)) (fst (py_min L node rest))
               (Some curr) (Some cc)
    end.
Proof.
  intros Hpres (Hcost & Hinv & Hprev) Hb nodes Hadj.
  assert (Hcc : (cc <= c0)%Z).
  { destruct prev as [p |], pc as [q |]; try contradiction.
    - destruct Hprev as (_ & _ & Hle & _). simpl in Hb.
      apply Z.ltb_lt in Hb. lia.
    - exact Hprev. }
  apply hc_adjacent_spec in Hadj as (new & Hnew & Hall).
  simpl in Hnew. subst new.
  destruct nodes as [| node rest].
  - inversion Hall as [Hact |].
    split; [exact Hcost |]. split; [exact Hinv |].
    split; [exact Hinv |]. split; [exact Hcost |]. split; [exact Hcc |].
    intros a s' Ha. rewrite <- Hact in Ha. contradiction.
  - destruct (py_min_spec rest node) as [Hin Hmin].
    destruct (Forall2_In_r _ _ _ Hall _ Hin) as (a & Ha & Hdo & Hc).
    split; [exact Hc |]. split; [exact (Hpres _ _ _ Hinv Ha Hdo) |].
    split; [exact Hinv |]. split; [exact Hcost |]. split; [exact Hcc |].
    intros b s' Hb' Hdo'.
    destruct (Forall2_In_l _ _ _ Hall _ Hb') as (x & Hx & Hdx & Hcx).
    exists (fst x). rewrite Hdo' in Hdx. injection Hdx as ->.
    split; [exact Hcx |]. apply Hmin, Hx.
Qed.

Lemma hc_loop_spec (inv : State -> Prop) (c0 : Z) :
  lp_preserved L inv ->
  forall fuel curr_state curr_cost prev_state prev_cost r,
    hc_inv L inv c0 curr_state curr_cost prev_state prev_cost ->
    hc_loop L fuel curr_state curr_cost prev_state prev_cost = Done r ->
    exists s c, r = Some s /\ inv s /\ (c <= c0)%Z /\ local_minimum L s c.
Proof.
  intros Hpres.
  assert (Hexit : forall curr cc prev pc r,
             hc_inv L inv c0 curr cc prev pc -> below cc pc = false ->
             Done prev = Done r ->
             exists s c, r = Some s /\ inv s /\ (c <= c0)%Z /\
                         local_minimum L s c).
  { intros curr cc prev pc r (Hcost & Hinv & Hprev) Hb [= <-].
    destruct prev as [p |], pc as [q |]; try contradiction;
      [| simpl in Hb; discriminate].
    destruct Hprev as (Hp & Hq & Hle & Hnb). simpl in Hb.
    apply Z.ltb_ge in Hb.
    exists p, q. split; [easy |]. split; [easy |]. split; [easy |].
    split; [easy |]. intros a s' Ha Hdo.
    destruct (Hnb a s' Ha Hdo) as (c' & Hc' & Hle').
    exists c'. split; [easy | lia]. }
  induction fuel as [| fuel IH];
    intros curr cc prev pc r HI Hrun; simpl in Hrun.
  - destruct (below cc pc) eqn:Hb; [discriminate |]. eauto.
  - destruct (below cc pc) eqn:Hb; [| eauto].
    destruct (hc_adjacent L curr (lp_available_actions L curr) [])
      as [nodes |] eqn:Hadj; [| discriminate].
    pose proof (hc_step_inv inv c0 curr cc prev pc Hpres HI Hb nodes Hadj)
      as Hstep.
    destruct nodes as [| node rest]; eapply IH; eauto.
Qed.

Lemma hc_loop_returns (inv : State -> Prop) (lb : Z) :
  lp_closed L inv -> lp_bounded L inv lb ->
  forall fuel curr_state curr_cost prev_state prev_cost,
    inv curr_state -> lp_cost L curr_state = Some curr_cost ->
    match prev_cost with
    | None => Z.to_nat (curr_cost - lb) + 1
    | Some q => Z.to_nat (q - lb)
    end <= fuel ->
    exists r, hc_loop L fuel curr_state curr_cost prev_state prev_cost
              = Done r.
Proof.
  intros Hclosed Hbound.
  induction fuel as [| fuel IH]; intros curr cc prev pc Hinv Hcost Hfuel;
    simpl; destruct (below cc pc) eqn:Hb; eauto;
    destruct (Hbound curr Hinv) as (c & Hc & Hlb);
    rewrite Hcost in Hc; injection Hc as <-.
  - destruct pc as [q |]; simpl in Hb; [apply Z.ltb_lt in Hb |]; lia.
  - destruct (hc_adjacent_returns inv lb curr Hclosed Hbound Hinv
                (lp_available_actions L curr) [] (fun a H => H))
      as (nodes & Hadj).
    rewrite Hadj.
    assert (Hnext : Z.to_nat (cc - lb) <= fuel).
    { destruct pc as [q |]; simpl in Hb; [apply Z.ltb_lt in Hb |]; lia. }
    destruct nodes as [| node rest].
    + apply IH; assumption.
    + cbv zeta.
      apply hc_adjacent_spec in Hadj as (new & Hnew & Hall).
      simpl in Hnew. subst new.
      destruct (py_min_spec rest node) as [Hin _].
      destruct (Forall2_In_r _ _ _ Hall _ Hin) as (a & Ha & Hdo & Hcb).
      apply IH; [| exact Hcb | exact Hnext].
      destruct (Hclosed curr a Hinv Ha) as (s' & Hs' & Hinv').
      rewrite Hdo in Hs'. injection Hs' as <-. exact Hinv'.
Qed.

Lemma lp_closed_preserved (inv : State -> Prop) :
  lp_closed L inv -> lp_preserved L inv.
Proof.
  intros Hclosed s a s' Hs Ha Hdo.
  destruct (Hclosed s a Hs Ha) as (t & Ht & Hinv).
  rewrite Hdo in Ht. injection Ht as <-. exact Hinv.
Qed.

(** X17. For a problem whose cost function returns integers: whatever
    [hill_climbing] returns is a state, never the initial [[]] of
    [prev_state] (an integer is below [math.inf], so the loop runs at
    least once); that state is a local minimum (no listed action leads to
    a cheaper state), it costs no more than the start, and it satisfies
    every property of the start that the listed actions keep. *)
Theorem hill_climbing_returns_local_minimum :
  forall (inv : State -> Prop) (fuel : nat) (start : State)
         (r : option State),
    lp_preserved L inv -> inv start ->
    hill_climbing L fuel start = Done r ->
    exists s c c0,
      r = Some s /\ inv s /\ local_minimum L s c /\
      lp_cost L start = Some c0 /\ (c <= c0)%Z.
Proof.
  intros inv fuel start r Hpres Hstart Hrun. unfold hill_climbing in Hrun.
  destruct (lp_cost L start) as [c0 |] eqn:Hc0; [| discriminate].
  destruct (hc_loop_spec inv c0 Hpres fuel start c0 None None r)
    as (s & c & -> & Hs & Hle & Hmin); [| exact Hrun |].
  - split; [exact Hc0 |]. split; [exact Hstart |]. simpl. lia.
  - exists s, c, c0. auto.
Qed.

(** X18. For a problem whose cost function returns integers:
    [hill_climbing] returns whenever the cost is bounded from below on a
    set of states that contains the start and on which the listed
    actions and the cost never raise. Each turn of the loop but the last
    lowers the integer cost by at least one, so the loop runs at most
    once more than the start costs above the bound. *)
Theorem hill_climbing_terminates :
  forall (inv : State -> Prop) (lb c0 : Z) (start : State) (extra : nat),
    lp_closed L inv -> lp_bounded L inv lb -> inv start ->
    lp_cost L start = Some c0 ->
    exists s,
      hill_climbing L (Z.to_nat (c0 - lb) + 1 + extra) start
      = Done (Some s).
Proof.
  intros inv lb c0 start extra Hclosed Hbound Hstart Hc0.
  unfold hill_climbing. rewrite Hc0.
  destruct (hc_loop_returns inv lb Hclosed Hbound
              (Z.to_nat (c0 - lb) + 1 + extra) start c0 None None
              Hstart Hc0) as (r & Hrun); [lia |].
  rewrite Hrun.
  destruct (hc_loop_spec inv c0 (lp_closed_preserved inv Hclosed)
              (Z.to_nat (c0 - lb) + 1 + extra) start c0 None None r)
    as (s & _ & -> & _); [| exact Hrun | eauto].
  split; [exact Hc0 |]. split; [exact Hstart |]. simpl. lia.
Qed.

End HillClimbingFacts.


Section HillClimbingRuns.
Context {State Action : Type}.
Variable L : LocalProblem State Action.

(** Termination and the description of the result, together. *)
Lemma hill_climbing_run (inv : State -> Prop) (lb c0 : Z)
    (start : State) (extra : nat) :
  lp_closed L inv -> lp_bounded L inv lb -> inv start ->
  lp_cost L start = Some c0 ->
  exists s c,
    hill_climbing L (Z.to_nat (c0 - lb) + 1 + extra) start = Done (Some s) /\
    inv s /\ (c <= c0)%Z /\ local_minimum L s c.
Proof.
  intros Hclosed Hbound Hstart Hc0.
  unfold hill_climbing. rewrite Hc0.
  destruct (hc_loop_returns L inv lb Hclosed Hbound
              (Z.to_nat (c0 - lb) + 1 + extra) start c0 None None
              Hstart Hc0) as (r & Hrun); [lia |].
  rewrite Hrun.
  destruct (hc_loop_spec L inv c0 (lp_closed_preserved L inv Hclosed)
              (Z.to_nat (c0 - lb) + 1 + extra) start c0 None None r)
    as (s & c & -> & Hs); [| exact Hrun | eauto].
  split; [exact Hc0 |]. split; [exact Hstart |]. simpl. lia.
Qed.

End HillClimbingRuns.

(** ** [FunctionOptimizationProblem] *)

Lemma fo_box_closed : lp_closed FunctionOptimizationProblem fo_box.
Proof.
  intros [x y] a [Hx Hy] Ha. simpl in *.
  exists (fo_do_action (x, y) a). split; [reflexivity |].
  unfold fo_box.
  destruct (Z.gtb_spec x (-10)), (Z.gtb_spec y (-10)),
           (Z.ltb_spec x 10), (Z.ltb_spec y 10);
    simpl in Ha;
    repeat (destruct Ha as [<- | Ha]; [simpl; lia |]);
    contradiction.
Qed.

Lemma fo_cost_bounds (x y : Z) :
  (-10 <= x <= 10)%Z -> (-10 <= y <= 10)%Z ->
  (-40 <= fo_cost (x, y))%Z /\
  (fo_cost (x, y) = -40 -> x = 0 /\ y = 5)%Z.
Proof.
  intros Hx Hy. unfold fo_cost.
  destruct (Z.gtb_spec (x + y) 6), (Z.gtb_spec (5 * x + 9 * y) 45),
           (Z.ltb_spec x 0), (Z.ltb_spec y 0); lia.
Qed.

Lemma fo_box_bounded : lp_bounded FunctionOptimizationProblem fo_box (-40).
Proof.
  intros [x y] [Hx Hy]. simpl in *. exists (fo_cost (x, y)).
  split; [reflexivity |]. now apply fo_cost_bounds.
Qed.

Lemma hill_climbing_local_minimum_witness :
  lp_preserved FunctionOptimizationProblem fo_box /\
  fo_box (-3, 4)%Z /\
  hill_climbing FunctionOptimizationProblem 10 (-3, 4)%Z
  = Done (Some (-2, 6)%Z) /\
  exists s c c0,
    Some (-2, 6)%Z = Some s /\ fo_box s /\
    local_minimum FunctionOptimizationProblem s c /\
    lp_cost FunctionOptimizationProblem (-3, 4)%Z = Some c0 /\ (c <= c0)%Z.
Proof.
  assert (H1 : lp_preserved FunctionOptimizationProblem fo_box)
    by exact (lp_closed_preserved _ _ fo_box_closed).
  assert (H2 : fo_box (-3, 4)%Z) by (unfold fo_box; simpl; lia).
  assert (H3 : hill_climbing FunctionOptimizationProblem 10 (-3, 4)%Z
               = Done (Some (-2, 6)%Z)) by (vm_compute; reflexivity).
  split; [exact H1 |]. split; [exact H2 |]. split; [exact H3 |].
  exact (hill_climbing_returns_local_minimum FunctionOptimizationProblem
           fo_box 10 (-3, 4)%Z (Some (-2, 6)%Z) H1 H2 H3).
Defined.

Lemma hill_climbing_terminates_witness :
  lp_closed FunctionOptimizationProblem fo_box /\
  lp_bounded FunctionOptimizationProblem fo_box (-40) /\
  fo_box (7, -7)%Z /\
  lp_cost FunctionOptimizationProblem (7, -7)%Z = Some 10021%Z /\
  exists s,
    hill_climbing FunctionOptimizationProblem
      (Z.to_nat (10021 - -40) + 1 + 0) (7, -7)%Z = Done (Some s).
Proof.
  assert (H3 : fo_box (7, -7)%Z) by (unfold fo_box; simpl; lia).
  assert (H4 : lp_cost FunctionOptimizationProblem (7, -7)%Z
               = Some 10021%Z) by reflexivity.
  split; [exact fo_box_closed |]. split; [exact fo_box_bounded |].
  split; [exact H3 |]. split; [exact H4 |].
  exact (hill_climbing_terminates FunctionOptimizationProblem fo_box
           (-40)%Z 10021%Z (7, -7)%Z 0 fo_box_closed fo_box_bounded H3 H4).
Defined.

(** X19. On [FunctionOptimizationProblem] hill climbing from any state
    of the square -10..10 x -10..10 returns: the listed actions never
    leave the square, so the result is a state of the square, a local
    minimum that costs no more than the start. *)
Theorem function_optimization_climb_stays_in_square :
  forall (start : Z * Z) (extra : nat),
    fo_box start ->
    exists s,
      hill_climbing FunctionOptimizationProblem
        (Z.to_nat (fo_cost start + 40) + 1 + extra) start = Done (Some s) /\
      fo_box s /\ (fo_cost s <= fo_cost start)%Z /\
      forall a, In a (fo_available_actions s) ->
                (fo_cost s <= fo_cost (fo_do_action s a))%Z.
Proof.
  intros start extra Hstart.
  destruct (hill_climbing_run FunctionOptimizationProblem fo_box (-40)%Z
              (fo_cost start) start extra fo_box_closed fo_box_bounded
              Hstart eq_refl) as (s & c & Hrun & Hs & Hle & Hc & Hmin).
  simpl in Hc. injection Hc as <-.
  exists s. replace (fo_cost start + 40)%Z with (fo_cost start - -40)%Z by lia.
  split; [exact Hrun |]. split; [exact Hs |]. split; [exact Hle |].
  intros a Ha. destruct (Hmin a (fo_do_action s a) Ha eq_refl)
    as (c' & Hc' & Hle'). simpl in Hc'. injection Hc' as <-. exact Hle'.
Qed.

Lemma function_optimization_climb_witness :
  fo_box (9, 9)%Z /\
  exists s,
    hill_climbing FunctionOptimizationProblem
      (Z.to_nat (fo_cost (9, 9)%Z + 40) + 1 + 0) (9, 9)%Z = Done (Some s) /\
    fo_box s /\ (fo_cost s <= fo_cost (9, 9)%Z)%Z /\
    forall a, In a (fo_available_actions s) ->
              (fo_cost s <= fo_cost (fo_do_action s a))%Z.
Proof.
  assert (H : fo_box (9, 9)%Z) by (unfold fo_box; simpl; lia).
  split; [exact H |].
  exact (function_optimization_climb_stays_in_square (9, 9)%Z 0 H).
Defined.

(** X20. Within the square, [(0, 5)] is the one cheapest state of
    [FunctionOptimizationProblem]: every state costs at least -40, the
    cost of [(0, 5)], and only [(0, 5)] costs -40. *)
Theorem function_optimization_optimum :
  forall (state : Z * Z),
    fo_box state ->
    (fo_cost (0, 5) <= fo_cost state)%Z /\
    (fo_cost state = fo_cost (0, 5)%Z -> state = (0, 5)%Z).
Proof.
  intros [x y] [Hx Hy]. simpl in Hx, Hy.
  destruct (fo_cost_bounds x y Hx Hy) as [Hlb Huniq].
  change (fo_cost (0, 5)%Z) with (-40)%Z. split; [exact Hlb |].
  intros E. destruct (Huniq E) as [-> ->]. reflexivity.
Qed.

Lemma function_optimization_optimum_witness :
  fo_box (3, 3)%Z /\
  (fo_cost (0, 5) <= fo_cost (3, 3))%Z /\
  (fo_cost (3, 3)%Z = fo_cost (0, 5)%Z -> (3, 3)%Z = (0, 5)%Z).
Proof.
  assert (H : fo_box (3, 3)%Z) by (unfold fo_box; simpl; lia).
  split; [exact H |]. exact (function_optimization_optimum (3, 3)%Z H).
Defined.

(** Hill climbing need not find that optimum, nor a state that meets
    the constraints: started at [(3, 3)] it stays there, at cost -39;
    started at [(10, 10)] it stays there, with two constraints violated. *)
Example function_optimization_climb_gets_stuck :
  hill_climbing FunctionOptimizationProblem 5 (3, 3)%Z
  = Done (Some (3, 3)%Z) /\
  fo_cost (3, 3)%Z = (-39)%Z /\
  hill_climbing FunctionOptimizationProblem 5 (10, 10)%Z
  = Done (Some (10, 10)%Z) /\
  ~ fo_feasible (10, 10)%Z.
Proof.
  split; [vm_compute; reflexivity |]. split; [reflexivity |].
  split; [vm_compute; reflexivity |]. unfold fo_feasible. lia.
Qed.


(** ** [NQueens] *)

Lemma nq_available_actions_bounds (n : nat) (state : list Z) (first second : Z) :
  In (first, second) (nq_available_actions n state) ->
  exists i j, first = Z.of_nat i /\ second = Z.of_nat j /\
              1 <= j /\ j < i /\ i < n.
Proof.
  unfold nq_available_actions, py_range. intros H.
  apply in_flat_map in H as (i & Hi & H).
  apply in_map_iff in H as (j & [= <- <-] & Hj).
  apply in_seq in Hi. apply in_seq in Hj.
  exists i, j. repeat split; lia.
Qed.

Lemma py_index_nat (len i : nat) :
  i < len -> py_index len (Z.of_nat i) = Some i.
Proof.
  intros H. unfold py_index.
  destruct (decide (0 <= Z.of_nat i < Z.of_nat len)%Z); [| lia].
  now rewrite Nat2Z.id.
Qed.

Lemma nq_do_action_swap (state : list Z) (i j : nat) (x y : Z) :
  state !! i = Some x -> state !! j = Some y ->
  nq_do_action state (Z.of_nat i, Z.of_nat j)
  = Some (<[j := x]> (<[i := y]> state)).
Proof.
  intros Hi Hj. unfold nq_do_action, py_swap.
  rewrite (py_index_nat _ j) by (eapply lookup_lt_Some; eauto).
  rewrite (py_index_nat _ i) by (eapply lookup_lt_Some; eauto).
  now rewrite Hi, Hj.
Qed.

(** X21. Every action [NQueens.available_actions] lists swaps two rows
    [second < first] that both lie below row 0, so the queen of row 0 is
    never moved; on a state with [n] rows [do_action] then does not
    raise and returns the state with the two entries exchanged, a
    rearrangement of the same columns. *)
Theorem nqueens_actions_swap_rows_below_the_first :
  forall (n : nat) (state : list Z) (first second : Z),
    length state = n ->
    In (first, second) (nq_available_actions n state) ->
    (1 <= second < first)%Z /\ (first < Z.of_nat n)%Z /\
    exists s',
      nq_do_action state (first, second) = Some s' /\
      s' ≡ₚ state /\ length s' = n /\
      s' !! 0 = state !! 0 /\
      s' !! Z.to_nat first = state !! Z.to_nat second /\
      s' !! Z.to_nat second = state !! Z.to_nat first.
Proof.
  intros n state first second Hlen Hin.
  destruct (nq_available_actions_bounds n state first second Hin)
    as (i & j & -> & -> & H1 & Hji & Hin').
  split; [lia |]. split; [lia |].
  destruct (lookup_lt_is_Some_2 state i) as [x Hx]; [lia |].
  destruct (lookup_lt_is_Some_2 state j) as [y Hy]; [lia |].
  exists (<[j := x]> (<[i := y]> state)).
  split; [now apply nq_do_action_swap |].
  split; [now apply Permutation_insert_swap |].
  split; [now rewrite !length_insert |].
  rewrite !Nat2Z.id.
  split; [rewrite !list_lookup_insert_ne by lia; reflexivity |].
  split.
  - rewrite list_lookup_insert_ne by lia.
    rewrite list_lookup_insert_eq by lia. now rewrite Hy.
  - rewrite list_lookup_insert_eq by (rewrite length_insert; lia).
    now rewrite Hx.
Qed.

Lemma nqueens_actions_witness :
  length [2; 3; 6; 0; 4; 5; 1; 7]%Z = 8 /\
  In (5, 4)%Z (nq_available_actions 8 [2; 3; 6; 0; 4; 5; 1; 7]%Z) /\
  (1 <= 4 < 5)%Z /\ (5 < Z.of_nat 8)%Z /\
  exists s',
    nq_do_action [2; 3; 6; 0; 4; 5; 1; 7]%Z (5, 4)%Z = Some s' /\
    s' ≡ₚ [2; 3; 6; 0; 4; 5; 1; 7]%Z /\ length s' = 8 /\
    s' !! 0 = [2; 3; 6; 0; 4; 5; 1; 7]%Z !! 0 /\
    s' !! Z.to_nat 5 = [2; 3; 6; 0; 4; 5; 1; 7]%Z !! Z.to_nat 4 /\
    s' !! Z.to_nat 4 = [2; 3; 6; 0; 4; 5; 1; 7]%Z !! Z.to_nat 5.
Proof.
  assert (H1 : length [2; 3; 6; 0; 4; 5; 1; 7]%Z = 8) by reflexivity.
  assert (H2 : In (5, 4)%Z
                  (nq_available_actions 8 [2; 3; 6; 0; 4; 5; 1; 7]%Z))
    by (vm_compute; tauto).
  split; [exact H1 |]. split; [exact H2 |].
  exact (nqueens_actions_swap_rows_below_the_first
           8 [2; 3; 6; 0; 4; 5; 1; 7]%Z 5%Z 4%Z H1 H2).
Defined.


Lemma for_each_inv {A B : Type} (body : B -> A -> option B)
    (I : B -> Prop) (items : list A) :
  (forall acc x, In x items -> I acc ->
                 exists acc', body acc x = Some acc' /\ I acc') ->
  forall acc, I acc ->
    exists acc', for_each body items acc = Some acc' /\ I acc'.
Proof.
  induction items as [| x rest IH]; intros Hbody acc Hacc; simpl.
  - eauto.
  - destruct (Hbody acc x (or_introl eq_refl) Hacc) as (acc' & -> & Hacc').
    apply IH; [| exact Hacc'].
    intros acc0 y Hy. apply Hbody. now right.
Qed.

Lemma insert_false_repeat (n r : nat) :
  <[r := false]> (repeat false n) = repeat false n.
Proof.
  revert r. induction n as [| n IH]; intros [| r]; simpl; try reflexivity.
  now rewrite IH.
Qed.

Lemma filter_true_repeat_false (n : nat) :
  filter (fun b : bool => b = true) (repeat false n) = [].
Proof. induction n as [| n IH]; simpl; [reflexivity | exact IH]. Qed.

Lemma combine_seq_lookup {A : Type} (l : list A) (i : nat) (x : A) :
  forall k, In (i, x) (combine (seq k (length l)) l) ->
            k <= i /\ l !! (i - k) = Some x.
Proof.
  induction l as [| y l IH]; intros k H; simpl in H; [contradiction |].
  destruct H as [[= <- <-] | H].
  - split; [lia |]. now rewrite Nat.sub_diag.
  - apply IH in H as [Hle H]. split; [lia |].
    replace (i - k) with (S (i - S k)) by lia. exact H.
Qed.

Lemma enumerate_lookup {A : Type} (l : list A) (i : nat) (x : A) :
  In (i, x) (enumerate l) -> l !! i = Some x.
Proof.
  intros H. apply combine_seq_lookup in H as [_ H].
  now rewrite Nat.sub_0_r in H.
Qed.

Lemma nq_no_attack_mark (state : list Z) (row r spread : nat) (queen q : Z) :
  (forall i j, ~ nq_diagonal state i j) ->
  state !! row = Some queen -> state !! r = Some q -> 1 <= spread ->
  r + spread = row \/ r = row + spread ->
  (q =? queen - Z.of_nat spread)%Z || (q =? queen + Z.of_nat spread)%Z
  = false.
Proof.
  intros Hno Hrow Hr Hs Hrel.
  destruct ((q =? queen - Z.of_nat spread)%Z
            || (q =? queen + Z.of_nat spread)%Z) eqn:E; [| reflexivity].
  exfalso. apply (Hno r row). exists q, queen.
  split; [exact Hr |]. split; [exact Hrow |]. split; [lia |].
  apply orb_true_iff in E as [E | E]; apply Z.eqb_eq in E; lia.
Qed.

Lemma nq_mark_inv (n : nat) (state : list Z) (row r spread : nat)
    (queen : Z) (under_attack : list bool) :
  length state = n -> state !! row = Some queen -> 1 <= spread ->
  r + spread = row \/ r = row + spread -> r < n ->
  nq_inv n state under_attack ->
  exists under_attack',
    nq_mark state (queen - Z.of_nat spread) (queen + Z.of_nat spread)
            under_attack r = Some under_attack' /\
    nq_inv n state under_attack'.
Proof.
  intros Hlen Hrow Hs Hrel Hr [Hua Hfalse].
  destruct (lookup_lt_is_Some_2 state r) as [q Hq]; [lia |].
  unfold nq_mark. rewrite Hq.
  destruct (decide (r < length under_attack)); [| lia].
  eexists. split; [reflexivity |]. split.
  - now rewrite length_insert.
  - intros Hno.
    rewrite (nq_no_attack_mark state row r spread queen q Hno Hrow Hq Hs Hrel).
    rewrite (Hfalse Hno). apply insert_false_repeat.
Qed.

Lemma nq_spread_inv (n : nat) (state : list Z) (row spread : nat)
    (queen : Z) (under_attack : list bool) :
  length state = n -> state !! row = Some queen -> 1 <= spread ->
  nq_inv n state under_attack ->
  exists under_attack',
    nq_spread n state row queen under_attack spread = Some under_attack' /\
    nq_inv n state under_attack'.
Proof.
  intros Hlen Hrow Hs Hinv. unfold nq_spread.
  pose proof (lookup_lt_Some _ _ _ Hrow) as Hlt.
  assert (Hup : exists ua1,
             (if decide (spread <= row)
              then nq_mark state (queen - Z.of_nat spread)
                     (queen + Z.of_nat spread) under_attack (row - spread)
              else Some under_attack) = Some ua1 /\ nq_inv n state ua1).
  { destruct (decide (spread <= row)); [| eauto].
    apply (nq_mark_inv n state row); auto; lia. }
  destruct Hup as (ua1 & -> & Hinv1).
  destruct (decide (row + spread < n)); [| eauto].
  apply (nq_mark_inv n state row); auto.
Qed.

Lemma nq_row_inv (n : nat) (state : list Z) (row : nat) (queen : Z)
    (under_attack : list bool) :
  length state = n -> state !! row = Some queen ->
  nq_inv n state under_attack ->
  exists under_attack',
    nq_row n state under_attack (row, queen) = Some under_attack' /\
    nq_inv n state under_attack'.
Proof.
  intros Hlen Hrow Hinv. unfold nq_row, py_range.
  apply for_each_inv with (I := nq_inv n state); [| exact Hinv].
  intros acc spread Hin Hacc. apply in_seq in Hin.
  apply nq_spread_inv; auto. lia.
Qed.

Lemma nq_cost_loop (n : nat) (state : list Z) :
  length state = n ->
  exists under_attack,
    for_each (nq_row n state) (enumerate state) (repeat false n)
    = Some under_attack /\
    nq_inv n state under_attack.
Proof.
  intros Hlen.
  apply for_each_inv with (I := nq_inv n state).
  - intros acc [row queen] Hin Hacc.
    apply nq_row_inv; auto. now apply enumerate_lookup.
  - split; [apply repeat_length | reflexivity].
Qed.

Lemma nq_cost_bounds (n : nat) (state : list Z) :
  length state = n ->
  exists c, nq_cost n state = Some c /\ (0 <= c <= Z.of_nat n)%Z.
Proof.
  intros Hlen. unfold nq_cost.
  destruct (nq_cost_loop n state Hlen) as (ua & -> & Hua & _).
  eexists. split; [reflexivity |].
  pose proof (length_filter (fun b : bool => b = true) ua). lia.
Qed.

(** X22. On a state with [n] rows [NQueens.cost] does not raise and
    returns a count between 0 and [n]; the count is 0 when no two queens
    share a diagonal. *)
Theorem nqueens_cost_is_a_count_and_zero_without_attacks :
  forall (n : nat) (state : list Z),
    length state = n ->
    exists c,
      nq_cost n state = Some c /\ (0 <= c <= Z.of_nat n)%Z /\
      ((forall i j, ~ nq_diagonal state i j) -> c = 0%Z).
Proof.
  intros n state Hlen. unfold nq_cost.
  destruct (nq_cost_loop n state Hlen) as (ua & -> & Hua & Hfalse).
  eexists. split; [reflexivity |]. split.
  - pose proof (length_filter (fun b : bool => b = true) ua). lia.
  - intros Hno. rewrite (Hfalse Hno), filter_true_repeat_false.
    reflexivity.
Qed.

Lemma nqueens_cost_witness :
  length [1; 3; 0; 2]%Z = 4 /\
  exists c,
    nq_cost 4 [1; 3; 0; 2]%Z = Some c /\ (0 <= c <= Z.of_nat 4)%Z /\
    ((forall i j, ~ nq_diagonal [1; 3; 0; 2]%Z i j) -> c = 0%Z).
Proof.
  split; [reflexivity |].
  exact (nqueens_cost_is_a_count_and_zero_without_attacks
           4 [1; 3; 0; 2]%Z eq_refl).
Defined.

(** The converse fails, since each entry of [under_attack] keeps only
    the last value assigned to it: with four queens in columns
    0, 2, 1, 3 the queens of rows 1 and 2 share a diagonal, and the cost
    is 0. *)
Example nqueens_cost_zero_with_attack :
  nq_cost 4 [0; 2; 1; 3]%Z = Some 0%Z /\
  nq_diagonal [0; 2; 1; 3]%Z 1 2.
Proof.
  split; [vm_compute; reflexivity |].
  exists 2%Z, 1%Z. repeat split; try reflexivity. lia.
Qed.

Lemma nq_reach_closed (n : nat) (start : list Z) :
  lp_closed (NQueens n) (nq_reach n start).
Proof.
  intros s [first second] (Hlen & Hperm & H0) Hin. simpl in Hin |- *.
  destruct (nq_available_actions_bounds n s first second Hin)
    as (i & j & -> & -> & H1 & Hji & Hin').
  destruct (lookup_lt_is_Some_2 s i) as [x Hx]; [lia |].
  destruct (lookup_lt_is_Some_2 s j) as [y Hy]; [lia |].
  exists (<[j := x]> (<[i := y]> s)).
  split; [now apply nq_do_action_swap |].
  split; [now rewrite !length_insert |].
  split; [now rewrite Permutation_insert_swap |].
  rewrite !list_lookup_insert_ne by lia. exact H0.
Qed.

Lemma nq_reach_bounded (n : nat) (start : list Z) :
  lp_bounded (NQueens n) (nq_reach n start) 0.
Proof.
  intros s (Hlen & _). simpl.
  destruct (nq_cost_bounds n s Hlen) as (c & Hc & Hb).
  exists c. split; [exact Hc | lia].
Qed.

(** X23. Hill climbing on [NQueens(n)], started at any state with [n]
    rows, returns within [n + 1] turns of its loop and does not raise.
    The state it returns is a rearrangement of the start with the same
    queen in row 0, and a local minimum of the cost. *)
Theorem nqueens_climb_keeps_first_queen :
  forall (n : nat) (start : list Z) (extra : nat),
    length start = n ->
    exists s c,
      hill_climbing (NQueens n) (n + 1 + extra) start = Done (Some s) /\
      s ≡ₚ start /\ s !! 0 = start !! 0 /\
      local_minimum (NQueens n) s c.
Proof.
  intros n start extra Hlen.
  destruct (nq_cost_bounds n start Hlen) as (c0 & Hc0 & Hb).
  destruct (hill_climbing_run (NQueens n) (nq_reach n start) 0%Z c0 start
              (n - Z.to_nat c0 + extra)
              (nq_reach_closed n start) (nq_reach_bounded n start))
    as (s & c & Hrun & (_ & Hperm & H0) & _ & Hmin).
  - split; [exact Hlen |]. split; reflexivity.
  - exact Hc0.
  - exists s, c.
    replace (n + 1 + extra)
      with (Z.to_nat (c0 - 0) + 1 + (n - Z.to_nat c0 + extra)) by lia.
    auto.
Qed.

Lemma nqueens_climb_witness :
  length [5; 4; 3; 2; 1; 0]%Z = 6 /\
  exists s c,
    hill_climbing (NQueens 6) (6 + 1 + 0) [5; 4; 3; 2; 1; 0]%Z
    = Done (Some s) /\
    s ≡ₚ [5; 4; 3; 2; 1; 0]%Z /\ s !! 0 = [5; 4; 3; 2; 1; 0]%Z !! 0 /\
    local_minimum (NQueens 6) s c.
Proof.
  split; [reflexivity |].
  exact (nqueens_climb_keeps_first_queen 6 [5; 4; 3; 2; 1; 0]%Z 0 eq_refl).
Defined.


(** * lab2: the 8-puzzle *)

Lemma puzzle_misplaced_count (l : list Z) :
  forall k num,
    puzzle_misplaced k l num = (num + count_at tile_misplaced k l)%Z.
Proof.
  induction l as [| t l IH]; intros k num; simpl; [lia |].
  rewrite IH. unfold tile_misplaced.
  destruct (decide (Z.of_nat k <> t)) as [H | H];
    destruct (Z.eqb_spec (Z.of_nat k) t); simpl; lia.
Qed.

Lemma count_at_split (l : list Z) :
  forall k,
    count_at tile_misplaced k l
    = (count_at real_tile_misplaced k l + count_at blank_misplaced k l)%Z.
Proof.
  induction l as [| t l IH]; intros k; simpl; [reflexivity |].
  rewrite IH.
  unfold tile_misplaced, real_tile_misplaced, blank_misplaced.
  destruct (Z.of_nat k =? t)%Z, (t =? 0)%Z; simpl; lia.
Qed.

Lemma count_at_nonneg (P : nat -> Z -> bool) (l : list Z) :
  forall k, (0 <= count_at P k l)%Z.
Proof.
  induction l as [| t l IH]; intros k; simpl; [lia |].
  specialize (IH (S k)). destruct (P k t); lia.
Qed.

Lemma count_at_blank_absent (l : list Z) :
  forall k, 0%Z ∉ l -> count_at blank_misplaced k l = 0%Z.
Proof.
  induction l as [| t l IH]; intros k H; simpl; [reflexivity |].
  apply not_elem_of_cons in H as [Ht Hl]. rewrite (IH _ Hl).
  unfold blank_misplaced. destruct (Z.eqb_spec t 0); [congruence |].
  now rewrite andb_false_r.
Qed.

Lemma count_at_blank_NoDup (l : list Z) :
  forall k, NoDup l -> (count_at blank_misplaced k l <= 1)%Z.
Proof.
  induction l as [| t l IH]; intros k H; simpl; [lia |].
  apply NoDup_cons in H as [Ht Hl].
  unfold blank_misplaced at 1. destruct (Z.eqb_spec t 0) as [-> | Hne].
  - rewrite (count_at_blank_absent l _ Ht).
    destruct (negb _); simpl; lia.
  - rewrite andb_false_r. specialize (IH (S k) Hl). lia.
Qed.

Lemma count_at_insert (P : nat -> Z -> bool) (l : list Z) :
  forall k i old x,
    l !! i = Some old ->
    count_at P k (<[i := x]> l)
    = (count_at P k l - (if P (k + i)%nat old then 1 else 0)
       + (if P (k + i)%nat x then 1 else 0))%Z.
Proof.
  induction l as [| t l IH]; intros k i old x H; [discriminate |].
  destruct i as [| i]; simpl in *.
  - injection H as ->. rewrite Nat.add_0_r. lia.
  - rewrite (IH (S k) i old x H).
    replace (S k + i) with (k + S i) by lia. lia.
Qed.

Lemma count_at_range (n : nat) :
  forall k, count_at real_tile_misplaced k (map Z.of_nat (seq k n)) = 0%Z.
Proof.
  induction n as [| n IH]; intros k; simpl; [reflexivity |].
  rewrite IH. unfold real_tile_misplaced. now rewrite Z.eqb_refl.
Qed.

Lemma NoDup_range (n : nat) : forall k, NoDup (map Z.of_nat (seq k n)).
Proof.
  induction n as [| n IH]; intros k; simpl; [apply NoDup_nil; exact I |].
  apply NoDup_cons. split; [| apply IH].
  intros H. apply list_elem_of_In, in_map_iff in H as (j & E & Hj).
  apply in_seq in Hj. lia.
Qed.

Lemma py_swap_spec {A : Type} (l l' : list A) (i j : Z) :
  py_swap l i j = Some l' ->
  exists pi pj xi xj,
    py_index (length l) i = Some pi /\ py_index (length l) j = Some pj /\
    l !! pi = Some xi /\ l !! pj = Some xj /\
    l' = <[pj := xi]> (<[pi := xj]> l).
Proof.
  unfold py_swap. intros H.
  destruct (py_index (length l) j) as [pj |]; [| discriminate].
  destruct (py_index (length l) i) as [pi |]; [| discriminate].
  destruct (l !! pj) as [xj |] eqn:Hj; [| discriminate].
  destruct (l !! pi) as [xi |] eqn:Hi; [| discriminate].
  injection H as <-. exists pi, pj, xi, xj. auto 10.
Qed.

Lemma puzzle_do_action_spec (index : Z) (board : list Z) (a : string)
    (s' : Z * list Z) :
  puzzle_do_action (index, board) a = Some s' ->
  exists delta pi pj xi xj,
    puzzle_actions a = Some delta /\
    py_index (length board) index = Some pi /\
    py_index (length board) (index + delta) = Some pj /\
    board !! pi = Some xi /\ board !! pj = Some xj /\
    s' = ((index + delta)%Z, <[pj := xi]> (<[pi := xj]> board)).
Proof.
  unfold puzzle_do_action. intros H.
  destruct (puzzle_actions a) as [delta |]; [| discriminate].
  destruct (py_swap board index (index + delta)) as [board' |] eqn:Hs;
    [| discriminate].
  injection H as <-.
  apply py_swap_spec in Hs as (pi & pj & xi & xj & H1 & H2 & H3 & H4 & ->).
  exists delta, pi, pj, xi, xj. auto 10.
Qed.

(** One move, read backwards from a state that can still reach the
    goal: at most one tile other than the blank gets into place. *)
Lemma puzzle_step_back (s s' : Z * list Z) (a : string) :
  puzzle_do_action s a = Some s' ->
  NoDup (snd s') -> blank_ok s' ->
  NoDup (snd s) /\ blank_ok s /\
  (count_at real_tile_misplaced 0 (snd s)
   <= count_at real_tile_misplaced 0 (snd s') + 1)%Z.
Proof.
  destruct s as [index board]. intros Hdo Hnd Hblank.
  apply puzzle_do_action_spec in Hdo
    as (delta & pi & pj & xi & xj & _ & Hpi & Hpj & Hxi & Hxj & ->).
  unfold blank_ok in *. cbn [fst snd] in *.
  pose proof (lookup_lt_Some _ _ _ Hxi) as Hlti.
  pose proof (lookup_lt_Some _ _ _ Hxj) as Hltj.
  assert (Hmid : <[pi := xj]> board !! pj = Some xj).
  { destruct (decide (pi = pj)) as [-> | Hne].
    - now apply list_lookup_insert_eq.
    - now rewrite list_lookup_insert_ne. }
  assert (Hzero : xi = 0%Z).
  { destruct Hblank as [Hnil | (p & Hp & Hlook)].
    - apply (f_equal length) in Hnil. rewrite !length_insert in Hnil.
      simpl in Hnil. lia.
    - rewrite !length_insert, Hpj in Hp. injection Hp as <-.
      rewrite list_lookup_insert_eq in Hlook
        by (rewrite length_insert; lia).
      congruence. }
  subst xi. split; [| split].
  - now rewrite (Permutation_insert_swap board pi pj 0%Z xj Hxi Hxj) in Hnd.
  - right. exists pi. auto.
  - rewrite (count_at_insert _ _ 0 pj xj 0%Z Hmid).
    rewrite (count_at_insert _ _ 0 pi 0%Z xj Hxi).
    assert (Hz : forall i, real_tile_misplaced i 0%Z = false)
      by (intros i; unfold real_tile_misplaced; apply andb_false_r).
    rewrite !Hz.
    destruct (real_tile_misplaced (0 + pj) xj),
             (real_tile_misplaced (0 + pi) xj); lia.
Qed.

Lemma puzzle_goal_state (g : Z * list Z) :
  puzzle_is_goal g = true ->
  NoDup (snd g) /\ blank_ok g /\
  count_at real_tile_misplaced 0 (snd g) = 0%Z.
Proof.
  unfold puzzle_is_goal, py_range. intros H. apply bool_decide_eq_true in H.
  destruct g as [index board]. simpl in *. injection H as -> Hboard.
  rewrite Nat.sub_0_r in Hboard.
  split; [rewrite Hboard; apply NoDup_range |].
  split; [| rewrite Hboard; apply count_at_range].
  destruct board as [| t rest]; [now left |]. right. exists 0.
  split; [reflexivity |]. simpl in Hboard. now injection Hboard as -> _.
Qed.

Lemma puzzle_potential (plan : list string) :
  forall s g,
    run_plan PuzzleProblem s plan = Some g -> puzzle_is_goal g = true ->
    NoDup (snd s) /\ blank_ok s /\
    (count_at real_tile_misplaced 0 (snd s) <= Z.of_nat (length plan))%Z.
Proof.
  induction plan as [| a rest IH]; intros s g Hrun Hgoal; simpl in Hrun.
  - injection Hrun as ->.
    destruct (puzzle_goal_state g Hgoal) as (H1 & H2 & H3).
    split; [exact H1 |]. split; [exact H2 |]. simpl. lia.
  - destruct (puzzle_do_action s a) as [s' |] eqn:Hdo; [| discriminate].
    destruct (IH s' g Hrun Hgoal) as (H1 & H2 & H3).
    destruct (puzzle_step_back s s' a Hdo H1 H2) as (G1 & G2 & G3).
    split; [exact G1 |]. split; [exact G2 |].
    simpl length. lia.
Qed.

Lemma puzzle_plan_cost (plan : list string) :
  forall s g,
    run_plan PuzzleProblem s plan = Some g ->
    plan_cost PuzzleProblem s plan = Z.of_nat (length plan).
Proof.
  induction plan as [| a rest IH]; intros s g Hrun; simpl in *;
    [reflexivity |].
  destruct (puzzle_do_action s a) as [s' |] eqn:Hdo; [| discriminate].
  rewrite (IH s' g Hrun). lia.
Qed.

(** X24. The heuristic of lab2's [PuzzleProblem], the number of
    misplaced tiles minus one, is admissible: it never exceeds the cost
    of a plan that reaches the goal. It is -1 on every goal state, and
    it is not consistent: one move can lower it by 2. *)
Theorem puzzle_misplaced_tiles_heuristic_admissible :
  admissible PuzzleProblem /\
  (forall g, is_goal PuzzleProblem g = true ->
             heuristic PuzzleProblem g = (-1)%Z) /\
  ~ consistent PuzzleProblem.
Proof.
  split; [| split].
  - intros s plan (_ & g & Hrun & Hgoal). simpl in Hgoal.
    rewrite (puzzle_plan_cost plan s g Hrun).
    destruct (puzzle_potential plan s g Hrun Hgoal) as (Hnd & _ & Hle).
    simpl. rewrite puzzle_misplaced_count, count_at_split.
    pose proof (count_at_blank_NoDup (snd s) 0 Hnd). lia.
  - intros g Hgoal. simpl in *.
    destruct (puzzle_goal_state g Hgoal) as (Hnd & Hblank & Hzero).
    rewrite puzzle_misplaced_count, count_at_split, Hzero.
    assert (Hb : count_at blank_misplaced 0 (snd g) = 0%Z).
    { unfold puzzle_is_goal, py_range in Hgoal.
      apply bool_decide_eq_true in Hgoal. destruct g as [i b].
      simpl in *. injection Hgoal as _ Hb. rewrite Nat.sub_0_r in Hb.
      destruct b as [| t rest]; [reflexivity |].
      simpl in Hb. injection Hb as -> Hrest. simpl.
      apply NoDup_cons in Hnd as [Hnot _].
      now rewrite (count_at_blank_absent rest 1 Hnot). }
    rewrite Hb. reflexivity.
  - intros Hcons.
    specialize (Hcons (1%Z, [1; 0; 2; 3; 4; 5; 6; 7; 8]%Z) "Left"
                      (0%Z, [0; 1; 2; 3; 4; 5; 6; 7; 8]%Z)).
    simpl in Hcons.
    assert (H : (1 <= 1 + -1)%Z); [| lia].
    apply Hcons; [tauto | reflexivity].
Qed.


Lemma puzzle_do_action_permutes (s s' : Z * list Z) (a : string) :
  puzzle_do_action s a = Some s' ->
  snd s' ≡ₚ snd s /\ length (snd s') = length (snd s).
Proof.
  destruct s as [index board]. intros Hdo.
  apply puzzle_do_action_spec in Hdo
    as (delta & pi & pj & xi & xj & _ & _ & _ & Hxi & Hxj & ->).
  cbn [snd]. split; [now apply Permutation_insert_swap |].
  now rewrite !length_insert.
Qed.

(** X25. On a state whose blank index points into a board of nine tiles,
    every action [PuzzleProblem.available_actions] lists is carried out
    by [do_action] without raising: the blank moves to a neighbouring
    cell of the 3 x 3 grid, the board is rearranged, and the opposite
    action is listed in the new state and leads back to the old one. *)
Theorem puzzle_listed_moves_are_reversible :
  forall (state : Z * list Z) (action : string),
    puzzle_wf state ->
    In action (puzzle_available_actions state) ->
    exists state',
      puzzle_do_action state action = Some state' /\
      puzzle_wf state' /\ snd state' ≡ₚ snd state /\
      (Z.abs (fst state' / 3 - fst state / 3)
       + Z.abs (fst state' mod 3 - fst state mod 3) = 1)%Z /\
      In (puzzle_opposite action) (puzzle_available_actions state') /\
      puzzle_do_action state' (puzzle_opposite action) = Some state.
Proof.
  intros [index board] action [Hidx Hlen] Hin. cbn [fst snd] in *.
  assert (Hex : exists state',
             puzzle_do_action (index, board) action = Some state' /\
             (0 <= fst state' < 9)%Z /\
             (Z.abs (fst state' / 3 - index / 3)
              + Z.abs (fst state' mod 3 - index mod 3) = 1)%Z /\
             In (puzzle_opposite action) (puzzle_available_actions state') /\
             puzzle_do_action state' (puzzle_opposite action)
             = Some (index, board)).
  { do 10 (destruct board as [| ? board]; try discriminate Hlen).
    assert (Hcases : (index = 0 \/ index = 1 \/ index = 2 \/ index = 3 \/
                      index = 4 \/ index = 5 \/ index = 6 \/ index = 7 \/
                      index = 8)%Z) by lia.
    repeat (destruct Hcases as [-> | Hcases]); try subst index;
      simpl in Hin;
      repeat (destruct Hin as [<- | Hin]; [| try contradiction]);
      (match goal with
       | |- exists s', ?d = Some s' /\ _ =>
           let r := eval vm_compute in d in
           match r with
           | Some ?s => exists s; split; [vm_compute; reflexivity |]
           end
       end;
       cbn [fst]; split; [lia |]; split; [reflexivity |];
       split; [vm_compute; tauto | vm_compute; reflexivity]). }
  destruct Hex as (state' & Hdo & Hidx' & Hadj & Hopp & Hback).
  exists state'. split; [exact Hdo |].
  destruct (puzzle_do_action_permutes _ _ _ Hdo) as [Hperm Hlen'].
  cbn [snd] in *.
  split; [split; [exact Hidx' | lia] |].
  split; [exact Hperm |]. auto.
Qed.

Lemma puzzle_moves_witness :
  puzzle_wf (4%Z, [7; 2; 4; 5; 0; 6; 8; 3; 1]%Z) /\
  In "Up" (puzzle_available_actions (4%Z, [7; 2; 4; 5; 0; 6; 8; 3; 1]%Z)) /\
  exists state',
    puzzle_do_action (4%Z, [7; 2; 4; 5; 0; 6; 8; 3; 1]%Z) "Up"
    = Some state' /\
    puzzle_wf state' /\
    snd state' ≡ₚ snd (4%Z, [7; 2; 4; 5; 0; 6; 8; 3; 1]%Z) /\
    (Z.abs (fst state' / 3 - fst (4%Z, [7; 2; 4; 5; 0; 6; 8; 3; 1]%Z) / 3)
     + Z.abs (fst state' mod 3
              - fst (4%Z, [7; 2; 4; 5; 0; 6; 8; 3; 1]%Z) mod 3) = 1)%Z /\
    In (puzzle_opposite "Up") (puzzle_available_actions state') /\
    puzzle_do_action state' (puzzle_opposite "Up")
    = Some (4%Z, [7; 2; 4; 5; 0; 6; 8; 3; 1]%Z).
Proof.
  assert (H1 : puzzle_wf (4%Z, [7; 2; 4; 5; 0; 6; 8; 3; 1]%Z))
    by (split; simpl; [lia | reflexivity]).
  assert (H2 : In "Up" (puzzle_available_actions
                          (4%Z, [7; 2; 4; 5; 0; 6; 8; 3; 1]%Z)))
    by (simpl; tauto).
  split; [exact H1 |]. split; [exact H2 |].
  exact (puzzle_listed_moves_are_reversible
           (4%Z, [7; 2; 4; 5; 0; 6; 8; 3; 1]%Z) "Up" H1 H2).
Defined.

(** Off the listed actions [do_action] need not raise: "Left" with the
    blank in the first cell reads index -1, which Python takes for the
    last cell, and returns a state whose blank index is -1. *)
Example puzzle_unlisted_move_wraps_around :
  ~ In "Left" (puzzle_available_actions
                 (0%Z, [0; 1; 2; 3; 4; 5; 6; 7; 8]%Z)) /\
  puzzle_do_action (0%Z, [0; 1; 2; 3; 4; 5; 6; 7; 8]%Z) "Left"
  = Some ((-1)%Z, [8; 1; 2; 3; 4; 5; 6; 7; 0]%Z).
Proof.
  split; [| reflexivity]. simpl. intros [H | [H | []]]; discriminate.
Qed.


(** ** The Manhattan heuristic *)

Lemma puzzle_manhattan_sum (l : list Z) :
  forall k acc,
    puzzle_manhattan k l acc = (acc + sum_at tile_distance k l)%Z.
Proof.
  induction l as [| t l IH]; intros k acc; simpl; [lia |].
  rewrite IH. lia.
Qed.

Lemma sum_at_insert (f : nat -> Z -> Z) (l : list Z) :
  forall k i old x,
    l !! i = Some old ->
    sum_at f k (<[i := x]> l)
    = (sum_at f k l - f (k + i)%nat old + f (k + i)%nat x)%Z.
Proof.
  induction l as [| t l IH]; intros k i old x H; [discriminate |].
  destruct i as [| i]; simpl in *.
  - injection H as ->. rewrite Nat.add_0_r. lia.
  - rewrite (IH (S k) i old x H).
    replace (S k + i) with (k + S i) by lia. lia.
Qed.

Lemma sum_at_range (n : nat) :
  forall k, sum_at tile_distance k (map Z.of_nat (seq k n)) = 0%Z.
Proof.
  induction n as [| n IH]; intros k; simpl; [reflexivity |].
  rewrite IH. unfold tile_distance. lia.
Qed.

(** Between neighbouring cells the distance to a tile's home differs by
    at most one. *)
Lemma tile_distance_neighbours (p q : nat) (t : Z) :
  (Z.abs (Z.of_nat q / 3 - Z.of_nat p / 3)
   + Z.abs (Z.of_nat q mod 3 - Z.of_nat p mod 3) = 1)%Z ->
  (tile_distance p t <= tile_distance q t + 1)%Z.
Proof.
  unfold tile_distance, puzzle_dimension.
  generalize (Z.of_nat q / 3)%Z (Z.of_nat p / 3)%Z (Z.of_nat q mod 3)%Z
             (Z.of_nat p mod 3)%Z (t / 3)%Z (t mod 3)%Z.
  intros. lia.
Qed.

(** Where a listed action sends the blank of a well-formed state. *)
Lemma puzzle_listed_delta (index : Z) (board : list Z) (a : string) :
  (0 <= index < 9)%Z ->
  In a (puzzle_available_actions (index, board)) ->
  exists delta,
    puzzle_actions a = Some delta /\ (0 <= index + delta < 9)%Z /\
    (Z.abs ((index + delta) / 3 - index / 3)
     + Z.abs ((index + delta) mod 3 - index mod 3) = 1)%Z.
Proof.
  intros Hidx Hin.
  assert (Hcases : (index = 0 \/ index = 1 \/ index = 2 \/ index = 3 \/
                    index = 4 \/ index = 5 \/ index = 6 \/ index = 7 \/
                    index = 8)%Z) by lia.
  repeat (destruct Hcases as [-> | Hcases]); try subst index;
    simpl in Hin;
    repeat (destruct Hin as [<- | Hin]; [| try contradiction]);
    (match goal with
     | |- exists delta, ?d = Some delta /\ _ =>
         let r := eval vm_compute in d in
         match r with
         | Some ?x => exists x; split; [vm_compute; reflexivity |]
         end
     end; split; [lia | reflexivity]).
Qed.

Lemma puzzle_manhattan_step (s s' : Z * list Z) (a : string) :
  puzzle_wf s -> In a (puzzle_available_actions s) ->
  puzzle_do_action s a = Some s' ->
  puzzle_wf s' /\
  (sum_at tile_distance 0 (snd s)
   <= sum_at tile_distance 0 (snd s') + 2)%Z.
Proof.
  destruct s as [index board]. intros [Hidx Hlen] Hin Hdo.
  cbn [fst snd] in *.
  destruct (puzzle_listed_delta index board a Hidx Hin)
    as (delta & Hdelta & Hnew & Hadj).
  apply puzzle_do_action_spec in Hdo
    as (delta' & pi & pj & xi & xj & Hdelta' & Hpi & Hpj & Hxi & Hxj & ->).
  rewrite Hdelta in Hdelta'. injection Hdelta' as <-.
  unfold py_index in Hpi, Hpj. rewrite Hlen in Hpi, Hpj.
  destruct (decide (0 <= index < Z.of_nat 9)%Z); [| lia].
  destruct (decide (0 <= index + delta < Z.of_nat 9)%Z); [| lia].
  injection Hpi as <-. injection Hpj as <-.
  unfold puzzle_wf. cbn [fst snd]. split.
  - split; [exact Hnew |]. now rewrite !length_insert.
  - assert (Hmid : <[Z.to_nat index := xj]> board
                   !! Z.to_nat (index + delta) = Some xj).
    { destruct (decide (Z.to_nat index = Z.to_nat (index + delta)))
        as [E | E].
      - rewrite <- E. apply list_lookup_insert_eq.
        eapply lookup_lt_Some; eauto.
      - now rewrite list_lookup_insert_ne. }
    rewrite (sum_at_insert _ _ 0 _ xj xi Hmid).
    rewrite (sum_at_insert _ _ 0 _ xi xj Hxi). simpl Nat.add.
    assert (Hb : forall t,
               (tile_distance (Z.to_nat index) t
                <= tile_distance (Z.to_nat (index + delta)) t + 1)%Z /\
               (tile_distance (Z.to_nat (index + delta)) t
                <= tile_distance (Z.to_nat index) t + 1)%Z).
    { intros t. split; apply tile_distance_neighbours;
        rewrite !Z2Nat.id by lia; lia. }
    pose proof (Hb xi) as [? ?]. pose proof (Hb xj) as [? ?]. lia.
Qed.

Lemma puzzle_manhattan_potential (plan : list string) :
  forall s g,
    puzzle_wf s -> legal_plan PuzzleProblem s plan ->
    run_plan PuzzleProblem s plan = Some g -> puzzle_is_goal g = true ->
    (sum_at tile_distance 0 (snd s) <= 2 * Z.of_nat (length plan))%Z.
Proof.
  induction plan as [| a rest IH]; intros s g Hwf Hlegal Hrun Hgoal;
    simpl in Hlegal, Hrun.
  - injection Hrun as ->. unfold puzzle_is_goal, py_range in Hgoal.
    apply bool_decide_eq_true in Hgoal. destruct g as [i b].
    simpl in *. injection Hgoal as _ Hb. rewrite Nat.sub_0_r in Hb.
    rewrite Hb, sum_at_range. lia.
  - destruct Hlegal as [Hin Hlegal].
    destruct (puzzle_do_action s a) as [s' |] eqn:Hdo; [| discriminate].
    destruct (puzzle_manhattan_step s s' a Hwf Hin Hdo) as [Hwf' Hle].
    specialize (IH s' g Hwf' Hlegal Hrun Hgoal).
    simpl length. lia.
Qed.

(** X26. The heuristic of [PuzzleProblem2], half the summed Manhattan
    distance of all nine tiles (the blank included), is admissible on
    the states whose blank index points into a board of nine tiles: it
    never exceeds the cost of a plan that reaches the goal. *)
Theorem puzzle_manhattan_heuristic_admissible :
  forall (s : Z * list Z) (plan : list string),
    puzzle_wf s ->
    reaches_goal PuzzleProblem s plan ->
    (puzzle2_heuristic s <= inject_Z (plan_cost PuzzleProblem s plan))%Q.
Proof.
  intros s plan Hwf (Hlegal & g & Hrun & Hgoal). simpl in Hgoal.
  rewrite (puzzle_plan_cost plan s g Hrun).
  pose proof (puzzle_manhattan_potential plan s g Hwf Hlegal Hrun Hgoal).
  unfold puzzle2_heuristic, Qle. cbn [Qnum Qden inject_Z].
  rewrite puzzle_manhattan_sum. lia.
Qed.

Lemma puzzle_manhattan_witness :
  puzzle_wf (1%Z, [1; 0; 2; 3; 4; 5; 6; 7; 8]%Z) /\
  reaches_goal PuzzleProblem (1%Z, [1; 0; 2; 3; 4; 5; 6; 7; 8]%Z) ["Left"] /\
  (puzzle2_heuristic (1%Z, [1; 0; 2; 3; 4; 5; 6; 7; 8]%Z)
   <= inject_Z (plan_cost PuzzleProblem
                  (1%Z, [1; 0; 2; 3; 4; 5; 6; 7; 8]%Z) ["Left"]))%Q.
Proof.
  assert (H1 : puzzle_wf (1%Z, [1; 0; 2; 3; 4; 5; 6; 7; 8]%Z))
    by (split; simpl; [lia | reflexivity]).
  assert (H2 : reaches_goal PuzzleProblem
                 (1%Z, [1; 0; 2; 3; 4; 5; 6; 7; 8]%Z) ["Left"]).
  { split.
    - simpl. tauto.
    - exists (0%Z, [0; 1; 2; 3; 4; 5; 6; 7; 8]%Z).
      split; reflexivity. }
  split; [exact H1 |]. split; [exact H2 |].
  exact (puzzle_manhattan_heuristic_admissible
           (1%Z, [1; 0; 2; 3; 4; 5; 6; 7; 8]%Z) ["Left"] H1 H2).
Defined.


(** * lab2: the variants of the vacuum world *)

(** X27. Neither variant heuristic is admissible. That of
    [VacuumProblem1], the number of clean rooms, equals the number of
    rooms on every goal state, where the empty plan costs 0; that of
    [VacuumProblem2], ten times the number of dirty rooms, is ten times
    a heuristic that some plan meets exactly. *)
Theorem vacuum_variant_heuristics_not_admissible :
  (forall state, is_goal VacuumProblem1 state = true ->
                 heuristic VacuumProblem1 state
                 = Z.of_nat (length (snd state))) /\
  ~ admissible VacuumProblem1 /\
  ~ admissible VacuumProblem2.
Proof.
  split; [| split].
  - intros [robot dirty] Hg. simpl in *.
    apply negb_true_iff in Hg. rewrite (sum_bools_no_dirt _ Hg). lia.
  - intros Hadm.
    specialize (Hadm (0%Z, [false; false]) []). simpl in Hadm.
    assert (H : (2 <= 0)%Z); [| lia].
    apply Hadm. split; [exact I |]. eexists. split; reflexivity.
  - intros Hadm.
    specialize (Hadm (0%Z, [true]) ["Suck"]). simpl in Hadm.
    assert (H : (10 <= 1)%Z); [| lia].
    apply Hadm. split; [simpl; tauto |]. eexists. split; reflexivity.
Qed.

(** lab2 cells 7 and 8: A* prints the same plan for both variants. *)
Example vacuum_variant_plans :
  astar vacuum_state_ltb String.ltb VacuumProblem1 20
  = Done (Some ["Suck"; "Right"; "Suck"]) /\
  astar vacuum_state_ltb String.ltb VacuumProblem2 20
  = Done (Some ["Suck"; "Right"; "Suck"]).
Proof. split; vm_compute; reflexivity. Qed.


(** * lab10: backward chaining at the recursion limit *)

Lemma pretty_N_go_nonempty (x : N) :
  forall s, s <> "" -> pretty_N_go x s <> "".
Proof.
  induction (N.lt_wf_0 x) as [x _ IH]. intros s Hs.
  destruct (decide (0 < x)%N) as [Hx | Hx].
  - rewrite pretty_N_go_step by exact Hx.
    apply IH; [| discriminate]. now apply N.div_lt.
  - assert (x = 0%N) as -> by lia. now rewrite pretty_N_go_0.
Qed.

Lemma pretty_nat_nonempty (i : nat) : pretty i <> "".
Proof.
  unfold pretty, pretty_nat, pretty, pretty_N.
  destruct (decide (N.of_nat i = 0%N)); [discriminate |].
  rewrite pretty_N_go_step by lia.
  apply pretty_N_go_nonempty. discriminate.
Qed.

Lemma ring_atom_inj (i j : nat) : ring_atom i = ring_atom j -> i = j.
Proof.
  unfold ring_atom. intros E.
  cbn [String.append] in E.
  injection E as E. exact (pretty_nat_inj i j E).
Qed.

Lemma ring_atom_no_char (i : nat) :
  ring_atom i ∉ (list_to_set (chars "x0") : gset atom).
Proof.
  pose proof (pretty_nat_nonempty i) as Hne.
  unfold ring_atom.
  cbn [String.append].
  change (list_to_set (chars "x0") : gset atom)
    with ({["x"]} ∪ ({["0"]} ∪ ∅) : gset atom).
  intros Hin.
  apply elem_of_union in Hin as [Hin | Hin].
  - apply elem_of_singleton in Hin. injection Hin as E. now apply Hne.
  - apply elem_of_union in Hin as [Hin | Hin];
      [apply elem_of_singleton in Hin; discriminate | set_solver].
Qed.

Lemma ring_filter (f : nat -> clause) (j : nat) :
  (forall i, snd (f i) = ring_atom i) ->
  forall m k,
    filter (fun c : clause => snd c = ring_atom j) (map f (seq k m))
    = if decide (k <= j < k + m) then [f j] else [].
Proof.
  intros Hf. induction m as [| m IH]; intros k; simpl.
  - destruct (decide (k <= j < k + 0)); [lia | reflexivity].
  - rewrite filter_cons, IH.
    destruct (decide (snd (f k) = ring_atom j)) as [E | E].
    + rewrite Hf in E. apply ring_atom_inj in E. subst k.
      destruct (decide (S j <= j < S j + m)); [lia |].
      destruct (decide (j <= j < j + S m)); [reflexivity | lia].
    + assert (k <> j) by (intros ->; apply E, Hf).
      destruct (decide (S k <= j < S k + m)),
               (decide (k <= j < k + S m)); try reflexivity; lia.
Qed.

Lemma bc_init_memo (kb : KBv) (a : atom) (b : bool) :
  bc_init kb !! a = Some (Some b) -> In ([], a) (kb_clauses kb).
Proof.
  unfold bc_init.
  assert (Hgen : forall cs (m : gmap atom (option bool)),
            fold_left
              (fun m (c : clause) =>
                 if bool_decide (fst c = []) then <[snd c := Some true]> m
                 else m) cs m !! a = Some (Some b) ->
            m !! a = Some (Some b) \/ In ([], a) cs).
  { induction cs as [| [p c] rest IH]; intros m; simpl; [auto |].
    intros Hl. destruct (IH _ Hl) as [Hm | Hin]; [| auto].
    destruct (bool_decide (p = [])) eqn:Hp; [| auto].
    apply bool_decide_eq_true in Hp. subst p.
    destruct (decide (c = a)) as [-> | Hne]; [auto |].
    rewrite lookup_insert_ne in Hm by exact Hne. auto. }
  intros Hl. destruct (Hgen _ _ Hl) as [Hm | Hin]; [| exact Hin].
  apply lookup_gset_to_gmap_Some in Hm as [_ Hm]. discriminate.
Qed.

Section Ring.
Variable n : nat.

Lemma ring_kb_clauses :
  kb_clauses (ring_kb n)
  = map (fun i => ([ring_atom (S i mod n)], ring_atom i)) (seq 0 n).
Proof. unfold ring_kb. apply kb_of_read. Qed.

(** From [x_j] the recursion walks on to [x_(j+1)], ..., and it comes
    back to [x_0], which [query] never put into [to_check]. *)
Lemma ring_descent (limit : nat) :
  forall j st,
    j + limit <= n ->
    (forall a, memo st a = None) ->
    (forall k, k = 0 \/ j < k -> ring_atom k ∉ to_check st) ->
    recursive_query_limited limit (ring_kb n) (ring_atom j) st
    = Raises RecursionError.
Proof.
  induction limit as [| limit IH]; intros j st Hj Hmemo Hfree;
    [reflexivity |].
  simpl. rewrite Hmemo, ring_kb_clauses.
  rewrite (ring_filter (fun i => ([ring_atom (S i mod n)], ring_atom i)) j)
    by reflexivity.
  destruct (decide (0 <= j < 0 + n)); [| lia]. simpl.
  destruct (decide (ring_atom (S j mod n) ∈ to_check st)) as [Hin | _].
  - exfalso. apply (Hfree (S j mod n)); [| exact Hin].
    destruct (decide (S j = n)) as [-> | Hne].
    + left. apply Nat.Div0.mod_same.
    + right. rewrite Nat.mod_small by lia. lia.
  - destruct limit as [| limit]; [reflexivity |].
    rewrite Nat.mod_small by lia.
    rewrite (IH (S j)); [reflexivity | lia | exact Hmemo |].
    intros k Hk. simpl. intros Hin.
    apply elem_of_union in Hin as [Hin | Hin].
    + apply elem_of_singleton, ring_atom_inj in Hin. lia.
    + apply (Hfree k); [lia | exact Hin].
Qed.

(** On the ring of [n] atoms the recursion for [x0] nests [n + 1] calls
    deep: where the interpreter allows no more than [n] nested calls,
    [query] raises [RecursionError]. With the default limit of 1000 that
    is so for every ring of 1000 atoms or more. *)
Lemma backward_query_exceeds_recursion_limit (limit : nat) :
  1 <= n -> limit <= n ->
  BackwardChainingReasoner_query_limited limit (ring_kb n) (ring_atom 0)
  = Raises RecursionError.
Proof.
  intros Hn Hlimit.
  assert (Hnofact : forall a b, bc_init (ring_kb n) !! a <> Some (Some b)).
  { intros a b Hl. apply bc_init_memo in Hl.
    rewrite ring_kb_clauses in Hl.
    apply in_map_iff in Hl as (i & [=] & _). }
  assert (Hmemo : forall T a,
             memo {| bc_inferred := bc_init (ring_kb n); to_check := T |} a
             = None).
  { intros T a. unfold memo. simpl.
    destruct (bc_init (ring_kb n) !! a) as [[b |] |] eqn:E;
      [exfalso; eapply Hnofact; eauto | reflexivity | reflexivity]. }
  unfold BackwardChainingReasoner_query_limited, bc_query_limited.
  rewrite Hmemo.
  destruct (decide (ring_atom 0 ∈ kb_symbols (ring_kb n))) as [_ | Hout].
  - rewrite (ring_descent limit 0); [reflexivity | lia | apply Hmemo |].
    intros k _. apply ring_atom_no_char.
  - exfalso. apply Hout. unfold ring_kb.
    rewrite (proj2 (kb_of_read _)).
    apply (clause_atoms_premise _ ([ring_atom (S (n - 1) mod n)],
                                   ring_atom (n - 1)) (ring_atom 0)).
    + apply in_map_iff. exists (n - 1). split; [reflexivity |].
      apply in_seq. lia.
    + simpl. left. f_equal. replace (S (n - 1)) with n by lia.
      apply Nat.Div0.mod_same.
Qed.
End Ring.

(** The ring of four atoms: the recursion limit is reached where the
    interpreter allows four nested calls, and with five [query] returns
    [False]. *)
Example ring_of_four :
  BackwardChainingReasoner_query_limited 4 (ring_kb 4) "x0"
  = Raises RecursionError /\
  BackwardChainingReasoner_query_limited 5 (ring_kb 4) "x0" = Done false.
Proof. split; vm_compute; reflexivity. Qed.
